(** * SpartanGold wallets: mnemonic codec, transactions and the client ledger view

    A shallow embedding of [src/mnemonic.js] (which also carries [utils.js]),
    [src/transaction.js] and [src/client.js], with the properties of the
    specification stated and settled against it.

    Conventions.
    - A JavaScript number that the code uses as an integer is a [Z]; a byte of
      a [Buffer] is a [Z] in [0, 256).
    - A JavaScript string is a [string]; [undefined] in a position that can
      hold a string is [None].
    - A call that may throw returns an [outcome]; a loop whose trip count is
      not structural takes fuel and answers [OutOfFuel] when it runs out. *)

From Stdlib Require Import ZArith String Ascii List Lia Bool.
From stdpp Require Import gmap strings list pretty.
Import ListNotations.

Local Open Scope Z_scope.

(** ** Outcomes of JavaScript calls *)

Inductive JsError : Type :=
  | TypeError
  | RangeError
  | Error (msg : string).

Inductive outcome (A : Type) : Type :=
  | Ret (a : A)
  | Throw (e : JsError)
  | OutOfFuel.

Arguments Ret {A} a.
Arguments Throw {A} e.
Arguments OutOfFuel {A}.

Definition obind {A B : Type} (m : outcome A) (k : A -> outcome B) : outcome B :=
  match m with
  | Ret a => k a
  | Throw e => Throw e
  | OutOfFuel => OutOfFuel
  end.

Notation "'do' x <- m ; k" := (obind m (fun x => k))
  (at level 10, x name, m at level 100, k at level 200).

(** ** String helpers: the JavaScript string methods the code calls *)

(** [s.substring(n)] *)
Fixpoint str_drop (n : nat) (s : string) : string :=
  match n, s with
  | O, _ => s
  | S n', String _ r => str_drop n' r
  | S _, EmptyString => EmptyString
  end.

(** [s.substring(0, n)] and [s.slice(0, n)] *)
Fixpoint str_take (n : nat) (s : string) : string :=
  match n, s with
  | O, _ => EmptyString
  | S n', String c r => String c (str_take n' r)
  | S _, EmptyString => EmptyString
  end.

(** [s.split(' ')]: the pieces between single spaces, empty pieces kept. *)
Fixpoint js_split_space (s : string) : list string :=
  match s with
  | EmptyString => [EmptyString]
  | String c r =>
      if Ascii.eqb c " "%char then EmptyString :: js_split_space r
      else match js_split_space r with
           | h :: t => String c h :: t
           | [] => [String c EmptyString]
           end
  end.

(** Concatenation of a list of strings, left to right. *)
Fixpoint scat (l : list string) : string :=
  match l with
  | [] => EmptyString
  | x :: r => x +:+ scat r
  end.

(** ** [mnemonic.js] *)

Module Mnemonic.

Definition NUM_BYTES : nat := 32.

(** [byte & mask ? "1" : "0"] *)
Definition bitOf (byte mask : Z) : string :=
  if Z.land byte mask =? 0 then "0" else "1".

Definition convertByteToBinString (byte : Z) : string :=
  let bs := EmptyString in
  let bs := bs +:+ bitOf byte 0x80 in
  let bs := bs +:+ bitOf byte 0x40 in
  let bs := bs +:+ bitOf byte 0x20 in
  let bs := bs +:+ bitOf byte 0x10 in
  let bs := bs +:+ bitOf byte 0x08 in
  let bs := bs +:+ bitOf byte 0x04 in
  let bs := bs +:+ bitOf byte 0x02 in
  let bs := bs +:+ bitOf byte 0x01 in
  bs.

(** [parseInt(bs, 2)]: the value of the longest prefix of binary digits,
    [None] (NaN) when there is none.  Every caller passes a string of
    ['0'] and ['1'], so the leading blanks and the sign that [parseInt] also
    accepts do not occur. *)
Fixpoint parseInt2 (bs : string) (acc : option Z) : option Z :=
  match bs with
  | String c r =>
      if Ascii.eqb c "0"%char then parseInt2 r (Some (2 * default 0 acc))
      else if Ascii.eqb c "1"%char then parseInt2 r (Some (2 * default 0 acc + 1))
      else acc
  | EmptyString => acc
  end.

Definition convertBinStringToByte (bs : string) : option Z := parseInt2 bs None.

(** [bitString.match(/.{11}/g)]: the consecutive groups of 11 characters, a
    shorter tail dropped, [None] ([null]) when there is no group at all.  The
    bit string holds no line terminator, so [.] matches every character. *)
Definition match11 (s : string) : option (list string) :=
  match map (fun i => str_take 11 (str_drop (11 * i) s))
            (List.seq 0 (String.length s / 11)%nat) with
  | [] => None
  | l => Some l
  end.

(** The body of the [map] callback of [split]: the loop over the characters
    of one group.  [bitPosVal] is halved at every character; over the 11
    characters of a group it runs through 1024, ..., 1 and the division is
    exact. *)
Fixpoint elevenBitsValue (bs : string) (bitPosVal val : Z) : Z :=
  match bs with
  | EmptyString => val
  | String bit r =>
      elevenBitsValue r (bitPosVal / 2)
        (if Ascii.eqb bit "1"%char then val + bitPosVal else val)
  end.

Definition bitStringOf (buf : list Z) : string :=
  fold_left (fun bitString byte => bitString +:+ convertByteToBinString byte) buf EmptyString.

(** [split(seq)]: [null.map] raises a TypeError. *)
Definition split (buf : list Z) : outcome (list Z) :=
  match match11 (bitStringOf buf) with
  | None => Throw TypeError
  | Some elevenBits => Ret (map (fun bs => elevenBitsValue bs 1024 0) elevenBits)
  end.

(** The [while (bitPosVal >= 1)] loop of [translate11bit].  [1 / 2] is 0.5 in
    JavaScript and 0 here; both end the loop. *)
Fixpoint translate11bit_loop (fuel : nat) (bitPosVal n : Z) (bs : string) : outcome string :=
  if 1 <=? bitPosVal then
    match fuel with
    | O => OutOfFuel
    | S fuel' =>
        if bitPosVal <=? n
        then translate11bit_loop fuel' (bitPosVal / 2) (n - bitPosVal) (bs +:+ "1")
        else translate11bit_loop fuel' (bitPosVal / 2) n (bs +:+ "0")
    end
  else Ret bs.

Definition translate11bit (n : Z) : outcome string :=
  translate11bit_loop 11 1024 n EmptyString.

(** [buf.writeUInt8(value, offset)]: a value outside [0, 255] or an offset
    outside the buffer raises a RangeError; NaN ([None]) is stored as 0. *)
Definition writeUInt8 (buf : list Z) (value : option Z) (offset : nat) : outcome (list Z) :=
  let v := default 0 value in
  if (v <? 0) || (255 <? v) then Throw RangeError
  else if (offset <? length buf)%nat then Ret (<[offset := v]> buf)
  else Throw RangeError.

Definition readUInt8 (buf : list Z) (offset : nat) : outcome Z :=
  match buf !! offset with
  | Some b => Ret b
  | None => Throw RangeError
  end.

(** [Buffer.alloc(n)] *)
Definition alloc (n : nat) : list Z := repeat 0 n.

Definition hexDigit (d : Z) : ascii :=
  match d with
  | 0 => "0" | 1 => "1" | 2 => "2" | 3 => "3" | 4 => "4" | 5 => "5" | 6 => "6" | 7 => "7"
  | 8 => "8" | 9 => "9" | 10 => "a" | 11 => "b" | 12 => "c" | 13 => "d" | 14 => "e" | _ => "f"
  end%char.

(** [buf.toString('hex')] *)
Fixpoint toHex (buf : list Z) : string :=
  match buf with
  | [] => EmptyString
  | b :: r => String (hexDigit (b / 16)) (String (hexDigit (b mod 16)) (toHex r))
  end.

Section WithWordlist.

(** [bip39.wordlists.english]: an ordered list of 2048 distinct words,
    supplied by the [bip39] package. *)
Variable wordlist : list string.

(** [crypto.createHash('sha256').update(buf).digest()], on the bytes of a
    string; supplied by Node. *)
Variable sha256 : string -> list Z.

(** [this.wordlist[v]], with [undefined] turned into text by [" " + ...]. *)
Definition wordAt (v : Z) : string :=
  match wordlist !! Z.to_nat v with
  | Some w => w
  | None => "undefined"
  end.

Definition words (buf : list Z) : outcome string :=
  do arr <- split buf ;
  let stringBuilder :=
    fold_left (fun sb v => sb +:+ (" " +:+ wordAt v)) arr EmptyString in
  Ret (str_drop 1 stringBuilder).

(** The seed of the hash: [this.seq.toString('hex').slice(0, NUM_BYTES)]. *)
Definition seqHex (buf : list Z) : string := str_take NUM_BYTES (toHex buf).

(** [h[0]]: [None] is [undefined]. *)
Definition calcChecksum (buf : list Z) : option Z := sha256 (seqHex buf) !! 0%nat.

(** The inner [for (let j in this.wordlist)] loop for one word; [j] is the
    index of the head of [wl]. *)
Fixpoint lookupWord (word : string) (wl : list string) (j : Z) (binString : string)
  : outcome string :=
  match wl with
  | [] => Ret binString
  | wj :: rest =>
      if String.eqb word wj then
        do bs <- translate11bit j ;
        lookupWord word rest (j + 1) (binString +:+ (EmptyString +:+ bs))
      else lookupWord word rest (j + 1) binString
  end.

(** The outer [for (let i in wordArray)] loop. *)
Fixpoint lookupWords (wordArray : list string) (binString : string) : outcome string :=
  match wordArray with
  | [] => Ret binString
  | w :: rest =>
      do binString' <- lookupWord w wordlist 0 binString ;
      lookupWords rest binString'
  end.

(** The [while (position !== NUM_BYTES + 1)] loop; [todo] is the distance of
    [position] from its bound. *)
Fixpoint fillBytes (todo : nat) (position : nat) (binString : string) (buf : list Z)
  : outcome (list Z) :=
  match todo with
  | O => Ret buf
  | S todo' =>
      let temp := convertBinStringToByte (str_take 8 binString) in
      do buf' <- writeUInt8 buf temp position ;
      fillBytes todo' (S position) (str_drop 8 binString) buf'
  end.

(** [calculateSequence(words)]: the new value of [this.seq]. *)
Definition calculateSequence (phrase : string) : outcome (list Z) :=
  let wordArray := js_split_space phrase in
  let buf := alloc (NUM_BYTES + 1) in
  do binString <- lookupWords wordArray EmptyString ;
  fillBytes (NUM_BYTES + 1) 0 binString buf.

Definition isValid (buf : list Z) : outcome bool :=
  let checksum := calcChecksum buf in
  do stored <- readUInt8 buf NUM_BYTES ;
  Ret (bool_decide (checksum = Some stored)).

(** [new Mnemonic()]: [entropy] is what [crypto.randomFillSync] leaves in the
    33 bytes of the fresh buffer. *)
Definition constructor (entropy : list Z) : outcome (list Z) :=
  writeUInt8 entropy (calcChecksum entropy) NUM_BYTES.

End WithWordlist.

End Mnemonic.

(** ** [utils.js] *)

(** A JSON value, as [JSON.stringify] takes it. *)
#[local] Unset Elimination Schemes.
Inductive JSON : Type :=
  | JNull
  | JNum (n : Z)
  | JStr (s : string)
  | JArr (items : list JSON)
  | JObj (fields : list (string * JSON)).
#[local] Set Elimination Schemes.

(** What Node supplies to [utils.js] and [transaction.js]. *)
Class Crypto : Type := {
  (** [crypto.createHash('sha256').update(s).digest(encoding)] *)
  digest : string -> string -> string;
  (** [crypto.createSign('RSA-SHA256').update(str).sign(privKey, 'hex')] *)
  rsaSign : string -> string -> string;
  (** [crypto.createVerify('RSA-SHA256').update(str).verify(pubKey, sig, 'hex')],
      for a key in PEM form *)
  rsaVerify : string -> string -> string -> bool;
  JSON_stringify : JSON -> string;
}.

Module Utils.
Section WithCrypto.
Context `{Crypto}.

(** [encoding = encoding || 'hex'] *)
Definition hash (s : string) (encoding : option string) : string :=
  let encoding :=
    match encoding with
    | None | Some EmptyString => "hex"
    | Some e => e
    end in
  digest s encoding.

(** [msg] is a string at every call, so [str] is the empty string followed
    by [msg]. *)
Definition sign (privKey : string) (msg : string) : string :=
  let str := EmptyString +:+ msg in
  rsaSign privKey str.

(** An [undefined] key makes [verify] raise a TypeError. *)
Definition verifySignature (pubKey : option string) (msg : string) (sig : string)
  : outcome bool :=
  let str := EmptyString +:+ msg in
  match pubKey with
  | Some k => Ret (rsaVerify k str sig)
  | None => Throw TypeError
  end.

(** An [undefined] key turns into the text [undefined] when it is appended
    to the empty string. *)
Definition calcAddress (key : option string) : string :=
  hash (EmptyString +:+ default "undefined" key) (Some "base64").

Definition addressMatchesKey (addr : string) (pubKey : option string) : bool :=
  String.eqb addr (calcAddress pubKey).

End WithCrypto.
End Utils.

(** ** Loops with an early [return] *)

Inductive control (A : Type) : Type :=
  | Next
  | Return (v : A).

Arguments Next {A}.
Arguments Return {A} v.

(** [for (let i = start; i < start + todo; i++) body(i)]; [None] is the
    [undefined] a function gives when the loop ends without a [return]. *)
Fixpoint for_range {A : Type} (start todo : nat) (body : nat -> outcome (control A))
  : outcome (option A) :=
  match todo with
  | O => Ret None
  | S todo' =>
      do c <- body start ;
      match c with
      | Return v => Ret (Some v)
      | Next => for_range (S start) todo' body
      end
  end.

(** ** [transaction.js] *)

Record Output : Type := { amount : Z; address : string }.

Record Transaction : Type := {
  from : list string;
  nonce : Z;
  pubKey : list string;
  sig : list string;
  outputs : list Output;
  fee : Z;
  data : JSON;
}.

Module Tx.
Section WithCrypto.
Context `{Crypto}.

Definition TX_CONST : string := "TX".

(** [new Transaction({from, nonce, pubKey, outputs, fee})], with amounts that
    are numbers already: [sig] and [data] take their defaults. *)
Definition constructor (from : list string) (nonce : Z) (pubKey : list string)
    (outputs : list Output) (fee : Z) : Transaction :=
  {| from := from; nonce := nonce; pubKey := pubKey; sig := [];
     outputs := map (fun o => {| amount := amount o; address := address o |}) outputs;
     fee := fee; data := JObj [] |}.

(** The object handed to [JSON.stringify] by the getter [id]. *)
Definition idFields (tx : Transaction) : JSON :=
  JObj [ ("from", JArr (map JStr (from tx)));
         ("nonce", JNum (nonce tx));
         ("pubKey", JArr (map JStr (pubKey tx)));
         ("outputs", JArr (map (fun o => JObj [("amount", JNum (amount o));
                                               ("address", JStr (address o))])
                               (outputs tx)));
         ("fee", JNum (fee tx));
         ("data", data tx) ].

Definition id (tx : Transaction) : string :=
  Utils.hash (TX_CONST +:+ JSON_stringify (idFields tx)) None.

(** [this.sig.push(utils.sign(privKey, this.id))] *)
Definition sign (tx : Transaction) (privKey : string) : Transaction :=
  {| from := from tx; nonce := nonce tx; pubKey := pubKey tx;
     sig := sig tx ++ [Utils.sign privKey (id tx)];
     outputs := outputs tx; fee := fee tx; data := data tx |}.

(** The body of the [for] loop of [validSignature]. *)
Definition validSignature_body (tx : Transaction) (i : nat) : outcome (control bool) :=
  (* [i < this.from.length], so [this.from[i]] is there *)
  if negb (Utils.addressMatchesKey (default EmptyString (from tx !! i)) (pubKey tx !! i))
  then Ret (Return false)
  else
    match sig tx !! i with
    | None => Ret (Return false)
    | Some s =>
        do ok <- Utils.verifySignature (pubKey tx !! i) (id tx) s ;
        if negb ok then Ret (Return false)
        else Ret (Return true)
    end.

Definition validSignature (tx : Transaction) : outcome (option bool) :=
  for_range 0 (length (from tx)) (validSignature_body tx).


(** The three checks of the specification at index [i]. *)
Definition indexPasses (tx : Transaction) (i : nat) : Prop :=
  (exists a, from tx !! i = Some a /\ Utils.addressMatchesKey a (pubKey tx !! i) = true) /\
  (exists s, sig tx !! i = Some s /\
             Utils.verifySignature (pubKey tx !! i) (id tx) s = Ret true).

End WithCrypto.
End Tx.

(** ** [client.js] *)

Record KeyPair : Type := { public : string; private : string }.

Record Slot : Type := { slot_address : string; slot_keyPair : KeyPair }.

(** The contract of [Block] ([block.js]), as the client uses it.
    [balanceOf] takes what the client passes, [undefined] ([None]) included. *)
Class BlockContract (Block : Type) : Type := {
  block_eq_dec :: EqDecision Block;
  block_id : Block -> string;
  prevBlockHash : Block -> string;
  chainLength : Block -> Z;
  isGenesisBlock : Block -> bool;
  hasValidProof : Block -> bool;
  rerun : Block -> Block -> bool;
  balanceOf : Block -> option string -> Z;
  contains : Block -> Transaction -> bool;
}.

(** The settings of [Blockchain] ([blockchain.js]) and the key stream that
    [pki.rsa.generateKeyPair] draws from the seeded generator: [keystream n]
    is the key pair of the draw number [n]. *)
Class Chain : Type := {
  CONFIRMED_DEPTH : Z;
  DEFAULT_TX_FEE : Z;
  keystream : nat -> KeyPair;
}.

Section Client.
Context {Block : Type} `{BlockContract Block} `{Crypto} `{Chain}.

(** What the client hands to [this.net]. *)
Inductive Message : Type :=
  | PostTransaction (tx : Transaction)
  | MissingBlock (sender : option string) (missing : string).

Record Client : Type := {
  wallet : list Slot;
  c_address : option string;
  c_keyPair : option KeyPair;
  pendingOutgoingTransactions : gmap string Transaction;
  blocks : gmap string Block;
  pendingBlocks : gmap string (list Block);
  lastBlock : option Block;
  lastConfirmedBlock : option Block;
  (** the number of key pairs drawn from [this.prng] *)
  prng : nat;
  (** the broadcasts handed to [this.net], oldest first *)
  net : list Message;
}.

Definition set_wallet (w : list Slot) (st : Client) : Client :=
  {| wallet := w; c_address := c_address st; c_keyPair := c_keyPair st;
     pendingOutgoingTransactions := pendingOutgoingTransactions st;
     blocks := blocks st; pendingBlocks := pendingBlocks st;
     lastBlock := lastBlock st; lastConfirmedBlock := lastConfirmedBlock st;
     prng := prng st; net := net st |}.

Definition set_pendingOutgoingTransactions (m : gmap string Transaction) (st : Client) : Client :=
  {| wallet := wallet st; c_address := c_address st; c_keyPair := c_keyPair st;
     pendingOutgoingTransactions := m;
     blocks := blocks st; pendingBlocks := pendingBlocks st;
     lastBlock := lastBlock st; lastConfirmedBlock := lastConfirmedBlock st;
     prng := prng st; net := net st |}.

Definition set_blocks (m : gmap string Block) (st : Client) : Client :=
  {| wallet := wallet st; c_address := c_address st; c_keyPair := c_keyPair st;
     pendingOutgoingTransactions := pendingOutgoingTransactions st;
     blocks := m; pendingBlocks := pendingBlocks st;
     lastBlock := lastBlock st; lastConfirmedBlock := lastConfirmedBlock st;
     prng := prng st; net := net st |}.

Definition set_pendingBlocks (m : gmap string (list Block)) (st : Client) : Client :=
  {| wallet := wallet st; c_address := c_address st; c_keyPair := c_keyPair st;
     pendingOutgoingTransactions := pendingOutgoingTransactions st;
     blocks := blocks st; pendingBlocks := m;
     lastBlock := lastBlock st; lastConfirmedBlock := lastConfirmedBlock st;
     prng := prng st; net := net st |}.

Definition set_lastBlock (b : option Block) (st : Client) : Client :=
  {| wallet := wallet st; c_address := c_address st; c_keyPair := c_keyPair st;
     pendingOutgoingTransactions := pendingOutgoingTransactions st;
     blocks := blocks st; pendingBlocks := pendingBlocks st;
     lastBlock := b; lastConfirmedBlock := lastConfirmedBlock st;
     prng := prng st; net := net st |}.

Definition set_lastConfirmedBlock (b : option Block) (st : Client) : Client :=
  {| wallet := wallet st; c_address := c_address st; c_keyPair := c_keyPair st;
     pendingOutgoingTransactions := pendingOutgoingTransactions st;
     blocks := blocks st; pendingBlocks := pendingBlocks st;
     lastBlock := lastBlock st; lastConfirmedBlock := b;
     prng := prng st; net := net st |}.

(** [this.net.broadcast(topic, payload)] *)
Definition broadcast (m : Message) (st : Client) : Client :=
  {| wallet := wallet st; c_address := c_address st; c_keyPair := c_keyPair st;
     pendingOutgoingTransactions := pendingOutgoingTransactions st;
     blocks := blocks st; pendingBlocks := pendingBlocks st;
     lastBlock := lastBlock st; lastConfirmedBlock := lastConfirmedBlock st;
     prng := prng st; net := net st ++ [m] |}.

(** The end of a method that changes the client: its value and the client
    it leaves, the exception it raised and the client it leaves, or no end
    within the fuel. *)
Inductive result (A : Type) : Type :=
  | Done (v : A) (st : Client)
  | Raised (e : JsError) (st : Client)
  | Diverged.

Arguments Done {A} v st.
Arguments Raised {A} e st.
Arguments Diverged {A}.

Definition rbind {A B : Type} (m : result A) (k : A -> Client -> result B) : result B :=
  match m with
  | Done v st => k v st
  | Raised e st => Raised e st
  | Diverged => Diverged
  end.

(** The client a call leaves behind, when it ends. *)
Definition state_after {A : Type} (r : result A) : option Client :=
  match r with
  | Done _ st => Some st
  | Raised _ st => Some st
  | Diverged => None
  end.

(** [this.generateKeypairFromMnemonic()]: the next draw of [this.prng]. *)
Definition generateKeypairFromMnemonic (st : Client) : KeyPair * Client :=
  (keystream (prng st),
   {| wallet := wallet st; c_address := c_address st; c_keyPair := c_keyPair st;
      pendingOutgoingTransactions := pendingOutgoingTransactions st;
      blocks := blocks st; pendingBlocks := pendingBlocks st;
      lastBlock := lastBlock st; lastConfirmedBlock := lastConfirmedBlock st;
      prng := S (prng st); net := net st |}).

Definition generateAddress (st : Client) : string * Client :=
  let '(kp, st) := generateKeypairFromMnemonic st in
  let addr := Utils.calcAddress (Some (public kp)) in
  (addr,
   {| wallet := wallet st ++ [{| slot_address := addr; slot_keyPair := kp |}];
      c_address := Some addr; c_keyPair := Some kp;
      pendingOutgoingTransactions := pendingOutgoingTransactions st;
      blocks := blocks st; pendingBlocks := pendingBlocks st;
      lastBlock := lastBlock st; lastConfirmedBlock := lastConfirmedBlock st;
      prng := prng st; net := net st |}).

(** [getConfirmedBalance()]: [this.lastConfirmedBlock] is read once per
    slot, so an empty wallet gives 0 even without a confirmed block. *)
Definition getConfirmedBalance (st : Client) : outcome Z :=
  match wallet st with
  | [] => Ret 0
  | _ :: _ =>
      match lastConfirmedBlock st with
      | None => Throw TypeError
      | Some b =>
          Ret (fold_left (fun totalAmount s => totalAmount + balanceOf b (Some (slot_address s)))
                 (wallet st) 0)
      end
  end.

(** The [while (total > gathered)] loop of [postTransaction]: every turn
    shifts the wallet, so it is bounded by the wallet.  [undefined["address"]]
    on an empty wallet raises a TypeError. *)
Fixpoint gatherUTXOs (w : list Slot) (total gathered : Z)
    (gatheredPriv gatheredAddrs gatheredKeys : list string) (st : Client)
  : result (Z * list string * list string * list string) :=
  if gathered <? total then
    match w with
    | [] => Raised TypeError (set_wallet [] st)
    | nextKey :: w' =>
        match lastConfirmedBlock st with
        | None => Raised TypeError (set_wallet w' st)
        | Some b =>
            gatherUTXOs w' total
              (gathered + balanceOf b (Some (slot_address nextKey)))
              (gatheredPriv ++ [private (slot_keyPair nextKey)])
              (gatheredAddrs ++ [slot_address nextKey])
              (gatheredKeys ++ [public (slot_keyPair nextKey)])
              st
        end
    end
  else Done (gathered, gatheredPriv, gatheredAddrs, gatheredKeys) (set_wallet w st).

(** [postTransaction(outputs, fee)] of a plain client (no [addTransaction]).
    [Blockchain.makeTransaction] builds the transaction with the
    constructor of [Transaction]. *)
Definition postTransaction (outputs : list Output) (fee : option Z) (st : Client)
  : result Transaction :=
  let fee := default DEFAULT_TX_FEE fee in
  let total := fold_left (fun total o => total + amount o) outputs 0 in
  let total := total + fee in
  match getConfirmedBalance st with
  | Throw e => Raised e st
  | OutOfFuel => Diverged
  | Ret balance =>
      if balance <? total then Raised (Error "Not enough money!") st
      else
        rbind (gatherUTXOs (wallet st) total 0 [] [] [] st)
          (fun '(gathered, gatheredPriv, gatheredAddrs, gatheredKeys) st =>
             let '(outputs, st) :=
               if total <? gathered then
                 let change := gathered - total in
                 let '(newAddr, st) := generateAddress st in
                 (outputs ++ [{| amount := change; address := newAddr |}], st)
               else (outputs, st) in
             let tx := Tx.constructor gatheredAddrs 0 gatheredKeys outputs fee in
             let tx := fold_left Tx.sign gatheredPriv tx in
             let st := set_pendingOutgoingTransactions
                         (<[Tx.id tx := tx]> (pendingOutgoingTransactions st)) st in
             let st := broadcast (PostTransaction tx) st in
             Done tx st)
  end.

(** [requestMissingBlock(block)] *)
Definition requestMissingBlock (block : Block) (st : Client) : Client :=
  broadcast (MissingBlock (c_address st) (prevBlockHash block)) st.

(** The [while (block.chainLength > confirmedBlockHeight)] loop of
    [setLastConfirmed]; a parent that is not in [blocks] makes
    [block.chainLength] raise a TypeError. *)
Fixpoint walkBack (fuel : nat) (blocks : gmap string Block) (confirmedBlockHeight : Z)
    (block : Block) : outcome Block :=
  if confirmedBlockHeight <? chainLength block then
    match fuel with
    | O => OutOfFuel
    | S fuel' =>
        match blocks !! prevBlockHash block with
        | None => Throw TypeError
        | Some parent => walkBack fuel' blocks confirmedBlockHeight parent
        end
    end
  else Ret block.

Definition setLastConfirmed (fuel : nat) (st : Client) : result unit :=
  match lastBlock st with
  | None => Raised TypeError st
  | Some block =>
      let confirmedBlockHeight := chainLength block - CONFIRMED_DEPTH in
      let confirmedBlockHeight :=
        if confirmedBlockHeight <? 0 then 0 else confirmedBlockHeight in
      match walkBack fuel (blocks st) confirmedBlockHeight block with
      | OutOfFuel => Diverged
      | Throw e => Raised e st
      | Ret block =>
          let st := set_lastConfirmedBlock (Some block) st in
          Done tt (set_pendingOutgoingTransactions
                     (filter (fun '(_, tx) => contains block tx = false)
                        (pendingOutgoingTransactions st)) st)
      end
  end.

(** [stuckBlocks.add(block)] on a [Set] kept in insertion order.  A value of
    [Block] stands for one block object, so the block that is in the set
    already is not added again. *)
Definition set_add (block : Block) (stuckBlocks : list Block) : list Block :=
  if decide (block ∈ stuckBlocks) then stuckBlocks else stuckBlocks ++ [block].

(** [unstuckBlocks.forEach(b => this.receiveBlock(b))]; an exception ends
    the walk. *)
Fixpoint forEachBlock (f : Block -> Client -> result (option Block))
    (l : list Block) (st : Client) : result unit :=
  match l with
  | [] => Done tt st
  | b :: r => rbind (f b st) (fun _ st => forEachBlock f r st)
  end.

(** The end of [receiveBlock], from "Storing the block" on, for a block that
    passed the checks; [receive] is [receiveBlock] itself, called on the
    blocks that waited for this one. *)
Definition receiveBlock_store (receive : Block -> Client -> result (option Block))
    (fuel : nat) (block : Block) (st : Client) : result (option Block) :=
  let st := set_blocks (<[block_id block := block]> (blocks st)) st in
  rbind
    match lastBlock st with
    | None => Raised TypeError st
    | Some last =>
        if chainLength last <? chainLength block
        then setLastConfirmed fuel (set_lastBlock (Some block) st)
        else Done tt st
    end
    (fun _ st =>
       let unstuckBlocks := default [] (pendingBlocks st !! block_id block) in
       let st := set_pendingBlocks (delete (block_id block) (pendingBlocks st)) st in
       rbind (forEachBlock receive unstuckBlocks st)
         (fun _ st => Done (Some block) st)).

(** [receiveBlock(block)]: [Blockchain.deserializeBlock] is the identity on
    a [Block], the log lines are left out, and [None] is the [null] the
    method answers for a block it does not store.  The fuel bounds the depth of
    the recursion through the stuck blocks and the walk of
    [setLastConfirmed]. *)
Fixpoint receiveBlock (fuel : nat) (block : Block) (st : Client) : result (option Block) :=
  match fuel with
  | O => Diverged
  | S fuel' =>
      if decide (is_Some (blocks st !! block_id block)) then Done None st
      else if negb (hasValidProof block) && negb (isGenesisBlock block) then Done None st
      else
        let prevBlock := blocks st !! prevBlockHash block in
        match prevBlock, isGenesisBlock block with
        | None, false =>
            let stuckBlocks := pendingBlocks st !! prevBlockHash block in
            let '(stuckBlocks, st) :=
              match stuckBlocks with
              | None => ([], requestMissingBlock block st)
              | Some stuckBlocks => (stuckBlocks, st)
              end in
            let stuckBlocks := set_add block stuckBlocks in
            Done None (set_pendingBlocks
                         (<[prevBlockHash block := stuckBlocks]> (pendingBlocks st)) st)
        | _, _ =>
            let success :=
              match prevBlock, isGenesisBlock block with
              | Some prevBlock, false => rerun block prevBlock
              | _, _ => true
              end in
            if negb success then Done None st
            else receiveBlock_store (receiveBlock fuel') fuel' block st
        end
  end.

(** [recoverFunds(maxAttempts)].  The value is an instrument of the model, not
    of the code: the arguments of the calls of [balanceOf], in the order of the
    calls.  [checkAddress] is [None] until the loop body assigns it. *)
Fixpoint recoverFunds_loop (fuel : nat) (confirmed : Block) (maxAttempts attempts : Z)
    (checkAddress : option string) (queries : list (option string)) (st : Client)
  : result (list (option string)) :=
  let queries := queries ++ [checkAddress] in
  if negb (balanceOf confirmed checkAddress =? 0) || (attempts <? maxAttempts) then
    match fuel with
    | O => Diverged
    | S fuel' =>
        let '(genKeyPair, st) := generateKeypairFromMnemonic st in
        let checkAddress := Some (Utils.calcAddress (Some (public genKeyPair))) in
        let queries := queries ++ [checkAddress] in
        if balanceOf confirmed checkAddress =? 0 then
          recoverFunds_loop fuel' confirmed maxAttempts (attempts + 1) checkAddress queries st
        else
          let slot :=
            {| slot_address := Utils.calcAddress (Some (public genKeyPair));
               slot_keyPair := genKeyPair |} in
          let st := set_wallet (wallet st ++ [slot]) st in
          let queries := queries ++ [checkAddress] in
          recoverFunds_loop fuel' confirmed maxAttempts 0 checkAddress queries st
    end
  else Done queries st.

Definition recoverFunds (fuel : nat) (maxAttempts : option Z) (st : Client)
  : result (list (option string)) :=
  let maxAttempts := default 5 maxAttempts in
  match lastConfirmedBlock st with
  | None => Raised TypeError st
  | Some confirmed => recoverFunds_loop fuel confirmed maxAttempts 0 None [] st
  end.

(** The head of [st'] is that of [st] or a longer block, and [st'] knows
    every block id that [st] knows. *)
Definition grows (st st' : Client) : Prop :=
  (lastBlock st' = lastBlock st \/
   exists l l', lastBlock st = Some l /\ lastBlock st' = Some l' /\
                chainLength l < chainLength l') /\
  (forall k, is_Some (blocks st !! k) -> is_Some (blocks st' !! k)).

(** [block] is linked to a block of length 0 or less through parents that are
    in [m], the lengths going down along the way. *)
Inductive anchored (m : gmap string Block) : Block -> Prop :=
  | anchored_base block :
      chainLength block <= 0 -> anchored m block
  | anchored_step block parent :
      m !! prevBlockHash block = Some parent ->
      chainLength parent < chainLength block ->
      anchored m parent ->
      anchored m block.

End Client.

Arguments Done {Block A} v st.
Arguments Raised {Block A} e st.
Arguments Diverged {Block A}.

(** ** The rest of [utils.js], [transaction.js] and [client.js] *)

Module UtilsMore.
Section WithMaps.
Context {V : Type}.

(** [checkAddresses(minerMap, blockMap)]: [keys] are the keys that
    [for (let i in minerMap)] runs through, in its order; the object that is
    returned is a map from its keys. *)
Definition checkAddresses (keys : list string) (blockMap : gmap string V) : gmap string V :=
  fold_left
    (fun temp i =>
       match blockMap !! i with
       | Some v => <[i := v]> temp
       | None => temp
       end)
    keys ∅.

End WithMaps.

(** [generateMnemonic()]: [entropy] is what [crypto.randomFillSync] leaves in
    the buffer of the new [Mnemonic]; [words] runs once for the log line and
    once for the value. *)
Definition generateMnemonic (wordlist : list string) (sha256 : string -> list Z)
    (entropy : list Z) : outcome string :=
  do mnemonic <- Mnemonic.constructor sha256 entropy ;
  do logged <- Mnemonic.words wordlist mnemonic ;
  Mnemonic.words wordlist mnemonic.

End UtilsMore.

Section TransactionFunds.
Context {Block : Type} `{BlockContract Block}.



End TransactionFunds.

Section ClientMore.
Context {Block : Type} `{BlockContract Block} `{Crypto} `{Chain}.

(** [setGenesisBlock(startingBlock)] *)
Definition setGenesisBlock (startingBlock : Block) (st : Client) : result unit :=
  match lastBlock st with
  | Some _ => Raised (Error "Cannot set genesis block for existing blockchain.") st
  | None =>
      let st := set_lastConfirmedBlock (Some startingBlock) st in
      let st := set_lastBlock (Some startingBlock) st in
      Done tt (set_blocks (<[block_id startingBlock := startingBlock]> (blocks st)) st)
  end.

(** [new Client({name, password, net, startingBlock, mnemonic})].
    [hasInstance] is the answer of [Blockchain.hasInstance()]; the seed made
    from the mnemonic and the password is the one of the key stream.  The maps
    are empty from the start: nothing reads them before the constructor
    assigns them. *)
Definition constructor (hasInstance : bool) (mnemonic : option string)
    (startingBlock : option Block) : outcome Client :=
  let st :=
    {| wallet := []; c_address := None; c_keyPair := None;
       pendingOutgoingTransactions := ∅; blocks := ∅; pendingBlocks := ∅;
       lastBlock := None; lastConfirmedBlock := None; prng := 0; net := [] |} in
  do st <-
    (if hasInstance then
       match mnemonic with
       | None => Throw (Error "mnemonic not set")
       | Some _ => Ret (snd (generateAddress st))
       end
     else Ret st) ;
  match startingBlock with
  | None => Ret st
  | Some startingBlock =>
      match setGenesisBlock startingBlock st with
      | Done _ st => Ret st
      | Raised e _ => Throw e
      | Diverged => OutOfFuel
      end
  end.



(** [provideMissingBlock(msg)]: the block handed to
    [this.net.sendMessage] and the address it is sent to, if any. *)
Definition provideMissingBlock (sender : option string) (missing : string) (st : Client)
  : option (option string * Block) :=
  if decide (is_Some (blocks st !! missing)) then
    match blocks st !! missing with
    | Some block => Some (sender, block)
    | None => None
    end
  else None.

End ClientMore.

(** A word list for running the codec: 2048 distinct words without blanks,
    the word of index [i] spelling [i] in binary with the letters a and b. *)
Definition demo_word (i : nat) : string :=
  scat (map (fun k => if Nat.testbit i k then "b" else "a") (rev (List.seq 0 11))).

Definition demo_wordlist : list string := map demo_word (List.seq 0 2048).

(** A digest for running the checksum: 32 bytes computed from the length. *)
Definition demo_digest (s : string) : list Z :=
  repeat (Z.of_nat (String.length s) mod 256) 32.

(** ** Instances for running the transaction and client code *)

(** A digest that keeps its input readable. *)
Definition demo_hash (s encoding : string) : string := encoding +:+ "(" +:+ s +:+ ")".

(** A serializer that keeps the structure of the value. *)
Fixpoint demo_stringify (j : JSON) : string :=
  match j with
  | JNull => "null"
  | JNum n => pretty n
  | JStr s => "'" +:+ s +:+ "'"
  | JArr items =>
      "[" +:+ (fix go (l : list JSON) : string :=
                 match l with
                 | [] => EmptyString
                 | x :: r => demo_stringify x +:+ "," +:+ go r
                 end) items +:+ "]"
  | JObj fields =>
      "{" +:+ (fix go (l : list (string * JSON)) : string :=
                 match l with
                 | [] => EmptyString
                 | (k, v) :: r => k +:+ ":" +:+ demo_stringify v +:+ "," +:+ go r
                 end) fields +:+ "}"
  end.

(** A signature scheme in which the private key is the public key. *)
#[local] Instance demo_crypto : Crypto := {|
  digest := demo_hash;
  rsaSign privKey str := "sig(" +:+ privKey +:+ "," +:+ str +:+ ")";
  rsaVerify pubKey str sig := String.eqb sig ("sig(" +:+ pubKey +:+ "," +:+ str +:+ ")");
  JSON_stringify := demo_stringify;
|}.

Record DemoBlock : Type := {
  d_id : string;
  d_prev : string;
  d_length : Z;
  d_genesis : bool;
  d_proof : bool;
  d_replays : bool;
  d_balances : list (string * Z);
}.

#[local] Instance DemoBlock_eq_dec : EqDecision DemoBlock.
Proof. solve_decision. Defined.

Fixpoint demo_balance (l : list (string * Z)) (a : string) : Z :=
  match l with
  | [] => 0
  | (k, v) :: r => if String.eqb k a then v else demo_balance r a
  end.

(** A block that answers from its own fields; an address it does not know,
    [undefined] included, has balance 0. *)
#[local] Instance demo_block : BlockContract DemoBlock := {|
  block_id := d_id;
  prevBlockHash := d_prev;
  chainLength := d_length;
  isGenesisBlock := d_genesis;
  hasValidProof := d_proof;
  rerun b _ := d_replays b;
  balanceOf b a := match a with Some a => demo_balance (d_balances b) a | None => 0 end;
  contains _ _ := false;
|}.

Definition demo_key (n : nat) : KeyPair :=
  {| public := "key" +:+ pretty n; private := "key" +:+ pretty n |}.

#[local] Instance demo_chain : Chain := {|
  CONFIRMED_DEPTH := 1;
  DEFAULT_TX_FEE := 1;
  keystream := demo_key;
|}.

Definition demo_addr (n : nat) : string := Utils.calcAddress (Some (public (demo_key n))).

(** A transaction of two inputs of which only the first is signed. *)
Definition demo_tx : Transaction :=
  Tx.sign
    (Tx.constructor [demo_addr 0; demo_addr 1] 0 [public (demo_key 0); public (demo_key 1)]
       [{| amount := 40; address := "B" |}] 1)
    (private (demo_key 0)).

Definition demo_genesis : DemoBlock :=
  {| d_id := "G"; d_prev := "none"; d_length := 0; d_genesis := true; d_proof := true;
     d_replays := true; d_balances := [(demo_addr 0, 100)] |}.

(** Two blocks on the genesis block, of lengths 1 and 2. *)
Definition demo_blockL : DemoBlock :=
  {| d_id := "L"; d_prev := "G"; d_length := 1; d_genesis := false; d_proof := true;
     d_replays := true; d_balances := [(demo_addr 0, 100)] |}.

Definition demo_blockL1 : DemoBlock :=
  {| d_id := "L1"; d_prev := "G"; d_length := 2; d_genesis := false; d_proof := true;
     d_replays := true; d_balances := [(demo_addr 0, 100)] |}.

(** A block whose parent is unknown. *)
Definition demo_orphan : DemoBlock :=
  {| d_id := "O"; d_prev := "missing"; d_length := 5; d_genesis := false; d_proof := true;
     d_replays := true; d_balances := [] |}.

(** A second block with the same unknown parent, and a child of the block
    of length 1. *)
Definition demo_orphan2 : DemoBlock :=
  {| d_id := "O2"; d_prev := "missing"; d_length := 5; d_genesis := false; d_proof := true;
     d_replays := true; d_balances := [] |}.

Definition demo_child : DemoBlock :=
  {| d_id := "C"; d_prev := "L"; d_length := 2; d_genesis := false; d_proof := true;
     d_replays := true; d_balances := [(demo_addr 0, 100)] |}.

(** A client that has drawn its first address and knows the genesis block. *)
Definition demo_client : Client (Block := DemoBlock) :=
  {| wallet := [{| slot_address := demo_addr 0; slot_keyPair := demo_key 0 |}];
     c_address := Some (demo_addr 0); c_keyPair := Some (demo_key 0);
     pendingOutgoingTransactions := ∅;
     blocks := {[ "G" := demo_genesis ]};
     pendingBlocks := ∅;
     lastBlock := Some demo_genesis;
     lastConfirmedBlock := Some demo_genesis;
     prng := 1; net := [] |}.

(** ** Predicates used in the statements *)

(** A string of the characters ['0'] and ['1']. *)
Fixpoint binstr (s : string) : Prop :=
  match s with
  | EmptyString => True
  | String c r => (c = "0"%char \/ c = "1"%char) /\ binstr r
  end.

(** The number a bit string spells, most significant bit first. *)
Fixpoint bval (s : string) : Z :=
  match s with
  | EmptyString => 0
  | String c r =>
      (if Ascii.eqb c "1"%char then 2 ^ Z.of_nat (String.length r) else 0) + bval r
  end.

(** Does the string hold a blank? *)
Fixpoint has_space (s : string) : bool :=
  match s with
  | EmptyString => false
  | String c r => Ascii.eqb c " "%char || has_space r
  end.

Definition is_byte (b : Z) : Prop := 0 <= b < 256.

(** Are the strings of the list pairwise different? *)
Fixpoint distinctb (l : list string) : bool :=
  match l with
  | [] => true
  | x :: r => negb (existsb (String.eqb x) r) && distinctb r
  end.

(** [ws.join(' ')] *)
Definition joinWords (ws : list string) : string :=
  str_drop 1 (scat (map (fun x => " " +:+ x) ws)).

(** [k] copies of a string. *)
Fixpoint str_repeat (c : string) (k : nat) : string :=
  match k with
  | O => EmptyString
  | S k' => c +:+ str_repeat c k'
  end.

Section LedgerPredicates.
Context {Block : Type} `{BlockContract Block} `{Crypto} `{Chain}.

(** [parent] is the block that [blocks] holds under the parent hash of
    [block]. *)
Definition parent_in (m : gmap string Block) (block parent : Block) : Prop :=
  m !! prevBlockHash block = Some parent.

(** What the ledger fields of a client satisfy: a block is stored under its
    own id; a stored block is a genesis block or has a valid proof and replays
    on its stored parent; the head and the confirmed head are stored; a
    waiting block waits under the hash of its parent. *)
Record ledger_ok (st : Client) : Prop := {
  ok_keys : forall k b, blocks st !! k = Some b -> block_id b = k;
  ok_checked : forall k b, blocks st !! k = Some b ->
      isGenesisBlock b = true \/
      (hasValidProof b = true /\
       exists p, blocks st !! prevBlockHash b = Some p /\ rerun b p = true);
  ok_head : forall h, lastBlock st = Some h -> blocks st !! block_id h = Some h;
  ok_confirmed : forall c, lastConfirmedBlock st = Some c ->
      blocks st !! block_id c = Some c;
  ok_pending : forall k l b, pendingBlocks st !! k = Some l -> b ∈ l ->
      prevBlockHash b = k;
}.

(** One change of [receiveBlock] to the client, with what the code has
    checked before it makes the change. *)
Inductive ledger_step : Client -> Client -> Prop :=
  | step_request block st :
      ledger_step st (requestMissingBlock block st)
  | step_queue block st :
      ledger_step st
        (set_pendingBlocks
           (<[prevBlockHash block :=
                set_add block (default [] (pendingBlocks st !! prevBlockHash block))]>
              (pendingBlocks st)) st)
  | step_store block st :
      blocks st !! block_id block = None ->
      isGenesisBlock block = true \/
      (hasValidProof block = true /\
       exists p, blocks st !! prevBlockHash block = Some p /\ rerun block p = true) ->
      ledger_step st (set_blocks (<[block_id block := block]> (blocks st)) st)
  | step_head block last st :
      lastBlock st = Some last ->
      chainLength last < chainLength block ->
      blocks st !! block_id block = Some block ->
      ledger_step st (set_lastBlock (Some block) st)
  | step_confirm fuel st st' :
      state_after (setLastConfirmed fuel st) = Some st' ->
      ledger_step st st'
  | step_drain k st :
      ledger_step st (set_pendingBlocks (delete k (pendingBlocks st)) st).

(** The address of a wallet slot is the address of its public key. *)
Definition slot_ok (s : Slot) : Prop :=
  slot_address s = Utils.calcAddress (Some (public (slot_keyPair s))).

(** The slot that the draw number [k] of the key stream gives. *)
Definition slot_of (k : nat) : Slot :=
  {| slot_address := Utils.calcAddress (Some (public (keystream k)));
     slot_keyPair := keystream k |}.

(** The confirmed balance of a list of slots. *)
Definition balanceSum (confirmed : Block) (w : list Slot) : Z :=
  fold_left (fun total s => total + balanceOf confirmed (Some (slot_address s))) w 0.

(** Signing with the private key of the pair gives what verifies with its
    public key. *)
Definition key_ok (kp : KeyPair) : Prop :=
  forall msg, rsaVerify (public kp) msg (rsaSign (private kp) msg) = true.

(** Does the confirmed block hold funds for the address of draw [k]? *)
Definition funded (confirmed : Block) (k : nat) : bool :=
  negb (balanceOf confirmed (Some (slot_address (slot_of k))) =? 0).

(** The sum that [postTransaction] asks for. *)
Definition spendTotal (outputs : list Output) (fee : option Z) : Z :=
  fold_left (fun total o => total + amount o) outputs 0 + default DEFAULT_TX_FEE fee.

End LedgerPredicates.

(** * Properties *)

(** ** Strings *)

#[local] Arguments String.append !s1 s2 : simpl nomatch.

Lemma str_app_nil_r (s : string) : s +:+ EmptyString = s.
Proof. induction s as [|c s IH]; [reflexivity|]. cbn. by rewrite IH. Qed.

Lemma str_app_assoc (a b c : string) : (a +:+ b) +:+ c = a +:+ (b +:+ c).
Proof. induction a as [|x a IH]; [reflexivity|]. cbn. by rewrite IH. Qed.

Lemma str_app_length (a b : string) :
  String.length (a +:+ b) = (String.length a + String.length b)%nat.
Proof. induction a as [|x a IH]; [reflexivity|]. cbn. by rewrite IH. Qed.

Lemma str_take_app (a b : string) : str_take (String.length a) (a +:+ b) = a.
Proof. induction a as [|x a IH]; [by destruct b|]. cbn. by rewrite IH. Qed.

Lemma str_drop_app (a b : string) : str_drop (String.length a) (a +:+ b) = b.
Proof. induction a as [|x a IH]; [reflexivity|]. cbn. by rewrite IH. Qed.

Lemma str_take_drop (n : nat) (s : string) : str_take n s +:+ str_drop n s = s.
Proof.
  revert s. induction n as [|n IH]; intros s; [reflexivity|].
  destruct s as [|c s]; [reflexivity|]. cbn. by rewrite IH.
Qed.

Lemma str_take_length (n : nat) (s : string) :
  (n <= String.length s)%nat -> String.length (str_take n s) = n.
Proof.
  revert s. induction n as [|n IH]; intros s Hn; [reflexivity|].
  destruct s as [|c s]; cbn in *; [lia|]. rewrite IH; [reflexivity|lia].
Qed.

Lemma str_take_length_le (n : nat) (s : string) :
  (String.length (str_take n s) <= n)%nat.
Proof.
  revert s. induction n as [|n IH]; intros s; [cbn; lia|].
  destruct s as [|c s]; cbn; [lia|]. specialize (IH s). lia.
Qed.

Lemma str_drop_length (n : nat) (s : string) :
  String.length (str_drop n s) = (String.length s - n)%nat.
Proof.
  revert s. induction n as [|n IH]; intros s; [cbn; lia|].
  destruct s as [|c s]; cbn; [reflexivity|]. by rewrite IH.
Qed.

Lemma str_drop_drop (n m : nat) (s : string) :
  str_drop n (str_drop m s) = str_drop (m + n) s.
Proof.
  revert s. induction m as [|m IH]; intros s; [reflexivity|].
  destruct s as [|c s]; cbn; [by destruct n|]. apply IH.
Qed.

Lemma scat_app (l1 l2 : list string) : scat (l1 ++ l2) = scat l1 +:+ scat l2.
Proof.
  induction l1 as [|x l1 IH]; [reflexivity|].
  cbn. rewrite IH. by rewrite str_app_assoc.
Qed.

Lemma fold_left_append {A : Type} (f : A -> string) (l : list A) (init : string) :
  fold_left (fun acc x => acc +:+ f x) l init = init +:+ scat (map f l).
Proof.
  revert init. induction l as [|x l IH]; intros init; cbn.
  - by rewrite str_app_nil_r.
  - rewrite IH. by rewrite str_app_assoc.
Qed.

(** ** Bit strings *)

Lemma binstr_app (a b : string) : binstr a -> binstr b -> binstr (a +:+ b).
Proof. induction a as [|c a IH]; cbn; [tauto|]. intros [Hc Ha] Hb. auto. Qed.

Lemma binstr_take (n : nat) (s : string) : binstr s -> binstr (str_take n s).
Proof.
  revert s. induction n as [|n IH]; intros [|c s]; cbn; try tauto.
  intros [Hc Hs]. auto.
Qed.

Lemma binstr_drop (n : nat) (s : string) : binstr s -> binstr (str_drop n s).
Proof.
  revert s. induction n as [|n IH]; intros [|c s]; cbn; try tauto.
  intros [Hc Hs]. auto.
Qed.

Lemma binstr_scat (l : list string) : Forall binstr l -> binstr (scat l).
Proof.
  induction 1 as [|x l Hx Hl IH]; cbn; [exact I|]. by apply binstr_app.
Qed.

Lemma half_pow2 (n : nat) : 2 ^ Z.of_nat (S n) / 2 = 2 ^ Z.of_nat n.
Proof.
  rewrite Nat2Z.inj_succ, Z.pow_succ_r by lia.
  rewrite Z.mul_comm. apply Z.div_mul. lia.
Qed.

Lemma bval_bound (s : string) : 0 <= bval s < 2 ^ Z.of_nat (String.length s).
Proof.
  induction s as [|c s IH]; [cbn; lia|].
  cbn [bval String.length]. rewrite Nat2Z.inj_succ, Z.pow_succ_r by lia.
  destruct (Ascii.eqb c "1"); lia.
Qed.

Lemma elevenBitsValue_bval (s : string) (v : Z) :
  Mnemonic.elevenBitsValue s (2 ^ Z.of_nat (String.length s) / 2) v = v + bval s.
Proof.
  revert v. induction s as [|c s IH]; intros v; [cbn; lia|].
  cbn [Mnemonic.elevenBitsValue bval String.length].
  rewrite half_pow2, IH. destruct (Ascii.eqb c "1"); lia.
Qed.

Lemma translate11bit_loop_bval (s : string) (fuel : nat) (acc : string) :
  binstr s -> (String.length s <= fuel)%nat ->
  Mnemonic.translate11bit_loop fuel (2 ^ Z.of_nat (String.length s) / 2) (bval s) acc
  = Ret (acc +:+ s).
Proof.
  revert fuel acc. induction s as [|c s IH]; intros fuel acc Hs Hfuel.
  - destruct fuel; cbn; by rewrite str_app_nil_r.
  - destruct fuel as [|fuel]; [cbn in Hfuel; lia|].
    destruct Hs as [Hc Hs]. cbn [String.length] in *.
    rewrite half_pow2. cbn [Mnemonic.translate11bit_loop bval].
    pose proof (bval_bound s) as Hb.
    assert (1 <= 2 ^ Z.of_nat (String.length s)) as Hp by lia.
    destruct (Z.leb_spec 1 (2 ^ Z.of_nat (String.length s))); [|lia].
    destruct Hc as [-> | ->]; cbn [Ascii.eqb Bool.eqb].
    + destruct (Z.leb_spec (2 ^ Z.of_nat (String.length s)) (0 + bval s)); [lia|].
      replace (0 + bval s) with (bval s) by lia.
      rewrite IH by (auto; lia). by rewrite str_app_assoc.
    + destruct (Z.leb_spec (2 ^ Z.of_nat (String.length s))
                  (2 ^ Z.of_nat (String.length s) + bval s)); [|lia].
      replace (2 ^ Z.of_nat (String.length s) + bval s - 2 ^ Z.of_nat (String.length s))
        with (bval s) by lia.
      rewrite IH by (auto; lia). by rewrite str_app_assoc.
Qed.

Lemma translate11bit_elevenBitsValue (c : string) :
  binstr c -> String.length c = 11%nat ->
  Mnemonic.translate11bit (Mnemonic.elevenBitsValue c 1024 0) = Ret c.
Proof.
  intros Hc Hlen. unfold Mnemonic.translate11bit.
  change 1024 with (2 ^ Z.of_nat 11 / 2). rewrite <- Hlen.
  rewrite elevenBitsValue_bval. replace (0 + bval c) with (bval c) by lia.
  rewrite translate11bit_loop_bval by (auto; lia). reflexivity.
Qed.

Lemma elevenBitsValue_range (c : string) :
  String.length c = 11%nat -> 0 <= Mnemonic.elevenBitsValue c 1024 0 < 2048.
Proof.
  intros Hlen. change 1024 with (2 ^ Z.of_nat 11 / 2). rewrite <- Hlen.
  rewrite elevenBitsValue_bval. pose proof (bval_bound c) as Hb.
  rewrite Hlen in Hb. change (2 ^ Z.of_nat 11) with 2048 in Hb. lia.
Qed.

(** ** Bytes *)

Lemma convertByteToBinString_length (b : Z) :
  String.length (Mnemonic.convertByteToBinString b) = 8%nat.
Proof.
  unfold Mnemonic.convertByteToBinString, Mnemonic.bitOf.
  repeat match goal with |- context [Z.land b ?m =? 0] => destruct (Z.land b m =? 0) end;
    reflexivity.
Qed.

Lemma convertByteToBinString_binstr (b : Z) : binstr (Mnemonic.convertByteToBinString b).
Proof.
  unfold Mnemonic.convertByteToBinString, Mnemonic.bitOf.
  repeat match goal with |- context [Z.land b ?m =? 0] => destruct (Z.land b m =? 0) end;
    cbn; tauto.
Qed.

Lemma convertBinStringToByte_convertByteToBinString (b : Z) :
  is_byte b ->
  Mnemonic.convertBinStringToByte (Mnemonic.convertByteToBinString b) = Some b.
Proof.
  intros Hb.
  assert (forallb (fun n => bool_decide
            (Mnemonic.convertBinStringToByte
               (Mnemonic.convertByteToBinString (Z.of_nat n)) = Some (Z.of_nat n)))
            (List.seq 0 256) = true) as Hall by (vm_compute; reflexivity).
  rewrite forallb_forall in Hall. unfold is_byte in Hb.
  assert (In (Z.to_nat b) (List.seq 0 256)) as Hin by (apply in_seq; lia).
  apply Hall in Hin. rewrite Z2Nat.id in Hin by lia.
  by apply bool_decide_eq_true in Hin.
Qed.

Lemma str_take8_byte (b : Z) (rest : string) :
  str_take 8 (Mnemonic.convertByteToBinString b +:+ rest) = Mnemonic.convertByteToBinString b.
Proof.
  pose proof (str_take_app (Mnemonic.convertByteToBinString b) rest) as H.
  by rewrite convertByteToBinString_length in H.
Qed.

Lemma str_drop8_byte (b : Z) (rest : string) :
  str_drop 8 (Mnemonic.convertByteToBinString b +:+ rest) = rest.
Proof.
  pose proof (str_drop_app (Mnemonic.convertByteToBinString b) rest) as H.
  by rewrite convertByteToBinString_length in H.
Qed.

Lemma bitStringOf_scat (buf : list Z) :
  Mnemonic.bitStringOf buf = scat (map Mnemonic.convertByteToBinString buf).
Proof. unfold Mnemonic.bitStringOf. by rewrite fold_left_append. Qed.

Lemma bitStringOf_length (buf : list Z) :
  String.length (Mnemonic.bitStringOf buf) = (8 * length buf)%nat.
Proof.
  rewrite bitStringOf_scat. induction buf as [|b buf IH]; [reflexivity|].
  cbn [map scat length]. rewrite str_app_length, convertByteToBinString_length, IH. lia.
Qed.

Lemma bitStringOf_binstr (buf : list Z) : binstr (Mnemonic.bitStringOf buf).
Proof.
  rewrite bitStringOf_scat. apply binstr_scat, Forall_map, Forall_forall.
  intros b _. apply convertByteToBinString_binstr.
Qed.

(** ** Groups of 11 bits *)

Lemma groups_scat (k : nat) (s : string) :
  String.length s = (11 * k)%nat ->
  scat (map (fun i => str_take 11 (str_drop (11 * i) s)) (List.seq 0 k)) = s.
Proof.
  revert s. induction k as [|k IH]; intros s Hlen.
  - destruct s; [reflexivity|cbn in Hlen; lia].
  - cbn [List.seq map scat]. rewrite <- seq_shift, map_map.
    rewrite (map_ext _ (fun i => str_take 11 (str_drop (11 * i) (str_drop 11 s)))).
    + rewrite IH by (rewrite str_drop_length; lia).
      change (str_drop (11 * 0) s) with s. apply str_take_drop.
    + intros i. rewrite str_drop_drop. f_equal. f_equal. lia.
Qed.

Lemma groups_wf (k : nat) (s : string) :
  binstr s -> String.length s = (11 * k)%nat ->
  Forall (fun c => binstr c /\ String.length c = 11%nat)
    (map (fun i => str_take 11 (str_drop (11 * i) s)) (List.seq 0 k)).
Proof.
  intros Hs Hlen. apply Forall_map, Forall_forall. intros i Hi.
  apply elem_of_seq in Hi. split.
  - by apply binstr_take, binstr_drop.
  - apply str_take_length. rewrite str_drop_length. lia.
Qed.

Lemma match11_groups (s : string) :
  String.length s = 264%nat ->
  Mnemonic.match11 s
  = Some (map (fun i => str_take 11 (str_drop (11 * i) s)) (List.seq 0 24)).
Proof.
  intros Hlen. unfold Mnemonic.match11. rewrite Hlen.
  change (264 / 11)%nat with 24%nat.
  change (List.seq 0 24) with (0%nat :: List.seq 1 23). reflexivity.
Qed.

(** ** Splitting a phrase *)

Lemma js_split_space_word (w rest : string) :
  has_space w = false ->
  js_split_space (w +:+ String " " rest) = w :: js_split_space rest.
Proof.
  induction w as [|c w IH]; intros Hw; [reflexivity|].
  cbn in Hw. apply orb_false_iff in Hw as [Hc Hw].
  cbn [String.append js_split_space]. rewrite Hc, IH by done. reflexivity.
Qed.

Lemma js_split_space_last (w : string) :
  has_space w = false -> js_split_space w = [w].
Proof.
  induction w as [|c w IH]; intros Hw; [reflexivity|].
  cbn in Hw. apply orb_false_iff in Hw as [Hc Hw].
  cbn [js_split_space]. rewrite Hc, IH by done. reflexivity.
Qed.

Lemma js_split_space_join (w : string) (ws : list string) :
  Forall (fun x => has_space x = false) (w :: ws) ->
  js_split_space (w +:+ scat (map (fun x => " " +:+ x) ws)) = w :: ws.
Proof.
  revert w. induction ws as [|w' ws IH]; intros w Hall.
  - cbn [map scat]. rewrite str_app_nil_r. apply js_split_space_last.
    by inversion Hall.
  - inversion Hall as [|? ? Hw Hrest]; subst.
    cbn [map scat]. change (" " +:+ w') with (String " " w').
    cbn [String.append]. rewrite js_split_space_word by done.
    by rewrite IH.
Qed.

(** ** Looking words up *)

Lemma lookupWord_absent (w : string) (wl : list string) (j : Z) (acc : string) :
  ~ In w wl -> Mnemonic.lookupWord w wl j acc = Ret acc.
Proof.
  revert j acc. induction wl as [|wj wl IH]; intros j acc Hw; [reflexivity|].
  cbn [Mnemonic.lookupWord].
  destruct (String.eqb_spec w wj) as [->|Hne].
  - exfalso. apply Hw. by left.
  - apply IH. intros Hin. apply Hw. by right.
Qed.

Lemma lookupWord_at (wl : list string) (j : Z) (acc : string) (k : nat) (w c : string) :
  NoDup wl -> wl !! k = Some w ->
  Mnemonic.translate11bit (j + Z.of_nat k) = Ret c ->
  Mnemonic.lookupWord w wl j acc = Ret (acc +:+ c).
Proof.
  revert j acc k. induction wl as [|wj wl IH]; intros j acc k Hnd Hk Hc; [done|].
  apply NoDup_cons in Hnd as [Hwj Hnd]. cbn [Mnemonic.lookupWord].
  destruct k as [|k]; cbn in Hk.
  - injection Hk as ->. rewrite String.eqb_refl.
    replace (j + Z.of_nat 0) with j in Hc by lia. rewrite Hc. cbn [obind].
    apply lookupWord_absent. by rewrite <- list_elem_of_In.
  - destruct (String.eqb_spec w wj) as [->|Hne].
    + exfalso. apply Hwj. by eapply list_elem_of_lookup_2.
    + apply (IH _ _ k); [done..|]. rewrite <- Hc. f_equal. lia.
Qed.

Lemma lookupWords_groups (wl : list string) (groups : list string) (acc : string) :
  length wl = 2048%nat -> NoDup wl ->
  Forall (fun c => binstr c /\ String.length c = 11%nat) groups ->
  Mnemonic.lookupWords wl
    (map (Mnemonic.wordAt wl) (map (fun bs => Mnemonic.elevenBitsValue bs 1024 0) groups)) acc
  = Ret (acc +:+ scat groups).
Proof.
  intros Hlen Hnd Hg. revert acc.
  induction Hg as [|c groups [Hc Hc11] Hg IH]; intros acc.
  - cbn. by rewrite str_app_nil_r.
  - cbn [map Mnemonic.lookupWords scat].
    pose proof (elevenBitsValue_range c Hc11) as Hv.
    set (v := Mnemonic.elevenBitsValue c 1024 0) in *.
    destruct (lookup_lt_is_Some_2 wl (Z.to_nat v)) as [w Hw]; [lia|].
    unfold Mnemonic.wordAt at 1. rewrite Hw.
    rewrite (lookupWord_at wl 0 acc (Z.to_nat v) w c); [|done..|].
    + cbn [obind]. rewrite IH. by rewrite str_app_assoc.
    + replace (0 + Z.of_nat (Z.to_nat v)) with v by lia.
      by apply translate11bit_elevenBitsValue.
Qed.

(** ** Rebuilding the bytes *)

Lemma fillBytes_bytes (rest done junk : list Z) :
  Forall is_byte rest -> length junk = length rest ->
  Mnemonic.fillBytes (length rest) (length done)
    (scat (map Mnemonic.convertByteToBinString rest)) (done ++ junk)
  = Ret (done ++ rest).
Proof.
  intros Hrest. revert done junk.
  induction Hrest as [|b rest Hb Hrest IH]; intros done junk Hlen.
  - destruct junk; [|done]. reflexivity.
  - destruct junk as [|j junk]; [done|]. cbn in Hlen.
    cbn [length map scat Mnemonic.fillBytes].
    rewrite str_take8_byte, str_drop8_byte.
    rewrite convertBinStringToByte_convertByteToBinString by done.
    unfold Mnemonic.writeUInt8. cbn [from_option]. unfold id.
    unfold is_byte in Hb.
    destruct (Z.ltb_spec b 0); [lia|]. destruct (Z.ltb_spec 255 b); [lia|].
    cbn [orb]. rewrite length_app. cbn [length].
    destruct (Nat.ltb_spec (length done) (length done + S (length junk))); [|lia].
    cbn [obind]. rewrite insert_app_r_alt, Nat.sub_diag by lia. cbn [insert list_insert].
    specialize (IH (done ++ [b]) junk). rewrite length_app in IH. cbn [length] in IH.
    replace (length done + 1)%nat with (S (length done)) in IH by lia.
    rewrite <- !app_assoc in IH. cbn [app] in IH. apply IH. lia.
Qed.

Lemma wordAt_nospace (wl : list string) (v : Z) :
  Forall (fun w => has_space w = false) wl ->
  (Z.to_nat v < length wl)%nat ->
  has_space (Mnemonic.wordAt wl v) = false.
Proof.
  intros Hwl Hv. unfold Mnemonic.wordAt.
  destruct (lookup_lt_is_Some_2 wl (Z.to_nat v) Hv) as [w Hw]. rewrite Hw.
  rewrite Forall_forall in Hwl. apply Hwl. by eapply list_elem_of_lookup_2.
Qed.

(** C2.  With a list of 2048 distinct words without blanks, [words] turns any
    buffer of 33 bytes into a phrase of 24 words, and [calculateSequence] on
    that phrase rebuilds exactly the buffer. *)
Theorem words_calculateSequence_roundtrip (wordlist : list string) (buf : list Z) :
  length wordlist = 2048%nat ->
  NoDup wordlist ->
  Forall (fun w => has_space w = false) wordlist ->
  length buf = 33%nat ->
  Forall is_byte buf ->
  exists phrase,
    Mnemonic.words wordlist buf = Ret phrase /\
    length (js_split_space phrase) = 24%nat /\
    Mnemonic.calculateSequence wordlist phrase = Ret buf.
Proof.
  intros Hwl Hnd Hsp Hlen Hbytes.
  pose proof (bitStringOf_length buf) as Hbits. rewrite Hlen in Hbits.
  change (8 * 33)%nat with 264%nat in Hbits.
  pose proof (bitStringOf_binstr buf) as Hbin.
  set (s := Mnemonic.bitStringOf buf) in *.
  set (groups := map (fun i => str_take 11 (str_drop (11 * i) s)) (List.seq 0 24)).
  assert (Forall (fun c => binstr c /\ String.length c = 11%nat) groups) as Hg
    by (apply groups_wf; [done | by rewrite Hbits]).
  assert (scat groups = s) as Hcat by (apply groups_scat; by rewrite Hbits).
  set (vals := map (fun bs => Mnemonic.elevenBitsValue bs 1024 0) groups).
  set (ws := map (Mnemonic.wordAt wordlist) vals).
  assert (length ws = 24%nat) as Hws
    by (unfold ws, vals, groups; by rewrite !length_map, length_seq).
  assert (Forall (fun w => has_space w = false) ws) as Hwsp.
  { unfold ws, vals. apply Forall_map, Forall_map.
    eapply Forall_impl; [exact Hg|]. intros c [_ Hc11]. cbn.
    apply wordAt_nospace; [done|].
    pose proof (elevenBitsValue_range c Hc11). lia. }
  assert (Mnemonic.words wordlist buf
          = Ret (str_drop 1 (scat (map (fun x => " " +:+ x) ws)))) as Hwords.
  { unfold Mnemonic.words, Mnemonic.split. fold s.
    rewrite match11_groups by done. fold groups. cbn [obind]. fold vals.
    rewrite (fold_left_append (fun v => " " +:+ Mnemonic.wordAt wordlist v)).
    unfold ws. rewrite map_map. reflexivity. }
  destruct ws as [|w0 ws'] eqn:Ews; [done|].
  exists (w0 +:+ scat (map (fun x => " " +:+ x) ws')).
  assert (js_split_space (w0 +:+ scat (map (fun x => " " +:+ x) ws')) = w0 :: ws') as Hsplit
    by (by apply js_split_space_join).
  split; [exact Hwords|]. split; [by rewrite Hsplit|].
  unfold Mnemonic.calculateSequence. rewrite Hsplit, <- Ews. unfold ws, vals.
  rewrite lookupWords_groups by done. cbn [obind].
  rewrite Hcat. unfold s. rewrite bitStringOf_scat.
  change (Mnemonic.NUM_BYTES + 1)%nat with 33%nat. rewrite <- Hlen at 1.
  apply (fillBytes_bytes buf [] (Mnemonic.alloc 33)); [done|].
  unfold Mnemonic.alloc. by rewrite repeat_length.
Qed.

Lemma distinctb_NoDup (l : list string) : distinctb l = true -> NoDup l.
Proof.
  induction l as [|x l IH]; cbn; intros H; [constructor|].
  apply andb_true_iff in H as [Hx Hl]. constructor; [|by apply IH].
  intros Hin. apply list_elem_of_In in Hin.
  apply negb_true_iff in Hx.
  assert (existsb (String.eqb x) l = true) as Hex
    by (apply existsb_exists; exists x; split; [done | apply String.eqb_refl]).
  congruence.
Qed.

Lemma words_calculateSequence_roundtrip_witness :
  exists phrase,
    Mnemonic.words demo_wordlist (map Z.of_nat (List.seq 1 33)) = Ret phrase /\
    length (js_split_space phrase) = 24%nat /\
    Mnemonic.calculateSequence demo_wordlist phrase = Ret (map Z.of_nat (List.seq 1 33)).
Proof.
  apply (words_calculateSequence_roundtrip demo_wordlist (map Z.of_nat (List.seq 1 33))).
  - vm_compute. reflexivity.
  - apply distinctb_NoDup. vm_compute. reflexivity.
  - apply (bool_decide_unpack _). vm_compute. exact I.
  - vm_compute. reflexivity.
  - apply (bool_decide_unpack _). vm_compute. exact I.
Defined.

(** ** [calculateSequence] always returns *)

Lemma translate11bit_loop_total (k fuel : nat) (n : Z) (acc : string) :
  (k <= fuel)%nat ->
  exists bs, Mnemonic.translate11bit_loop fuel (2 ^ Z.of_nat k / 2) n acc = Ret bs.
Proof.
  revert fuel n acc. induction k as [|k IH]; intros fuel n acc Hk.
  - exists acc. by destruct fuel.
  - destruct fuel as [|fuel]; [lia|]. rewrite half_pow2.
    cbn [Mnemonic.translate11bit_loop].
    destruct (1 <=? 2 ^ Z.of_nat k); [|by eexists].
    destruct (2 ^ Z.of_nat k <=? n); apply IH; lia.
Qed.

Lemma translate11bit_total (n : Z) : exists bs, Mnemonic.translate11bit n = Ret bs.
Proof. apply (translate11bit_loop_total 11 11). lia. Qed.

Lemma lookupWord_total (w : string) (wl : list string) (j : Z) (acc : string) :
  exists bs, Mnemonic.lookupWord w wl j acc = Ret bs.
Proof.
  revert j acc. induction wl as [|wj wl IH]; intros j acc; [by eexists|].
  cbn [Mnemonic.lookupWord]. destruct (String.eqb w wj); [|apply IH].
  destruct (translate11bit_total j) as [bs ->]. cbn [obind]. apply IH.
Qed.

Lemma lookupWords_total (wl wordArray : list string) (acc : string) :
  exists bs, Mnemonic.lookupWords wl wordArray acc = Ret bs.
Proof.
  revert acc. induction wordArray as [|w ws IH]; intros acc; [by eexists|].
  cbn [Mnemonic.lookupWords].
  destruct (lookupWord_total w wl 0 acc) as [bs ->]. cbn [obind]. apply IH.
Qed.

Lemma parseInt2_bound (s : string) (acc : option Z) (m : Z) :
  0 <= m -> 0 <= default 0 acc < 2 ^ m ->
  0 <= default 0 (Mnemonic.parseInt2 s acc) < 2 ^ (m + Z.of_nat (String.length s)).
Proof.
  revert acc m. induction s as [|c s IH]; intros acc m Hm Hacc.
  - cbn. by rewrite Z.add_0_r.
  - cbn [Mnemonic.parseInt2 String.length].
    replace (m + Z.of_nat (S (String.length s)))
      with ((m + 1) + Z.of_nat (String.length s)) by lia.
    assert (2 ^ (m + 1) = 2 * 2 ^ m) as Hpow by (rewrite Z.pow_add_r by lia; lia).
    destruct (Ascii.eqb c "0"); [apply IH; [lia|]; cbn; lia|].
    destruct (Ascii.eqb c "1"); [apply IH; [lia|]; cbn; lia|].
    rewrite Z.pow_add_r by lia.
    assert (0 < 2 ^ Z.of_nat (String.length s)) by (apply Z.pow_pos_nonneg; lia).
    nia.
Qed.

Lemma fillBytes_total (todo position : nat) (binString : string) (buf : list Z) :
  (position + todo <= length buf)%nat ->
  exists buf', Mnemonic.fillBytes todo position binString buf = Ret buf' /\
               length buf' = length buf.
Proof.
  revert position binString buf. induction todo as [|todo IH];
    intros position binString buf Hpos; [by eexists|].
  cbn [Mnemonic.fillBytes]. unfold Mnemonic.writeUInt8, Mnemonic.convertBinStringToByte.
  pose proof (parseInt2_bound (str_take 8 binString) None 0) as Hb.
  cbn [from_option] in Hb. specialize (Hb ltac:(lia) ltac:(cbn; lia)).
  pose proof (str_take_length_le 8 binString) as Hlen.
  assert (2 ^ (0 + Z.of_nat (String.length (str_take 8 binString))) <= 2 ^ 8) as Hpow
    by (apply Z.pow_le_mono_r; lia).
  change (2 ^ 8) with 256 in Hpow.
  set (v := default 0 (Mnemonic.parseInt2 (str_take 8 binString) None)) in *.
  destruct (Z.ltb_spec v 0); [lia|]. destruct (Z.ltb_spec 255 v); [lia|].
  cbn [orb]. destruct (Nat.ltb_spec position (length buf)); [|lia].
  cbn [obind].
  destruct (IH (S position) (str_drop 8 binString) (<[position := v]> buf))
    as [buf' [Hfill Hlen']]; [rewrite length_insert; lia|].
  exists buf'. split; [done|]. by rewrite Hlen', length_insert.
Qed.

(** C4, as the code has it.  [calculateSequence] raises nothing: every
    phrase gives a buffer of 33 bytes, and a word that is absent from the
    word list leaves the bit accumulator as it was. *)
Theorem calculateSequence_never_fails (wordlist : list string) :
  (forall phrase, exists buf,
      Mnemonic.calculateSequence wordlist phrase = Ret buf /\ length buf = 33%nat) /\
  (forall w acc, ~ In w wordlist -> Mnemonic.lookupWord w wordlist 0 acc = Ret acc).
Proof.
  split.
  - intros phrase. unfold Mnemonic.calculateSequence.
    destruct (lookupWords_total wordlist (js_split_space phrase) EmptyString) as [bs ->].
    cbn [obind].
    destruct (fillBytes_total (Mnemonic.NUM_BYTES + 1) 0 bs
                (Mnemonic.alloc (Mnemonic.NUM_BYTES + 1))) as [buf [Hfill Hlen]].
    + unfold Mnemonic.alloc. rewrite repeat_length. lia.
    + exists buf. split; [done|]. rewrite Hlen. unfold Mnemonic.alloc.
      by rewrite repeat_length.
  - intros w acc Hw. by apply lookupWord_absent.
Qed.

Lemma calculateSequence_never_fails_witness :
  ~ In "zzz" demo_wordlist /\
  Mnemonic.lookupWord "zzz" demo_wordlist 0 "0101" = Ret "0101".
Proof.
  assert (~ In "zzz" demo_wordlist) as Hzzz.
  { rewrite <- list_elem_of_In. apply (bool_decide_unpack _). vm_compute. exact I. }
  split; [exact Hzzz|].
  apply (proj2 (calculateSequence_never_fails demo_wordlist) "zzz" "0101" Hzzz).
Defined.

(** C4, as the specification has it, fails on two phrases: one made of a
    word that is not in the list, and one whose single listed word gives 11
    bits.  Both are turned into a buffer of 33 bytes. *)
Lemma calculateSequence_rejects_nothing :
  (~ In "zzz" demo_wordlist /\
   Mnemonic.calculateSequence demo_wordlist "zzz" = Ret (repeat 0 33)) /\
  (Mnemonic.lookupWords demo_wordlist (js_split_space "aaaaaaaaaab") EmptyString
   = Ret "00000000001" /\
   Mnemonic.calculateSequence demo_wordlist "aaaaaaaaaab" = Ret (0 :: 1 :: repeat 0 31)).
Proof.
  split; [split|split].
  - rewrite <- list_elem_of_In. apply (bool_decide_unpack _). vm_compute. exact I.
  - vm_compute. reflexivity.
  - vm_compute. reflexivity.
  - vm_compute. reflexivity.
Qed.

(** ** The checksum *)

Lemma toHex_take (k : nat) (buf : list Z) :
  str_take (2 * k) (Mnemonic.toHex buf) = Mnemonic.toHex (take k buf).
Proof.
  revert buf. induction k as [|k IH]; intros buf; [reflexivity|].
  destruct buf as [|b buf]; [reflexivity|].
  replace (2 * S k)%nat with (S (S (2 * k))) by lia.
  cbn [Mnemonic.toHex str_take take]. by rewrite IH.
Qed.

Lemma seqHex_first16 (buf : list Z) :
  Mnemonic.seqHex buf = Mnemonic.toHex (take 16 buf).
Proof. apply (toHex_take 16). Qed.

Lemma seqHex_insert (buf : list Z) (i : nat) (v : Z) :
  (16 <= i)%nat -> Mnemonic.seqHex (<[i := v]> buf) = Mnemonic.seqHex buf.
Proof. intros Hi. rewrite !seqHex_first16. by rewrite take_insert_ge. Qed.

(** C3.  The hashed text is the hex of the first 16 bytes only: setting a bit
    of entropy byte 16 of the all-zero buffer changes the entropy and leaves
    the hashed text, the checksum and the answer of [isValid] as they
    were, whatever the hash. *)
Theorem calcChecksum_skips_byte16 (sha256 : string -> list Z) :
  let buf := repeat 0 33 in
  let buf' := <[16%nat := 1]> buf in
  take 32 buf' <> take 32 buf /\
  Mnemonic.seqHex buf' = Mnemonic.seqHex buf /\
  Mnemonic.seqHex buf = "00000000000000000000000000000000" /\
  Mnemonic.calcChecksum sha256 buf' = Mnemonic.calcChecksum sha256 buf /\
  Mnemonic.isValid sha256 buf' = Mnemonic.isValid sha256 buf.
Proof.
  cbn zeta. split; [by vm_compute|]. split; [by vm_compute|].
  split; [by vm_compute|]. split; reflexivity.
Qed.

(** C10.  With a digest whose first byte exists, the buffer a fresh
    [Mnemonic] holds passes [isValid], whatever the random bytes were. *)
Theorem constructor_isValid (sha256 : string -> list Z) (entropy : list Z) :
  (forall s, exists b rest, sha256 s = b :: rest /\ is_byte b) ->
  length entropy = 33%nat ->
  exists buf,
    Mnemonic.constructor sha256 entropy = Ret buf /\
    Mnemonic.isValid sha256 buf = Ret true.
Proof.
  intros Hsha Hlen.
  destruct (Hsha (Mnemonic.seqHex entropy)) as (b & rest & Hd & Hb).
  assert (Mnemonic.calcChecksum sha256 entropy = Some b) as Hsum
    by (unfold Mnemonic.calcChecksum; by rewrite Hd).
  exists (<[Mnemonic.NUM_BYTES := b]> entropy). split.
  - unfold Mnemonic.constructor, Mnemonic.writeUInt8. rewrite Hsum, Hlen.
    cbn [from_option]. unfold id, is_byte in *.
    destruct (Z.ltb_spec b 0); [lia|]. destruct (Z.ltb_spec 255 b); [lia|].
    reflexivity.
  - unfold Mnemonic.isValid, Mnemonic.readUInt8, Mnemonic.calcChecksum.
    rewrite seqHex_insert by (unfold Mnemonic.NUM_BYTES; lia).
    rewrite list_lookup_insert_eq by (rewrite Hlen; unfold Mnemonic.NUM_BYTES; lia).
    cbn [obind]. unfold Mnemonic.calcChecksum in Hsum. rewrite Hsum.
    by rewrite bool_decide_eq_true_2.
Qed.

Lemma constructor_isValid_witness :
  exists buf,
    Mnemonic.constructor demo_digest (map Z.of_nat (List.seq 1 33)) = Ret buf /\
    Mnemonic.isValid demo_digest buf = Ret true.
Proof.
  apply (constructor_isValid demo_digest (map Z.of_nat (List.seq 1 33))).
  - intros s. exists (Z.of_nat (String.length s) mod 256).
    exists (repeat (Z.of_nat (String.length s) mod 256) 31).
    split; [reflexivity|]. unfold is_byte. apply Z.mod_pos_bound. lia.
  - reflexivity.
Defined.

(** ** Transactions *)

Section TransactionFacts.
Context `{Crypto}.

Lemma validSignature_true_iff (tx : Transaction) :
  Tx.validSignature tx = Ret (Some true) <-> from tx <> [] /\ Tx.indexPasses tx 0.
Proof.
  unfold Tx.validSignature, Tx.indexPasses, Tx.validSignature_body.
  destruct (from tx) as [|a rest]; cbn [length for_range lookup list_lookup from_option].
  - split; [discriminate|]. intros [Hne _]. by destruct Hne.
  - unfold id. destruct (Utils.addressMatchesKey a (pubKey tx !! 0%nat)) eqn:Haddr;
      cbn [negb obind].
    + destruct (sig tx !! 0%nat) as [s|] eqn:Hsig.
      * destruct (Utils.verifySignature (pubKey tx !! 0%nat) (Tx.id tx) s) as [[] | e |] eqn:Hv;
          cbn [obind negb].
        -- split; [|done]. intros _. split; [done|]. split; eauto.
        -- split; [discriminate|]. intros (_ & _ & s' & Hs' & Hv'). congruence.
        -- split; [discriminate|]. intros (_ & _ & s' & Hs' & Hv'). congruence.
        -- split; [discriminate|]. intros (_ & _ & s' & Hs' & Hv'). congruence.
      * split; [discriminate|]. intros (_ & _ & s' & Hs' & _). congruence.
    + split; [discriminate|]. intros (_ & (a' & Ha' & Hm) & _). congruence.
Qed.

Lemma sign_id (tx : Transaction) (privKey : string) : Tx.id (Tx.sign tx privKey) = Tx.id tx.
Proof. reflexivity. Qed.

Lemma sign_many_id (keys : list string) (tx : Transaction) :
  Tx.id (fold_left Tx.sign keys tx) = Tx.id tx.
Proof.
  revert tx. induction keys as [|k keys IH]; intros tx; [reflexivity|].
  cbn [fold_left]. by rewrite IH, sign_id.
Qed.


End TransactionFacts.


(** C1.  [validSignature] answers [true] for a transaction of two inputs
    of which the second carries no signature: the loop returns at index 0. *)
Theorem validSignature_accepts_unsigned_input :
  length (from demo_tx) = 2%nat /\
  sig demo_tx !! 1%nat = None /\
  ~ Tx.indexPasses demo_tx 1 /\
  Tx.validSignature demo_tx = Ret (Some true).
Proof.
  split; [reflexivity|]. split; [reflexivity|]. split; [|by vm_compute].
  intros (_ & s & Hs & _). vm_compute in Hs. discriminate.
Qed.

(** ** The wallet *)

Section WalletFacts.
Context {Block : Type} `{BlockContract Block} `{Crypto} `{Chain}.


Lemma recoverFunds_first_query (fuel : nat) (maxAttempts : option Z) (st : Client)
    (confirmed : Block) :
  lastConfirmedBlock st = Some confirmed ->
  recoverFunds fuel maxAttempts st = Diverged \/
  exists queries st', recoverFunds fuel maxAttempts st = Done (None :: queries) st'.
Proof.
  intros Hc. unfold recoverFunds. rewrite Hc.
  assert (forall fuel attempts checkAddress q qs st,
             recoverFunds_loop fuel confirmed (default 5 maxAttempts) attempts checkAddress
               (q :: qs) st = Diverged \/
             exists queries st',
               recoverFunds_loop fuel confirmed (default 5 maxAttempts) attempts checkAddress
                 (q :: qs) st = Done (q :: queries) st') as Hloop.
  { clear. intros fuel. induction fuel as [|fuel IH]; intros attempts checkAddress q qs st;
      cbn [recoverFunds_loop].
    - destruct (_ || _); [by left|]. right. by eexists _, _.
    - destruct (_ || _); [|right; by eexists _, _].
      cbn [generateKeypairFromMnemonic].
      destruct (balanceOf confirmed _ =? 0); apply (IH _ _ q). }
  destruct fuel as [|fuel]; cbn [recoverFunds_loop app].
  - destruct (_ || _); [by left|]. right. by eexists _, _.
  - destruct (_ || _); [|right; by eexists _, _].
    cbn [generateKeypairFromMnemonic].
    destruct (balanceOf confirmed _ =? 0); apply (Hloop _ _ _ None).
Qed.

End WalletFacts.


(** C9.  The first balance query of [recoverFunds] is on [undefined]: the
    guard of the loop reads [checkAddress] before the body has assigned it.
    With two attempts on a client whose next two addresses are empty, the
    queries are: [undefined], then the addresses of draws 1 and 2, each once in
    the body and once in the guard. *)
Theorem recoverFunds_queries_undefined_first :
  exists st',
    recoverFunds 10 (Some 2) demo_client
    = Done [None; Some (demo_addr 1); Some (demo_addr 1);
            Some (demo_addr 2); Some (demo_addr 2)] st' /\
    wallet st' = wallet demo_client /\ prng st' = 3%nat.
Proof. eexists. split; [vm_compute; reflexivity|]. split; reflexivity. Qed.

(** ** The ledger view *)

Section LedgerFacts.
Context {Block : Type} `{BlockContract Block} `{Crypto} `{Chain}.

Lemma grows_refl (st : Client) : grows st st.
Proof. split; [by left|auto]. Qed.

Lemma grows_trans (st1 st2 st3 : Client) : grows st1 st2 -> grows st2 st3 -> grows st1 st3.
Proof.
  intros [Hh12 Hb12] [Hh23 Hb23]. split; [|auto].
  destruct Hh12 as [E12 | (l1 & l2 & E1 & E2 & Hlt12)];
    destruct Hh23 as [E23 | (l2' & l3 & E2' & E3 & Hlt23)].
  - left. congruence.
  - right. exists l2', l3. repeat split; [congruence|done..].
  - right. exists l1, l2. repeat split; [done|congruence|done].
  - right. exists l1, l3. repeat split; [done..|].
    assert (l2' = l2) as -> by congruence. lia.
Qed.

Lemma setLastConfirmed_keeps (fuel : nat) (st st' : Client) :
  state_after (setLastConfirmed fuel st) = Some st' ->
  lastBlock st' = lastBlock st /\ blocks st' = blocks st /\
  pendingBlocks st' = pendingBlocks st.
Proof.
  unfold setLastConfirmed. destruct (lastBlock st) as [block|] eqn:Hlast.
  - destruct (walkBack fuel (blocks st) _ block); cbn [state_after]; intros [= <-];
      cbn; auto.
  - cbn [state_after]. intros [= <-]. auto.
Qed.

Lemma forEachBlock_grows (f : Block -> Client -> result (option Block)) (l : list Block) :
  (forall b st st', state_after (f b st) = Some st' -> grows st st') ->
  forall st st', state_after (forEachBlock f l st) = Some st' -> grows st st'.
Proof.
  intros Hf. induction l as [|b l IH]; intros st st'; cbn [forEachBlock].
  - cbn [state_after]. intros [= <-]. apply grows_refl.
  - destruct (f b st) as [v st1 | e st1 |] eqn:Hfb; cbn [rbind state_after].
    + intros Hrest. apply (grows_trans _ st1).
      * apply (Hf b). by rewrite Hfb.
      * by apply IH.
    + intros [= <-]. apply (Hf b). by rewrite Hfb.
    + discriminate.
Qed.

Lemma receiveBlock_store_grows (f : Block -> Client -> result (option Block))
    (fuel : nat) (block : Block) (st st' : Client) :
  (forall b st st', state_after (f b st) = Some st' -> grows st st') ->
  state_after (receiveBlock_store f fuel block st) = Some st' ->
  grows st st' /\ is_Some (blocks st' !! block_id block).
Proof.
  intros Hf. unfold receiveBlock_store.
  set (st_a := set_blocks (<[block_id block := block]> (blocks st)) st).
  assert (grows st st_a) as Hga.
  { split; [by left|]. intros k Hk. cbn.
    destruct (decide (block_id block = k)) as [->|Hne].
    - rewrite lookup_insert_eq. eauto.
    - by rewrite lookup_insert_ne. }
  assert (is_Some (blocks st_a !! block_id block)) as Hsa
    by (cbn; rewrite lookup_insert_eq; eauto).
  intros Hres.
  assert (grows st_a st') as Hgb; [|split; [by eapply grows_trans|by apply Hgb]].
  assert (forall st_b, grows st_a st_b ->
            state_after
              (rbind (forEachBlock f (default [] (pendingBlocks st_b !! block_id block))
                        (set_pendingBlocks (delete (block_id block) (pendingBlocks st_b)) st_b))
                 (fun _ st => Done (Some block) st)) = Some st' ->
            grows st_a st') as Hdrain.
  { intros st_b Hgab.
    destruct (forEachBlock f _ _) as [v st_c | e st_c |] eqn:Hfe; cbn [rbind state_after].
    - intros [= <-]. apply (grows_trans _ st_b); [done|].
      apply (grows_trans _ (set_pendingBlocks (delete (block_id block) (pendingBlocks st_b)) st_b)).
      + split; [by left|auto].
      + eapply forEachBlock_grows; [exact Hf|]. by rewrite Hfe.
    - intros [= <-]. apply (grows_trans _ st_b); [done|].
      apply (grows_trans _ (set_pendingBlocks (delete (block_id block) (pendingBlocks st_b)) st_b)).
      + split; [by left|auto].
      + eapply forEachBlock_grows; [exact Hf|]. by rewrite Hfe.
    - discriminate. }
  destruct (lastBlock st_a) as [last|] eqn:Hlast.
  - destruct (chainLength last <? chainLength block) eqn:Hlt.
    + destruct (setLastConfirmed fuel (set_lastBlock (Some block) st_a))
        as [v st_b | e st_b |] eqn:Hslc; cbn [rbind state_after] in Hres.
      * apply (Hdrain st_b); [|exact Hres].
        destruct (setLastConfirmed_keeps fuel (set_lastBlock (Some block) st_a) st_b)
          as (Hl & Hb & _); [by rewrite Hslc|].
        split.
        -- right. exists last, block. repeat split; [done..|]. by apply Z.ltb_lt.
        -- intros k. rewrite Hb. auto.
      * injection Hres as <-.
        destruct (setLastConfirmed_keeps fuel (set_lastBlock (Some block) st_a) st_b)
          as (Hl & Hb & _); [by rewrite Hslc|].
        split.
        -- right. exists last, block. repeat split; [done..|]. by apply Z.ltb_lt.
        -- intros k. rewrite Hb. auto.
      * discriminate.
    + cbn [rbind] in Hres. apply (Hdrain st_a); [apply grows_refl|exact Hres].
  - cbn [rbind state_after] in Hres. injection Hres as <-. apply grows_refl.
Qed.

Lemma set_add_elem (block : Block) (stuckBlocks : list Block) :
  block ∈ set_add block stuckBlocks.
Proof.
  unfold set_add. destruct (decide (block ∈ stuckBlocks)); [done|].
  apply elem_of_app. right. by apply list_elem_of_singleton.
Qed.

Lemma set_add_again (block : Block) (stuckBlocks : list Block) :
  set_add block (set_add block stuckBlocks) = set_add block stuckBlocks.
Proof.
  unfold set_add at 1. rewrite decide_True; [done|apply set_add_elem].
Qed.

Lemma set_pendingBlocks_same (st : Client (Block := Block)) :
  set_pendingBlocks (pendingBlocks st) st = st.
Proof. by destruct st. Qed.

Lemma receiveBlock_known (n : nat) (block : Block) (st : Client) :
  is_Some (blocks st !! block_id block) -> receiveBlock (S n) block st = Done None st.
Proof. intros Hin. cbn [receiveBlock]. by rewrite decide_True. Qed.

(** One delivery: the head never gets shorter, no block id is forgotten, and
    a second delivery of the same block changes nothing. *)
Lemma receiveBlock_spec (fuel : nat) (block : Block) (st st' : Client) :
  state_after (receiveBlock fuel block st) = Some st' ->
  grows st st' /\ forall n, receiveBlock (S n) block st' = Done None st'.
Proof.
  revert block st st'. induction fuel as [|fuel IH]; intros block st st'; [discriminate|].
  set (again := fun s : Client => forall n, receiveBlock (S n) block s = Done None s).
  change (state_after (receiveBlock (S fuel) block st) = Some st' -> grows st st' /\ again st').
  cbn [receiveBlock].
  destruct (decide (is_Some (blocks st !! block_id block))) as [Hin|Hnin].
  { cbn [state_after]. intros [= <-]. split; [apply grows_refl|].
    intros n. by apply receiveBlock_known. }
  destruct (negb (hasValidProof block) && negb (isGenesisBlock block)) eqn:Hproof.
  { cbn [state_after]. intros [= <-]. split; [apply grows_refl|].
    intros n. cbn [receiveBlock]. rewrite decide_False by done. by rewrite Hproof. }
  assert (forall st'',
             state_after (receiveBlock_store (receiveBlock fuel) fuel block st) = Some st'' ->
             grows st st'' /\ again st'') as Hstore.
  { intros st'' Hres.
    destruct (receiveBlock_store_grows (receiveBlock fuel) fuel block st st'') as [Hg Hs];
      [|exact Hres|].
    - intros b s s' Hb. by apply (IH b s s').
    - split; [done|]. intros n. by apply receiveBlock_known. }
  destruct (blocks st !! prevBlockHash block) as [prevBlock|] eqn:Hprev;
    destruct (isGenesisBlock block) eqn:Hgen; cbn [negb].
  - apply Hstore.
  - destruct (rerun block prevBlock) eqn:Hrun; cbn [negb]; [apply Hstore|].
    cbn [state_after]. intros [= <-]. split; [apply grows_refl|].
    intros n. cbn [receiveBlock]. rewrite decide_False by done.
    by rewrite Hgen, Hproof, Hprev, Hrun.
  - apply Hstore.
  - destruct (pendingBlocks st !! prevBlockHash block) as [stuckBlocks|] eqn:Hstuck;
      cbn [state_after]; intros [= <-].
    + split; [split; [by left|auto]|].
      intros n. cbn [receiveBlock]. cbn [blocks set_pendingBlocks pendingBlocks].
      rewrite decide_False by done. rewrite Hgen, Hproof, Hprev.
      rewrite lookup_insert_eq, set_add_again.
      unfold set_pendingBlocks, requestMissingBlock, broadcast.
      cbn [wallet c_address c_keyPair pendingOutgoingTransactions blocks pendingBlocks
             lastBlock lastConfirmedBlock prng net].
      by rewrite insert_insert_eq.
    + split; [split; [by left|auto]|].
      intros n. cbn [receiveBlock].
      cbn [blocks set_pendingBlocks pendingBlocks requestMissingBlock broadcast].
      rewrite decide_False by done. rewrite Hgen, Hproof, Hprev.
      rewrite lookup_insert_eq, set_add_again.
      unfold set_pendingBlocks, requestMissingBlock, broadcast.
      cbn [wallet c_address c_keyPair pendingOutgoingTransactions blocks pendingBlocks
             lastBlock lastConfirmedBlock prng net].
      by rewrite insert_insert_eq.
Qed.


Lemma anchored_mono (m m' : gmap string Block) (block : Block) :
  m ⊆ m' -> anchored m block -> anchored m' block.
Proof.
  intros Hsub. induction 1 as [block Hlen | block parent Hparent Hlt _ IH].
  - by apply anchored_base.
  - apply (anchored_step m' block parent); [|done..].
    by eapply lookup_weaken.
Qed.

Lemma walkBack_anchored (m : gmap string Block) (height : Z) (block : Block) (fuel : nat) :
  anchored m block -> 0 <= height -> (Z.to_nat (chainLength block) <= fuel)%nat ->
  exists confirmed, walkBack fuel m height block = Ret confirmed.
Proof.
  intros Hanch Hheight. revert fuel.
  induction Hanch as [block Hlen | block parent Hparent Hlt _ IH]; intros fuel Hfuel.
  - exists block. destruct fuel; cbn [walkBack];
      destruct (Z.ltb_spec height (chainLength block)); (lia || reflexivity).
  - destruct (Z.ltb_spec height (chainLength block)) as [Hgo|Hstop].
    + destruct fuel as [|fuel]; [lia|]. cbn [walkBack].
      destruct (Z.ltb_spec height (chainLength block)); [|lia].
      rewrite Hparent. apply IH. lia.
    + exists block. destruct fuel; cbn [walkBack];
        destruct (Z.ltb_spec height (chainLength block)); (lia || reflexivity).
Qed.

(** The delivery of a sound block on a known parent, with no block waiting
    for it. *)
Lemma receiveBlock_on_parent (fuel : nat) (block parent head : Block) (st : Client) :
  blocks st !! block_id block = None ->
  hasValidProof block = true ->
  isGenesisBlock block = false ->
  blocks st !! prevBlockHash block = Some parent ->
  rerun block parent = true ->
  lastBlock st = Some head ->
  pendingBlocks st !! block_id block = None ->
  anchored (blocks st) parent ->
  (Z.to_nat (chainLength parent) + 2 <= fuel)%nat ->
  exists st',
    receiveBlock fuel block st = Done (Some block) st' /\
    lastBlock st' = Some (if chainLength head <? chainLength block then block else head) /\
    blocks st' = <[block_id block := block]> (blocks st) /\
    pendingBlocks st' = pendingBlocks st.
Proof.
  intros Hnew Hproof Hgen Hparent Hrun Hhead Hwait Hanch Hfuel.
  destruct fuel as [|fuel]; [lia|]. cbn [receiveBlock].
  rewrite decide_False by (rewrite Hnew; by intros [? ?]).
  rewrite Hproof, Hgen, Hparent, Hrun. cbn [negb andb].
  unfold receiveBlock_store. cbn [lastBlock set_blocks]. rewrite Hhead.
  destruct (chainLength head <? chainLength block) eqn:Hlt.
  - unfold setLastConfirmed. cbn [lastBlock set_lastBlock blocks set_blocks].
    set (height := if chainLength block - CONFIRMED_DEPTH <? 0
                   then 0 else chainLength block - CONFIRMED_DEPTH).
    assert (0 <= height) as Hheight
      by (unfold height; destruct (Z.ltb_spec (chainLength block - CONFIRMED_DEPTH) 0); lia).
    set (m := <[block_id block := block]> (blocks st)).
    assert (anchored m parent) as Hanch'
      by (eapply anchored_mono; [by apply insert_subseteq|done]).
    assert (exists confirmed, walkBack fuel m height block = Ret confirmed) as [confirmed Hwalk].
    { destruct (Z.ltb_spec height (chainLength block)) as [Hgo|Hstop].
      - destruct fuel as [|fuel']; [lia|]. cbn [walkBack].
        destruct (Z.ltb_spec height (chainLength block)); [|lia].
        assert (m !! prevBlockHash block = Some parent) as ->
          by (eapply lookup_weaken; [exact Hparent|by apply insert_subseteq]).
        apply walkBack_anchored; [done..|lia].
      - exists block. destruct fuel; cbn [walkBack];
          destruct (Z.ltb_spec height (chainLength block)); (lia || reflexivity). }
    rewrite Hwalk. cbn [rbind].
    cbn [pendingBlocks set_pendingOutgoingTransactions set_lastConfirmedBlock
           set_lastBlock set_blocks].
    rewrite Hwait. cbn [from_option id forEachBlock rbind].
    eexists. split; [reflexivity|]. cbn. rewrite delete_id by done. auto.
  - cbn [rbind pendingBlocks set_blocks]. rewrite Hwait. cbn [from_option forEachBlock rbind].
    eexists. split; [reflexivity|]. cbn. rewrite delete_id by done. auto.
Qed.

(** C6.  After a delivery the head is the delivered block only if it was
    the head before or is strictly longer than the head before; a block
    that is not longer than the head does not displace it; and of two sound
    blocks of lengths [L] and [L + 1] on one known parent, delivered in
    either order to a client whose head is not longer than [L], the block of
    length [L + 1] ends as the head. *)
Theorem longest_chain_adoption :
  (forall fuel (block : Block) st st',
      state_after (receiveBlock fuel block st) = Some st' ->
      lastBlock st' = Some block ->
      lastBlock st = Some block \/
      exists head, lastBlock st = Some head /\ chainLength head < chainLength block) /\
  (forall fuel (block head : Block) st st',
      state_after (receiveBlock fuel block st) = Some st' ->
      lastBlock st = Some head ->
      chainLength block <= chainLength head ->
      lastBlock st' = Some block -> block = head) /\
  (forall (A B parent head : Block) (st : Client) (L : Z) (fuel : nat),
      chainLength A = L -> chainLength B = L + 1 ->
      prevBlockHash A = prevBlockHash B ->
      blocks st !! prevBlockHash A = Some parent ->
      anchored (blocks st) parent ->
      lastBlock st = Some head -> chainLength head <= L ->
      block_id A <> block_id B ->
      blocks st !! block_id A = None -> blocks st !! block_id B = None ->
      isGenesisBlock A = false -> isGenesisBlock B = false ->
      hasValidProof A = true -> hasValidProof B = true ->
      rerun A parent = true -> rerun B parent = true ->
      pendingBlocks st !! block_id A = None -> pendingBlocks st !! block_id B = None ->
      (Z.to_nat (chainLength parent) + 2 <= fuel)%nat ->
      (exists st1 st2,
          receiveBlock fuel A st = Done (Some A) st1 /\
          receiveBlock fuel B st1 = Done (Some B) st2 /\
          lastBlock st2 = Some B) /\
      (exists st1 st2,
          receiveBlock fuel B st = Done (Some B) st1 /\
          receiveBlock fuel A st1 = Done (Some A) st2 /\
          lastBlock st2 = Some B)).
Proof.
  assert (forall fuel (block : Block) st st',
             state_after (receiveBlock fuel block st) = Some st' ->
             lastBlock st' = Some block ->
             lastBlock st = Some block \/
             exists head, lastBlock st = Some head /\ chainLength head < chainLength block)
    as Honly.
  { intros fuel block st st' Hres Hhead.
    destruct (receiveBlock_spec fuel block st st' Hres) as [[[E | (l & l' & E1 & E2 & Hlt)] _] _].
    - left. congruence.
    - right. exists l. split; [done|]. congruence. }
  split; [exact Honly|]. split.
  { intros fuel block head st st' Hres Hhead Hle Hnew.
    destruct (Honly fuel block st st' Hres Hnew) as [E | (h & E & Hlt)]; [congruence|].
    assert (h = head) as -> by congruence. lia. }
  intros A B parent head st L fuel HA HB Hprev Hparent Hanch Hhead Hle Hids HnewA HnewB
    HgenA HgenB HproofA HproofB HrunA HrunB HwaitA HwaitB Hfuel.
  assert (prevBlockHash A <> block_id A) as HpA by (intros E; rewrite E in Hparent; congruence).
  assert (prevBlockHash A <> block_id B) as HpB by (intros E; rewrite E in Hparent; congruence).
  split.
  - destruct (receiveBlock_on_parent fuel A parent head st) as (st1 & R1 & Hh1 & Hb1 & Hp1);
      [done..|].
    destruct (receiveBlock_on_parent fuel B parent
                (if chainLength head <? chainLength A then A else head) st1)
      as (st2 & R2 & Hh2 & _); try done.
    + rewrite Hb1. by rewrite lookup_insert_ne.
    + rewrite Hb1, <- Hprev. by rewrite lookup_insert_ne.
    + by rewrite Hp1.
    + rewrite Hb1. eapply anchored_mono; [by apply insert_subseteq|done].
    + exists st1, st2. repeat split; [done..|]. rewrite Hh2.
      destruct (chainLength head <? chainLength A);
        [destruct (Z.ltb_spec (chainLength A) (chainLength B))
        |destruct (Z.ltb_spec (chainLength head) (chainLength B))]; (done || lia).
  - destruct (receiveBlock_on_parent fuel B parent head st) as (st1 & R1 & Hh1 & Hb1 & Hp1);
      try done.
    { by rewrite <- Hprev. }
    destruct (receiveBlock_on_parent fuel A parent
                (if chainLength head <? chainLength B then B else head) st1)
      as (st2 & R2 & Hh2 & _); try done.
    + rewrite Hb1. by rewrite lookup_insert_ne.
    + rewrite Hb1. by rewrite lookup_insert_ne.
    + by rewrite Hp1.
    + rewrite Hb1. eapply anchored_mono; [by apply insert_subseteq|done].
    + exists st1, st2. repeat split; [done..|]. rewrite Hh2.
      destruct (Z.ltb_spec (chainLength head) (chainLength B)); [|lia].
      destruct (Z.ltb_spec (chainLength B) (chainLength A)); [lia|done].
Qed.

End LedgerFacts.


Lemma longest_chain_adoption_witness :
  (exists st1 st2,
      receiveBlock 5 demo_blockL demo_client = Done (Some demo_blockL) st1 /\
      receiveBlock 5 demo_blockL1 st1 = Done (Some demo_blockL1) st2 /\
      lastBlock st2 = Some demo_blockL1) /\
  (exists st1 st2,
      receiveBlock 5 demo_blockL1 demo_client = Done (Some demo_blockL1) st1 /\
      receiveBlock 5 demo_blockL st1 = Done (Some demo_blockL) st2 /\
      lastBlock st2 = Some demo_blockL1).
Proof.
  apply (proj2 (proj2 longest_chain_adoption)
           demo_blockL demo_blockL1 demo_genesis demo_genesis demo_client 1 5%nat).
  - reflexivity.
  - reflexivity.
  - reflexivity.
  - vm_compute. reflexivity.
  - apply anchored_base. cbn. lia.
  - reflexivity.
  - cbn. lia.
  - cbn. discriminate.
  - vm_compute. reflexivity.
  - vm_compute. reflexivity.
  - reflexivity.
  - reflexivity.
  - reflexivity.
  - reflexivity.
  - reflexivity.
  - reflexivity.
  - reflexivity.
  - reflexivity.
  - cbn. lia.
Defined.

(** * Further properties *)

(** ** The codec, the other way round *)

Lemma translate11bit_loop_digits (k fuel : nat) (n : Z) (acc : string) :
  (k <= fuel)%nat -> 0 <= n < 2 ^ Z.of_nat k ->
  exists bs,
    Mnemonic.translate11bit_loop fuel (2 ^ Z.of_nat k / 2) n acc = Ret (acc +:+ bs) /\
    binstr bs /\ String.length bs = k /\ bval bs = n.
Proof.
  revert fuel n acc. induction k as [|k IH]; intros fuel n acc Hk Hn.
  - exists EmptyString. change (2 ^ Z.of_nat 0) with 1 in Hn.
    split; [|split; [exact I|split; [reflexivity|cbn; lia]]].
    rewrite str_app_nil_r. by destruct fuel.
  - destruct fuel as [|fuel]; [lia|]. rewrite half_pow2.
    rewrite Nat2Z.inj_succ, Z.pow_succ_r in Hn by lia.
    cbn [Mnemonic.translate11bit_loop].
    assert (0 < 2 ^ Z.of_nat k) as Hpos by (apply Z.pow_pos_nonneg; lia).
    destruct (Z.leb_spec 1 (2 ^ Z.of_nat k)); [|lia].
    destruct (Z.leb_spec (2 ^ Z.of_nat k) n) as [Hge|Hlt].
    + destruct (IH fuel (n - 2 ^ Z.of_nat k) (acc +:+ "1")) as (bs & Hloop & Hbin & Hlen & Hval);
        [lia|lia|].
      exists (String "1" bs). rewrite Hloop, str_app_assoc.
      split; [reflexivity|]. split; [cbn; auto|]. split; [cbn; by rewrite Hlen|].
      cbn [bval Ascii.eqb Bool.eqb]. cbn. rewrite Hlen, Hval. lia.
    + destruct (IH fuel n (acc +:+ "0")) as (bs & Hloop & Hbin & Hlen & Hval); [lia|lia|].
      exists (String "0" bs). rewrite Hloop, str_app_assoc.
      split; [reflexivity|]. split; [cbn; auto|]. split; [cbn; by rewrite Hlen|].
      cbn. rewrite Hval. lia.
Qed.

(** X1.  For an index of the word list, [translate11bit] gives 11 binary
    digits, and the value [split] reads from them is the index. *)
Theorem translate11bit_value (n : Z) :
  0 <= n < 2048 ->
  exists bs,
    Mnemonic.translate11bit n = Ret bs /\
    String.length bs = 11%nat /\ binstr bs /\
    Mnemonic.elevenBitsValue bs 1024 0 = n.
Proof.
  intros Hn.
  destruct (translate11bit_loop_digits 11 11 n EmptyString) as (bs & Hloop & Hbin & Hlen & Hval);
    [lia|by change (2 ^ Z.of_nat 11) with 2048|].
  exists bs. split; [exact Hloop|]. split; [done|]. split; [done|].
  change 1024 with (2 ^ Z.of_nat 11 / 2). rewrite <- Hlen at 1.
  rewrite elevenBitsValue_bval. lia.
Qed.

Lemma translate11bit_value_witness :
  exists bs,
    Mnemonic.translate11bit 1030 = Ret bs /\
    String.length bs = 11%nat /\ binstr bs /\
    Mnemonic.elevenBitsValue bs 1024 0 = 1030.
Proof. apply (translate11bit_value 1030). lia. Defined.

Lemma translate11bit_loop_high (k fuel : nat) (n : Z) (acc : string) :
  (k <= fuel)%nat -> 2 ^ Z.of_nat k - 1 <= n ->
  Mnemonic.translate11bit_loop fuel (2 ^ Z.of_nat k / 2) n acc
  = Ret (acc +:+ str_repeat "1" k).
Proof.
  revert fuel n acc. induction k as [|k IH]; intros fuel n acc Hk Hn.
  - cbn [str_repeat]. rewrite str_app_nil_r. by destruct fuel.
  - destruct fuel as [|fuel]; [lia|]. rewrite half_pow2.
    rewrite Nat2Z.inj_succ, Z.pow_succ_r in Hn by lia.
    cbn [Mnemonic.translate11bit_loop str_repeat].
    assert (0 < 2 ^ Z.of_nat k) as Hpos by (apply Z.pow_pos_nonneg; lia).
    destruct (Z.leb_spec 1 (2 ^ Z.of_nat k)); [|lia].
    destruct (Z.leb_spec (2 ^ Z.of_nat k) n); [|lia].
    rewrite IH by lia. by rewrite str_app_assoc.
Qed.

Lemma translate11bit_loop_low (k fuel : nat) (n : Z) (acc : string) :
  (k <= fuel)%nat -> n <= 0 ->
  Mnemonic.translate11bit_loop fuel (2 ^ Z.of_nat k / 2) n acc
  = Ret (acc +:+ str_repeat "0" k).
Proof.
  revert fuel acc. induction k as [|k IH]; intros fuel acc Hk Hn.
  - cbn [str_repeat]. rewrite str_app_nil_r. by destruct fuel.
  - destruct fuel as [|fuel]; [lia|]. rewrite half_pow2.
    cbn [Mnemonic.translate11bit_loop str_repeat].
    assert (0 < 2 ^ Z.of_nat k) as Hpos by (apply Z.pow_pos_nonneg; lia).
    destruct (Z.leb_spec 1 (2 ^ Z.of_nat k)); [|lia].
    destruct (Z.leb_spec (2 ^ Z.of_nat k) n); [lia|].
    rewrite IH by lia. by rewrite str_app_assoc.
Qed.

(** X2.  Outside the 11 bits [translate11bit] saturates: every number from
    2047 on gives eleven ones, every number up to 0 gives eleven zeros. *)
Theorem translate11bit_saturates (n : Z) :
  (2047 <= n -> Mnemonic.translate11bit n = Ret "11111111111") /\
  (n <= 0 -> Mnemonic.translate11bit n = Ret "00000000000").
Proof.
  split; intros Hn.
  - apply (translate11bit_loop_high 11 11 n EmptyString); [lia|].
    change (2 ^ Z.of_nat 11) with 2048. lia.
  - by apply (translate11bit_loop_low 11 11 n EmptyString).
Qed.

Lemma translate11bit_saturates_witness :
  Mnemonic.translate11bit 5000 = Ret "11111111111" /\
  Mnemonic.translate11bit (-3) = Ret "00000000000".
Proof.
  split.
  - apply (proj1 (translate11bit_saturates 5000)). lia.
  - apply (proj2 (translate11bit_saturates (-3))). lia.
Defined.

Lemma parseInt2_binstr (s : string) (acc : option Z) :
  binstr s -> s <> EmptyString ->
  Mnemonic.parseInt2 s acc
  = Some (default 0 acc * 2 ^ Z.of_nat (String.length s) + bval s).
Proof.
  revert acc. induction s as [|c s IH]; intros acc Hs Hne; [done|].
  destruct Hs as [Hc Hs]. cbn [Mnemonic.parseInt2 String.length bval].
  rewrite Nat2Z.inj_succ, Z.pow_succ_r by lia.
  destruct s as [|c' s'].
  - destruct Hc as [-> | ->]; cbn; f_equal; lia.
  - destruct Hc as [-> | ->]; cbn [Ascii.eqb Bool.eqb]; cbn match;
      rewrite IH by done; cbn [from_option]; unfold id; f_equal; lia.
Qed.

Lemma bval_inj (a b : string) :
  binstr a -> binstr b -> String.length a = String.length b -> bval a = bval b -> a = b.
Proof.
  revert b. induction a as [|c a IH]; intros [|d b] Ha Hb Hlen Hval; try done.
  destruct Ha as [Hc Ha], Hb as [Hd Hb]. cbn in Hlen. injection Hlen as Hlen.
  cbn [bval] in Hval. rewrite Hlen in Hval.
  pose proof (bval_bound a) as Hba. pose proof (bval_bound b) as Hbb.
  rewrite Hlen in Hba.
  destruct Hc as [-> | ->], Hd as [-> | ->]; cbn [Ascii.eqb Bool.eqb] in Hval;
    cbn match in Hval; first [lia | f_equal; apply IH; (done || lia)].
Qed.

Lemma convertByteToBinString_bval (s : string) :
  binstr s -> String.length s = 8%nat ->
  is_byte (bval s) /\ Mnemonic.convertByteToBinString (bval s) = s.
Proof.
  intros Hs Hlen. pose proof (bval_bound s) as Hb. rewrite Hlen in Hb.
  change (2 ^ Z.of_nat 8) with 256 in Hb. split; [exact Hb|].
  apply bval_inj; [apply convertByteToBinString_binstr|done| |].
  - by rewrite convertByteToBinString_length.
  - pose proof (convertBinStringToByte_convertByteToBinString (bval s) Hb) as Hparse.
    unfold Mnemonic.convertBinStringToByte in Hparse.
    rewrite parseInt2_binstr in Hparse.
    + cbn [from_option] in Hparse. injection Hparse as Hparse. lia.
    + apply convertByteToBinString_binstr.
    + intros E. pose proof (convertByteToBinString_length (bval s)) as Hl.
      rewrite E in Hl. discriminate.
Qed.

(** X3.  A byte and its eight binary digits determine each other:
    [convertBinStringToByte] undoes [convertByteToBinString] on a byte, and
    [convertByteToBinString] undoes [convertBinStringToByte] on eight binary
    digits; the empty string parses to NaN. *)
Theorem byte_binstring_roundtrip :
  (forall b, is_byte b ->
     Mnemonic.convertBinStringToByte (Mnemonic.convertByteToBinString b) = Some b) /\
  (forall s, binstr s -> String.length s = 8%nat ->
     exists b, Mnemonic.convertBinStringToByte s = Some b /\ is_byte b /\
               Mnemonic.convertByteToBinString b = s) /\
  Mnemonic.convertBinStringToByte EmptyString = None.
Proof.
  split; [exact convertBinStringToByte_convertByteToBinString|]. split; [|reflexivity].
  intros s Hs Hlen. exists (bval s).
  destruct (convertByteToBinString_bval s Hs Hlen) as [Hb Hconv].
  split; [|done]. unfold Mnemonic.convertBinStringToByte.
  rewrite parseInt2_binstr; [cbn [from_option]; f_equal; lia|done|].
  intros E. rewrite E in Hlen. discriminate.
Qed.

Lemma byte_binstring_roundtrip_witness :
  Mnemonic.convertBinStringToByte (Mnemonic.convertByteToBinString 200) = Some 200 /\
  exists b, Mnemonic.convertBinStringToByte "01000001" = Some b /\ is_byte b /\
            Mnemonic.convertByteToBinString b = "01000001".
Proof.
  split.
  - apply (proj1 byte_binstring_roundtrip 200). unfold is_byte. lia.
  - apply (proj1 (proj2 byte_binstring_roundtrip) "01000001"); [cbn; tauto|reflexivity].
Defined.

(** X4.  [split] needs at least 11 bits: on a buffer of fewer than two bytes
    [match] answers [null] and [split] raises a TypeError; on [n >= 2] bytes it
    gives [8 n / 11] numbers (rounded down), each below 2048. *)
Theorem split_groups (buf : list Z) :
  ((length buf < 2)%nat -> Mnemonic.split buf = Throw TypeError) /\
  ((2 <= length buf)%nat ->
   exists arr, Mnemonic.split buf = Ret arr /\
               length arr = (8 * length buf / 11)%nat /\
               Forall (fun v => 0 <= v < 2048) arr).
Proof.
  unfold Mnemonic.split, Mnemonic.match11.
  pose proof (bitStringOf_length buf) as Hbits. rewrite Hbits.
  split; intros Hlen.
  - destruct buf as [|b [|b' buf]]; [reflexivity|reflexivity|cbn in Hlen; lia].
  - assert (1 <= 8 * length buf / 11)%nat as Hk
      by (apply Nat.div_le_lower_bound; [lia|]; rewrite Nat.mul_1_r; lia).
    pose proof (Nat.Div0.mul_div_le (8 * length buf) 11) as Hmul.
    set (k := (8 * length buf / 11)%nat) in *.
    set (l := map (fun i => str_take 11 (str_drop (11 * i) (Mnemonic.bitStringOf buf)))
                (List.seq 0 k)).
    assert (length l = k) as Hl by (unfold l; by rewrite length_map, length_seq).
    assert (Forall (fun c => String.length c = 11%nat) l) as Hall.
    { unfold l. apply Forall_map, Forall_forall. intros i Hi. apply elem_of_seq in Hi.
      cbn beta. apply str_take_length. rewrite str_drop_length, Hbits. lia. }
    destruct l as [|c l'] eqn:El; [cbn [length] in Hl; lia|].
    eexists. split; [reflexivity|]. split; [by rewrite length_map|].
    apply Forall_map. eapply Forall_impl; [exact Hall|].
    intros g Hg. by apply elevenBitsValue_range.
Qed.

Lemma split_groups_witness :
  Mnemonic.split [255] = Throw TypeError /\
  exists arr, Mnemonic.split [255; 1; 2] = Ret arr /\
              length arr = (8 * 3 / 11)%nat /\
              Forall (fun v => 0 <= v < 2048) arr.
Proof.
  split.
  - apply (proj1 (split_groups [255])). cbn. lia.
  - apply (proj2 (split_groups [255; 1; 2])). cbn. lia.
Defined.

(** ** Chunks of a string *)

Lemma chunks_scat (n k : nat) (s : string) :
  String.length s = (n * k)%nat ->
  scat (map (fun i => str_take n (str_drop (n * i) s)) (List.seq 0 k)) = s.
Proof.
  revert s. induction k as [|k IH]; intros s Hlen.
  - destruct s; [reflexivity|cbn in Hlen; lia].
  - cbn [List.seq map scat]. rewrite <- seq_shift, map_map.
    rewrite (map_ext _ (fun i => str_take n (str_drop (n * i) (str_drop n s)))).
    + rewrite IH by (rewrite str_drop_length; lia).
      rewrite Nat.mul_0_r. apply str_take_drop.
    + intros i. rewrite str_drop_drop. f_equal. f_equal. lia.
Qed.

Lemma chunks_wf (n k : nat) (s : string) :
  binstr s -> String.length s = (n * k)%nat ->
  Forall (fun c => binstr c /\ String.length c = n)
    (map (fun i => str_take n (str_drop (n * i) s)) (List.seq 0 k)).
Proof.
  intros Hs Hlen. apply Forall_map, Forall_forall. intros i Hi.
  apply elem_of_seq in Hi. split.
  - by apply binstr_take, binstr_drop.
  - apply str_take_length. rewrite str_drop_length. nia.
Qed.

Lemma scat_length (n : nat) (gs : list string) :
  Forall (fun c => String.length c = n) gs ->
  String.length (scat gs) = (n * length gs)%nat.
Proof.
  induction 1 as [|g gs Hg _ IH]; cbn [scat length]; [cbn; lia|].
  rewrite str_app_length, Hg, IH. lia.
Qed.

Lemma scat_groups (n : nat) (gs : list string) :
  Forall (fun c => String.length c = n) gs ->
  map (fun i => str_take n (str_drop (n * i) (scat gs))) (List.seq 0 (length gs)) = gs.
Proof.
  induction 1 as [|g gs Hg Hgs IH]; [reflexivity|].
  cbn [length List.seq map scat]. rewrite Nat.mul_0_r. cbn [str_drop].
  rewrite <- Hg at 1. rewrite str_take_app. f_equal.
  rewrite <- seq_shift, map_map. rewrite <- IH at 2.
  apply map_ext. intros i.
  replace (n * S i)%nat with (String.length g + n * i)%nat by lia.
  rewrite <- str_drop_drop, str_drop_app. reflexivity.
Qed.

Lemma fillBytes_chunks (cs : list string) (extra : string) (done junk : list Z) :
  Forall (fun c => binstr c /\ String.length c = 8%nat) cs ->
  length junk = length cs ->
  Mnemonic.fillBytes (length cs) (length done) (scat cs +:+ extra) (done ++ junk)
  = Ret (done ++ map bval cs).
Proof.
  intros Hcs. revert done junk.
  induction Hcs as [|c cs [Hc Hc8] Hcs IH]; intros done junk Hlen.
  - destruct junk; [|done]. reflexivity.
  - destruct junk as [|j junk]; [done|]. cbn in Hlen.
    cbn [length map scat Mnemonic.fillBytes]. rewrite str_app_assoc.
    pose proof (str_take_app c (scat cs +:+ extra)) as Htake.
    pose proof (str_drop_app c (scat cs +:+ extra)) as Hdrop.
    rewrite Hc8 in Htake, Hdrop. rewrite Htake, Hdrop.
    unfold Mnemonic.convertBinStringToByte.
    rewrite parseInt2_binstr by (done || (intros E; rewrite E in Hc8; discriminate)).
    cbn [from_option]. replace (0 * 2 ^ Z.of_nat (String.length c) + bval c) with (bval c) by lia.
    pose proof (bval_bound c) as Hb. rewrite Hc8 in Hb. change (2 ^ Z.of_nat 8) with 256 in Hb.
    unfold Mnemonic.writeUInt8. cbn [from_option]. unfold id.
    destruct (Z.ltb_spec (bval c) 0); [lia|]. destruct (Z.ltb_spec 255 (bval c)); [lia|].
    cbn [orb]. rewrite length_app. cbn [length].
    destruct (Nat.ltb_spec (length done) (length done + S (length junk))); [|lia].
    cbn [obind]. rewrite insert_app_r_alt, Nat.sub_diag by lia. cbn [insert list_insert].
    specialize (IH (done ++ [bval c]) junk). rewrite length_app in IH. cbn [length] in IH.
    replace (length done + 1)%nat with (S (length done)) in IH by lia.
    rewrite <- !app_assoc in IH. cbn [app] in IH. apply IH. lia.
Qed.

Lemma map_bval_convert (buf : list Z) :
  Forall is_byte buf -> map bval (map Mnemonic.convertByteToBinString buf) = buf.
Proof.
  induction 1 as [|b buf Hb _ IH]; [reflexivity|]. cbn [map]. rewrite IH. f_equal.
  pose proof (convertBinStringToByte_convertByteToBinString b Hb) as Hparse.
  unfold Mnemonic.convertBinStringToByte in Hparse.
  rewrite parseInt2_binstr in Hparse.
  - cbn [from_option] in Hparse. injection Hparse as Hparse. lia.
  - apply convertByteToBinString_binstr.
  - intros E. pose proof (convertByteToBinString_length b) as Hl. rewrite E in Hl. discriminate.
Qed.

Lemma map_convert_bval (cs : list string) :
  Forall (fun c => binstr c /\ String.length c = 8%nat) cs ->
  map Mnemonic.convertByteToBinString (map bval cs) = cs.
Proof.
  induction 1 as [|c cs [Hc Hc8] _ IH]; [reflexivity|]. cbn [map]. rewrite IH. f_equal.
  by apply convertByteToBinString_bval.
Qed.

(** ** Phrases *)

Lemma wordlist_nospace_elem (wl : list string) (w : string) :
  Forall (fun x => has_space x = false) wl -> In w wl -> has_space w = false.
Proof.
  intros Hwl Hin. rewrite Forall_forall in Hwl. apply Hwl. by apply list_elem_of_In.
Qed.

Lemma joinWords_cons (w : string) (ws : list string) :
  joinWords (w :: ws) = w +:+ scat (map (fun x => " " +:+ x) ws).
Proof. reflexivity. Qed.

Lemma js_split_space_joinWords (ws : list string) :
  ws <> [] -> Forall (fun x => has_space x = false) ws ->
  js_split_space (joinWords ws) = ws.
Proof.
  destruct ws as [|w ws]; [done|]. intros _ Hall.
  rewrite joinWords_cons. by apply js_split_space_join.
Qed.

Lemma js_split_space_join_tail (w : string) (ws : list string) (tail : string) :
  Forall (fun x => has_space x = false) (w :: ws) ->
  js_split_space ((w +:+ scat (map (fun x => " " +:+ x) ws)) +:+ String " " tail)
  = (w :: ws) ++ js_split_space tail.
Proof.
  revert w. induction ws as [|w' ws IH]; intros w Hall.
  - cbn [map scat]. rewrite str_app_nil_r. cbn [app].
    apply js_split_space_word. by inversion Hall.
  - inversion Hall as [|? ? Hw Hrest]; subst.
    cbn [map scat]. change (" " +:+ w') with (String " " w').
    cbn [String.append]. rewrite str_app_assoc. cbn [String.append].
    rewrite js_split_space_word by done. rewrite IH by done. reflexivity.
Qed.

Lemma lookupWord_appends (w : string) (wl : list string) (j : Z) (acc : string) :
  exists extra, Mnemonic.lookupWord w wl j acc = Ret (acc +:+ extra).
Proof.
  revert j acc. induction wl as [|wj wl IH]; intros j acc.
  - exists EmptyString. cbn. by rewrite str_app_nil_r.
  - cbn [Mnemonic.lookupWord]. destruct (String.eqb w wj); [|apply IH].
    destruct (translate11bit_total j) as [bs ->]. cbn [obind].
    destruct (IH (j + 1) (acc +:+ (EmptyString +:+ bs))) as [extra ->].
    exists (bs +:+ extra). f_equal. cbn [String.append]. by rewrite str_app_assoc.
Qed.

Lemma lookupWords_appends (wl ws : list string) (acc : string) :
  exists extra, Mnemonic.lookupWords wl ws acc = Ret (acc +:+ extra).
Proof.
  revert acc. induction ws as [|w ws IH]; intros acc.
  - exists EmptyString. cbn. by rewrite str_app_nil_r.
  - cbn [Mnemonic.lookupWords].
    destruct (lookupWord_appends w wl 0 acc) as [e1 ->]. cbn [obind].
    destruct (IH (acc +:+ e1)) as [e2 ->]. exists (e1 +:+ e2). by rewrite str_app_assoc.
Qed.

Lemma lookupWords_app (wl ws ts : list string) (acc : string) :
  Mnemonic.lookupWords wl (ws ++ ts) acc
  = obind (Mnemonic.lookupWords wl ws acc) (Mnemonic.lookupWords wl ts).
Proof.
  revert acc. induction ws as [|w ws IH]; intros acc; [reflexivity|].
  cbn [app Mnemonic.lookupWords].
  destruct (Mnemonic.lookupWord w wl 0 acc); cbn [obind]; [apply IH|reflexivity..].
Qed.

(** The phrase of a buffer, word by word. *)
Lemma words_phrase (wl : list string) (buf : list Z) :
  length wl = 2048%nat -> NoDup wl ->
  Forall (fun w => has_space w = false) wl ->
  length buf = 33%nat ->
  exists ws,
    Mnemonic.words wl buf = Ret (joinWords ws) /\
    length ws = 24%nat /\ Forall (fun w => In w wl) ws /\
    js_split_space (joinWords ws) = ws /\
    forall acc, Mnemonic.lookupWords wl ws acc = Ret (acc +:+ Mnemonic.bitStringOf buf).
Proof.
  intros Hwl Hnd Hsp Hlen.
  pose proof (bitStringOf_length buf) as Hbits. rewrite Hlen in Hbits.
  change (8 * 33)%nat with 264%nat in Hbits.
  pose proof (bitStringOf_binstr buf) as Hbin.
  set (s := Mnemonic.bitStringOf buf) in *.
  set (groups := map (fun i => str_take 11 (str_drop (11 * i) s)) (List.seq 0 24)).
  assert (Forall (fun c => binstr c /\ String.length c = 11%nat) groups) as Hg
    by (apply groups_wf; [done | by rewrite Hbits]).
  assert (scat groups = s) as Hcat by (apply groups_scat; by rewrite Hbits).
  set (vals := map (fun bs => Mnemonic.elevenBitsValue bs 1024 0) groups).
  set (ws := map (Mnemonic.wordAt wl) vals).
  assert (Forall (fun w => In w wl) ws) as Hin.
  { unfold ws, vals. apply Forall_map, Forall_map.
    eapply Forall_impl; [exact Hg|]. intros c [_ Hc11]. cbn.
    pose proof (elevenBitsValue_range c Hc11) as Hv. unfold Mnemonic.wordAt.
    destruct (lookup_lt_is_Some_2 wl (Z.to_nat (Mnemonic.elevenBitsValue c 1024 0)))
      as [w Hw]; [lia|].
    rewrite Hw. apply list_elem_of_In. by eapply list_elem_of_lookup_2. }
  assert (length ws = 24%nat) as Hws
    by (unfold ws, vals, groups; by rewrite !length_map, length_seq).
  exists ws. split; [|split; [done|split; [done|split]]].
  - unfold Mnemonic.words, Mnemonic.split. fold s.
    rewrite match11_groups by done. fold groups. cbn [obind]. fold vals.
    rewrite (fold_left_append (fun v => " " +:+ Mnemonic.wordAt wl v)).
    unfold ws, joinWords. rewrite map_map. reflexivity.
  - apply js_split_space_joinWords; [by destruct ws|].
    eapply Forall_impl; [exact Hin|]. intros w Hw. by eapply wordlist_nospace_elem.
  - intros acc. unfold ws, vals. rewrite lookupWords_groups by done. by rewrite Hcat.
Qed.

(** X5.  A buffer followed by more text: whatever follows the 24 words
    of [words], after a blank, is ignored by [calculateSequence], which gives
    the buffer back. *)
Theorem calculateSequence_ignores_tail (wordlist : list string) (buf : list Z) (tail : string) :
  length wordlist = 2048%nat ->
  NoDup wordlist ->
  Forall (fun w => has_space w = false) wordlist ->
  length buf = 33%nat ->
  Forall is_byte buf ->
  exists phrase,
    Mnemonic.words wordlist buf = Ret phrase /\
    Mnemonic.calculateSequence wordlist (phrase +:+ " " +:+ tail) = Ret buf.
Proof.
  intros Hwl Hnd Hsp Hlen Hbytes.
  destruct (words_phrase wordlist buf Hwl Hnd Hsp Hlen) as (ws & Hwords & Hws & Hin & _ & Hlook).
  exists (joinWords ws). split; [done|].
  destruct ws as [|w ws']; [done|].
  unfold Mnemonic.calculateSequence. rewrite joinWords_cons.
  change (" " +:+ tail) with (String " " tail).
  rewrite js_split_space_join_tail.
  2:{ eapply Forall_impl; [exact Hin|]. intros x Hx. by eapply wordlist_nospace_elem. }
  rewrite lookupWords_app, Hlook. cbn [obind].
  destruct (lookupWords_appends wordlist (js_split_space tail)
              (EmptyString +:+ Mnemonic.bitStringOf buf)) as [extra ->].
  cbn [obind String.append]. rewrite bitStringOf_scat.
  change (Mnemonic.NUM_BYTES + 1)%nat with 33%nat.
  assert (length (map Mnemonic.convertByteToBinString buf) = 33%nat) as Hl
    by (by rewrite length_map).
  pose proof (fillBytes_chunks (map Mnemonic.convertByteToBinString buf) extra []
                (Mnemonic.alloc 33)) as Hfill.
  rewrite Hl in Hfill. cbn [length app] in Hfill. rewrite Hfill.
  - by rewrite map_bval_convert.
  - apply Forall_map, Forall_forall. intros b _. cbn.
    split; [apply convertByteToBinString_binstr|apply convertByteToBinString_length].
  - unfold Mnemonic.alloc. by rewrite repeat_length.
Qed.

Lemma calculateSequence_ignores_tail_witness :
  exists phrase,
    Mnemonic.words demo_wordlist (map Z.of_nat (List.seq 1 33)) = Ret phrase /\
    Mnemonic.calculateSequence demo_wordlist (phrase +:+ " " +:+ "bbbbbbbbbbb and more")
    = Ret (map Z.of_nat (List.seq 1 33)).
Proof.
  apply (calculateSequence_ignores_tail demo_wordlist (map Z.of_nat (List.seq 1 33))
           "bbbbbbbbbbb and more").
  - vm_compute. reflexivity.
  - apply distinctb_NoDup. vm_compute. reflexivity.
  - apply (bool_decide_unpack _). vm_compute. exact I.
  - vm_compute. reflexivity.
  - apply (bool_decide_unpack _). vm_compute. exact I.
Defined.

Lemma lookupWords_listed (wl ws : list string) :
  length wl = 2048%nat -> NoDup wl -> Forall (fun w => In w wl) ws ->
  exists gs,
    length gs = length ws /\
    Forall (fun c => binstr c /\ String.length c = 11%nat) gs /\
    map (Mnemonic.wordAt wl) (map (fun bs => Mnemonic.elevenBitsValue bs 1024 0) gs) = ws /\
    forall acc, Mnemonic.lookupWords wl ws acc = Ret (acc +:+ scat gs).
Proof.
  intros Hwl Hnd. induction 1 as [|w ws Hw _ (gs & Hlen & Hgs & Hmap & Hlook)].
  - exists []. split; [done|]. split; [done|]. split; [done|].
    intros acc. cbn. by rewrite str_app_nil_r.
  - apply list_elem_of_In, list_elem_of_lookup in Hw as [k Hk].
    pose proof (lookup_lt_Some _ _ _ Hk) as Hlt. rewrite Hwl in Hlt.
    destruct (translate11bit_loop_digits 11 11 (Z.of_nat k) EmptyString)
      as (g & Hg & Hgbin & Hg11 & Hgval0);
      [lia|change (2 ^ Z.of_nat 11) with 2048; lia|].
    change (Mnemonic.translate11bit (Z.of_nat k) = Ret g) in Hg.
    assert (Mnemonic.elevenBitsValue g 1024 0 = Z.of_nat k) as Hgval.
    { change 1024 with (2 ^ Z.of_nat 11 / 2). rewrite <- Hg11 at 1.
      rewrite elevenBitsValue_bval. lia. }
    exists (g :: gs). split; [cbn; by rewrite Hlen|]. split; [by constructor|]. split.
    + cbn [map]. rewrite Hmap, Hgval. unfold Mnemonic.wordAt.
      by rewrite Nat2Z.id, Hk.
    + intros acc. cbn [Mnemonic.lookupWords scat].
      rewrite (lookupWord_at wl 0 acc k w g); [|done..].
      cbn [obind]. rewrite Hlook. by rewrite str_app_assoc.
Qed.

(** X6.  From a phrase to its buffer and back: for 24 words of the list,
    joined by single blanks, [calculateSequence] gives a buffer of 33 bytes
    and [words] of that buffer is the phrase. *)
Theorem calculateSequence_words_roundtrip (wordlist ws : list string) :
  length wordlist = 2048%nat ->
  NoDup wordlist ->
  Forall (fun w => has_space w = false) wordlist ->
  length ws = 24%nat ->
  Forall (fun w => In w wordlist) ws ->
  exists buf,
    Mnemonic.calculateSequence wordlist (joinWords ws) = Ret buf /\
    length buf = 33%nat /\ Forall is_byte buf /\
    Mnemonic.words wordlist buf = Ret (joinWords ws).
Proof.
  intros Hwl Hnd Hsp Hlen Hin.
  destruct (lookupWords_listed wordlist ws Hwl Hnd Hin) as (gs & Hgl & Hgs & Hmap & Hlook).
  rewrite Hlen in Hgl.
  assert (Forall (fun c => String.length c = 11%nat) gs) as Hg11
    by (eapply Forall_impl; [exact Hgs|]; by intros c [_ ?]).
  set (bits := scat gs).
  assert (String.length bits = 264%nat) as Hbits
    by (unfold bits; rewrite (scat_length 11) by done; by rewrite Hgl).
  assert (binstr bits) as Hbin.
  { apply binstr_scat. eapply Forall_impl; [exact Hgs|]. by intros c [? _]. }
  set (cs := map (fun i => str_take 8 (str_drop (8 * i) bits)) (List.seq 0 33)).
  assert (Forall (fun c => binstr c /\ String.length c = 8%nat) cs) as Hcs
    by (apply chunks_wf; [done|by rewrite Hbits]).
  assert (scat cs = bits) as Hcat by (apply chunks_scat; by rewrite Hbits).
  assert (length cs = 33%nat) as Hcl by (unfold cs; by rewrite length_map, length_seq).
  exists (map bval cs).
  assert (Forall is_byte (map bval cs)) as Hbytes.
  { apply Forall_map. eapply Forall_impl; [exact Hcs|]. intros c [Hc Hc8]. cbn.
    by destruct (convertByteToBinString_bval c Hc Hc8). }
  split; [|split; [by rewrite length_map|split; [done|]]].
  - unfold Mnemonic.calculateSequence.
    rewrite js_split_space_joinWords.
    + rewrite Hlook. cbn [obind String.append]. fold bits.
      change (Mnemonic.NUM_BYTES + 1)%nat with 33%nat.
      pose proof (fillBytes_chunks cs EmptyString [] (Mnemonic.alloc 33) Hcs) as Hfill.
      rewrite Hcl, Hcat, str_app_nil_r in Hfill. cbn [length app] in Hfill.
      apply Hfill. unfold Mnemonic.alloc. by rewrite repeat_length.
    + intros E. rewrite E in Hlen. discriminate.
    + eapply Forall_impl; [exact Hin|]. intros w Hw. by eapply wordlist_nospace_elem.
  - unfold Mnemonic.words, Mnemonic.split.
    rewrite bitStringOf_scat, map_convert_bval, Hcat by done.
    rewrite match11_groups by done. cbn [obind].
    pose proof (scat_groups 11 gs Hg11) as Hgroups. rewrite Hgl in Hgroups. fold bits in Hgroups.
    rewrite Hgroups.
    rewrite (fold_left_append (fun v => " " +:+ Mnemonic.wordAt wordlist v)).
    unfold joinWords. rewrite <- Hmap. by rewrite !map_map.
Qed.

Lemma calculateSequence_words_roundtrip_witness :
  exists buf,
    Mnemonic.calculateSequence demo_wordlist (joinWords (map demo_word (List.seq 100 24)))
    = Ret buf /\
    length buf = 33%nat /\ Forall is_byte buf /\
    Mnemonic.words demo_wordlist buf = Ret (joinWords (map demo_word (List.seq 100 24))).
Proof.
  apply (calculateSequence_words_roundtrip demo_wordlist (map demo_word (List.seq 100 24))).
  - vm_compute. reflexivity.
  - apply distinctb_NoDup. vm_compute. reflexivity.
  - apply (bool_decide_unpack _). vm_compute. exact I.
  - vm_compute. reflexivity.
  - apply Forall_forall. intros w Hw. apply list_elem_of_In.
    revert w Hw. apply Forall_forall. apply (bool_decide_unpack _). vm_compute. exact I.
Defined.

(** ** The checksum byte *)

(** X7.  [isValid] reads byte 32 and nothing behind it: on a buffer of 32
    bytes or fewer it raises a RangeError; and when byte 32 of a longer buffer
    is overwritten with [v], the buffer is valid exactly when [v] is the
    checksum that [calcChecksum] gave before the write. *)
Theorem isValid_checksum_byte (sha256 : string -> list Z) (buf : list Z) :
  ((length buf <= 32)%nat -> Mnemonic.isValid sha256 buf = Throw RangeError) /\
  (forall v, (32 < length buf)%nat ->
     Mnemonic.isValid sha256 (<[32%nat := v]> buf)
     = Ret (bool_decide (Mnemonic.calcChecksum sha256 buf = Some v))).
Proof.
  split.
  - intros Hlen. unfold Mnemonic.isValid, Mnemonic.readUInt8.
    by rewrite lookup_ge_None_2.
  - intros v Hlen. unfold Mnemonic.isValid, Mnemonic.readUInt8, Mnemonic.calcChecksum.
    rewrite seqHex_insert by lia.
    rewrite list_lookup_insert_eq by (unfold Mnemonic.NUM_BYTES; lia). reflexivity.
Qed.

Lemma isValid_checksum_byte_witness :
  Mnemonic.isValid demo_digest (repeat 7 32) = Throw RangeError /\
  Mnemonic.isValid demo_digest (<[32%nat := 9]> (repeat 7 33))
  = Ret (bool_decide (Mnemonic.calcChecksum demo_digest (repeat 7 33) = Some 9)).
Proof.
  split.
  - apply (proj1 (isValid_checksum_byte demo_digest (repeat 7 32))). cbn. lia.
  - apply (proj2 (isValid_checksum_byte demo_digest (repeat 7 33)) 9). cbn. lia.
Defined.

Lemma constructor_value (sha256 : string -> list Z) (entropy : list Z) (b : Z) (rest : list Z) :
  sha256 (Mnemonic.seqHex entropy) = b :: rest -> is_byte b -> length entropy = 33%nat ->
  Mnemonic.constructor sha256 entropy = Ret (<[32%nat := b]> entropy) /\
  Mnemonic.isValid sha256 (<[32%nat := b]> entropy) = Ret true.
Proof.
  intros Hd Hb Hlen.
  assert (Mnemonic.calcChecksum sha256 entropy = Some b) as Hsum
    by (unfold Mnemonic.calcChecksum; by rewrite Hd).
  split.
  - unfold Mnemonic.constructor, Mnemonic.writeUInt8. rewrite Hsum, Hlen.
    cbn [from_option]. unfold id, is_byte in *.
    destruct (Z.ltb_spec b 0); [lia|]. destruct (Z.ltb_spec 255 b); [lia|]. reflexivity.
  - transitivity (Ret (bool_decide (Mnemonic.calcChecksum sha256 entropy = Some b)));
      [|by rewrite bool_decide_eq_true_2].
    unfold Mnemonic.isValid, Mnemonic.readUInt8, Mnemonic.calcChecksum.
    rewrite seqHex_insert by lia.
    rewrite list_lookup_insert_eq by (unfold Mnemonic.NUM_BYTES; lia). reflexivity.
Qed.

(** X8.  [generateMnemonic] gives a phrase of 24 words of the list, and the
    buffer that [calculateSequence] reads from it passes [isValid] and
    carries the 32 random bytes. *)
Theorem generateMnemonic_valid (wordlist : list string) (sha256 : string -> list Z)
    (entropy : list Z) :
  length wordlist = 2048%nat ->
  NoDup wordlist ->
  Forall (fun w => has_space w = false) wordlist ->
  (forall s, exists b rest, sha256 s = b :: rest /\ is_byte b) ->
  length entropy = 33%nat ->
  Forall is_byte entropy ->
  exists phrase buf,
    UtilsMore.generateMnemonic wordlist sha256 entropy = Ret phrase /\
    length (js_split_space phrase) = 24%nat /\
    Forall (fun w => In w wordlist) (js_split_space phrase) /\
    Mnemonic.calculateSequence wordlist phrase = Ret buf /\
    take 32 buf = take 32 entropy /\
    Mnemonic.isValid sha256 buf = Ret true.
Proof.
  intros Hwl Hnd Hsp Hsha Hlen Hbytes.
  destruct (Hsha (Mnemonic.seqHex entropy)) as (b & rest & Hd & Hb).
  destruct (constructor_value sha256 entropy b rest Hd Hb Hlen) as [Hnew Hvalid].
  set (buf := <[32%nat := b]> entropy) in *.
  assert (length buf = 33%nat) as Hbl by (unfold buf; by rewrite length_insert).
  assert (Forall is_byte buf) as Hbb by (unfold buf; by apply Forall_insert).
  destruct (words_phrase wordlist buf Hwl Hnd Hsp Hbl) as (ws & Hwords & Hws & Hin & Hsplit & Hlook).
  exists (joinWords ws), buf.
  split; [unfold UtilsMore.generateMnemonic; by rewrite Hnew; cbn [obind]; rewrite Hwords|].
  rewrite Hsplit. split; [done|]. split; [done|]. split; [|split; [|done]].
  - unfold Mnemonic.calculateSequence. rewrite Hsplit, Hlook. cbn [obind String.append].
    rewrite bitStringOf_scat. change (Mnemonic.NUM_BYTES + 1)%nat with 33%nat.
    rewrite <- Hbl at 1.
    apply (fillBytes_bytes buf [] (Mnemonic.alloc 33)); [done|].
    unfold Mnemonic.alloc. by rewrite repeat_length.
  - unfold buf. by rewrite take_insert_ge.
Qed.

Lemma generateMnemonic_valid_witness :
  exists phrase buf,
    UtilsMore.generateMnemonic demo_wordlist demo_digest (map Z.of_nat (List.seq 1 33))
    = Ret phrase /\
    length (js_split_space phrase) = 24%nat /\
    Forall (fun w => In w demo_wordlist) (js_split_space phrase) /\
    Mnemonic.calculateSequence demo_wordlist phrase = Ret buf /\
    take 32 buf = take 32 (map Z.of_nat (List.seq 1 33)) /\
    Mnemonic.isValid demo_digest buf = Ret true.
Proof.
  apply (generateMnemonic_valid demo_wordlist demo_digest (map Z.of_nat (List.seq 1 33))).
  - vm_compute. reflexivity.
  - apply distinctb_NoDup. vm_compute. reflexivity.
  - apply (bool_decide_unpack _). vm_compute. exact I.
  - intros s. exists (Z.of_nat (String.length s) mod 256).
    exists (repeat (Z.of_nat (String.length s) mod 256) 31).
    split; [reflexivity|]. unfold is_byte. apply Z.mod_pos_bound. lia.
  - vm_compute. reflexivity.
  - apply (bool_decide_unpack _). vm_compute. exact I.
Defined.

(** ** [checkAddresses] *)

Lemma checkAddresses_fold {V : Type} (keys : list string) (blockMap temp : gmap string V)
    (k : string) :
  fold_left
    (fun temp i => match blockMap !! i with Some v => <[i := v]> temp | None => temp end)
    keys temp !! k
  = if decide (k ∈ keys)
    then match blockMap !! k with Some v => Some v | None => temp !! k end
    else temp !! k.
Proof.
  revert temp. induction keys as [|i keys IH]; intros temp; [reflexivity|].
  cbn [fold_left]. rewrite IH.
  destruct (decide (k ∈ keys)) as [Hin|Hnin].
  - rewrite decide_True by (by right).
    destruct (blockMap !! k) as [v|] eqn:Hk; [reflexivity|].
    destruct (blockMap !! i) as [vi|] eqn:Hi; [|reflexivity].
    rewrite lookup_insert_ne; [reflexivity|]. intros ->. congruence.
  - destruct (decide (k = i)) as [->|Hne].
    + rewrite decide_True by (by left).
      destruct (blockMap !! i) as [vi|]; [by rewrite lookup_insert_eq|reflexivity].
    + rewrite decide_False by (intros [?|?]%elem_of_cons; done).
      destruct (blockMap !! i) as [vi|]; [by rewrite lookup_insert_ne|reflexivity].
Qed.

(** X9.  [checkAddresses] gives the part of [blockMap] that lies on the keys
    of [minerMap]: a key of [minerMap] has the value that [blockMap] has
    for it, if any, and no other key has a value. *)
Theorem checkAddresses_lookup {V : Type} (keys : list string) (blockMap : gmap string V)
    (k : string) :
  UtilsMore.checkAddresses keys blockMap !! k
  = if decide (k ∈ keys) then blockMap !! k else None.
Proof.
  unfold UtilsMore.checkAddresses. rewrite checkAddresses_fold.
  destruct (decide (k ∈ keys)); [|apply lookup_empty].
  destruct (blockMap !! k); [reflexivity|apply lookup_empty].
Qed.

(** ** The ledger view, step by step *)

Section LedgerSteps.
Context {Block : Type} `{BlockContract Block} `{Crypto} `{Chain}.

Lemma walkBack_result (fuel : nat) (m : gmap string Block) (height : Z) (block c : Block) :
  walkBack fuel m height block = Ret c ->
  chainLength c <= height /\ rtc (parent_in m) block c.
Proof.
  revert block. induction fuel as [|fuel IH]; intros block; cbn [walkBack];
    destruct (Z.ltb_spec height (chainLength block)) as [Hgo|Hstop]; try discriminate.
  - intros [= <-]. split; [lia|apply rtc_refl].
  - destruct (m !! prevBlockHash block) as [parent|] eqn:Hp; [|discriminate].
    intros Hwalk. destruct (IH parent Hwalk) as [Hlen Hrtc].
    split; [done|]. by eapply rtc_l.
  - intros [= <-]. split; [lia|apply rtc_refl].
Qed.

Lemma setLastConfirmed_cases (fuel : nat) (st st' : Client) :
  state_after (setLastConfirmed fuel st) = Some st' ->
  st' = st \/
  exists head c,
    lastBlock st = Some head /\
    walkBack fuel (blocks st)
      (if chainLength head - CONFIRMED_DEPTH <? 0 then 0
       else chainLength head - CONFIRMED_DEPTH) head = Ret c /\
    st' = set_pendingOutgoingTransactions
            (filter (fun '(_, tx) => contains c tx = false) (pendingOutgoingTransactions st))
            (set_lastConfirmedBlock (Some c) st).
Proof.
  unfold setLastConfirmed. destruct (lastBlock st) as [head|] eqn:Hhead.
  - destruct (walkBack fuel (blocks st) _ head) as [c | e |] eqn:Hwalk;
      cbn [state_after]; intros [= <-]; [|by left].
    right. by exists head, c.
  - cbn [state_after]. intros [= <-]. by left.
Qed.

Lemma forEachBlock_steps (f : Block -> Client -> result (option Block)) (l : list Block) :
  (forall b st st', state_after (f b st) = Some st' -> rtc ledger_step st st') ->
  forall st st', state_after (forEachBlock f l st) = Some st' -> rtc ledger_step st st'.
Proof.
  intros Hf. induction l as [|b l IH]; intros st st'; cbn [forEachBlock].
  - cbn [state_after]. intros [= <-]. apply rtc_refl.
  - destruct (f b st) as [v st1 | e st1 |] eqn:Hfb; cbn [rbind state_after].
    + intros Hrest. etrans; [apply (Hf b); by rewrite Hfb|by apply IH].
    + intros [= <-]. apply (Hf b). by rewrite Hfb.
    + discriminate.
Qed.

Lemma receiveBlock_store_tail (f : Block -> Client -> result (option Block))
    (fuel : nat) (block : Block) (st st' : Client) :
  (forall b st st', state_after (f b st) = Some st' -> rtc ledger_step st st') ->
  state_after (receiveBlock_store f fuel block st) = Some st' ->
  rtc ledger_step (set_blocks (<[block_id block := block]> (blocks st)) st) st'.
Proof.
  intros Hf. unfold receiveBlock_store.
  set (st_a := set_blocks (<[block_id block := block]> (blocks st)) st).
  intros Hres.
  assert (forall st_b,
            state_after
              (rbind (forEachBlock f (default [] (pendingBlocks st_b !! block_id block))
                        (set_pendingBlocks (delete (block_id block) (pendingBlocks st_b)) st_b))
                 (fun _ st => Done (Some block) st)) = Some st' ->
            rtc ledger_step st_b st') as Hdrain.
  { intros st_b. destruct (forEachBlock f _ _) as [v st_c | e st_c |] eqn:Hfe;
      cbn [rbind state_after]; [| |discriminate]; intros [= <-];
      (eapply rtc_l; [apply (step_drain (block_id block))|]);
      (eapply forEachBlock_steps; [exact Hf|]); by rewrite Hfe. }
  destruct (lastBlock st_a) as [last|] eqn:Hlast.
  - destruct (chainLength last <? chainLength block) eqn:Hlt.
    + assert (ledger_step st_a (set_lastBlock (Some block) st_a)) as Hhead.
      { apply (step_head block last); [done|by apply Z.ltb_lt|].
        cbn. by rewrite lookup_insert_eq. }
      eapply rtc_l; [exact Hhead|].
      destruct (setLastConfirmed fuel (set_lastBlock (Some block) st_a))
        as [v st_b | e st_b |] eqn:Hslc; cbn [rbind state_after] in Hres.
      * eapply rtc_l; [apply (step_confirm fuel); by rewrite Hslc|]. by apply Hdrain.
      * injection Hres as <-. apply rtc_once, (step_confirm fuel). by rewrite Hslc.
      * discriminate.
    + cbn [rbind] in Hres. by apply Hdrain.
  - cbn [rbind state_after] in Hres. injection Hres as <-. apply rtc_refl.
Qed.

Lemma receiveBlock_store_steps (f : Block -> Client -> result (option Block))
    (fuel : nat) (block : Block) (st st' : Client) :
  (forall b st st', state_after (f b st) = Some st' -> rtc ledger_step st st') ->
  blocks st !! block_id block = None ->
  isGenesisBlock block = true \/
  (hasValidProof block = true /\
   exists p, blocks st !! prevBlockHash block = Some p /\ rerun block p = true) ->
  state_after (receiveBlock_store f fuel block st) = Some st' ->
  rtc ledger_step st st'.
Proof.
  intros Hf Hnew Hchecked Hres.
  eapply rtc_l; [by apply (step_store block)|]. by eapply receiveBlock_store_tail.
Qed.

(** Every delivery is a sequence of the changes of [ledger_step]. *)
Lemma receiveBlock_steps (fuel : nat) (block : Block) (st st' : Client) :
  state_after (receiveBlock fuel block st) = Some st' -> rtc ledger_step st st'.
Proof.
  revert block st st'. induction fuel as [|fuel IH]; intros block st st'; [discriminate|].
  cbn [receiveBlock].
  destruct (decide (is_Some (blocks st !! block_id block))) as [Hin|Hnin].
  { cbn [state_after]. intros [= <-]. apply rtc_refl. }
  assert (blocks st !! block_id block = None) as Hnew
    by (destruct (blocks st !! block_id block) eqn:E; [exfalso; eauto|done]).
  destruct (hasValidProof block) eqn:Hproof; destruct (isGenesisBlock block) eqn:Hgen;
    cbn [negb andb];
    destruct (blocks st !! prevBlockHash block) as [prevBlock|] eqn:Hprev;
    try (cbn [state_after]; intros [= <-]; apply rtc_refl);
    try (apply receiveBlock_store_steps; [exact IH|exact Hnew|by left]).
  - destruct (rerun block prevBlock) eqn:Hrun; cbn [negb].
    + apply receiveBlock_store_steps; [exact IH|exact Hnew|]. right. eauto.
    + cbn [state_after]. intros [= <-]. apply rtc_refl.
  - destruct (pendingBlocks st !! prevBlockHash block) as [stuckBlocks|] eqn:Hstuck;
      cbn [state_after]; intros [= <-].
    + apply rtc_once.
      pose proof (step_queue block st) as Hq. by rewrite Hstuck in Hq.
    + eapply rtc_l; [apply (step_request block)|]. apply rtc_once.
      pose proof (step_queue block (requestMissingBlock block st)) as Hq.
      cbn [pendingBlocks requestMissingBlock broadcast] in Hq. rewrite Hstuck in Hq.
      exact Hq.
Qed.

Lemma ledger_step_ok (st st' : Client) : ledger_ok st -> ledger_step st st' -> ledger_ok st'.
Proof.
  intros [Hkeys Hchecked Hhead Hconf Hpend] Hstep.
  destruct Hstep as [block st | block st | block st Hnew Hck | block last st Hlast Hlt Hin
                    | fuel st st' Hslc | k st].
  - by constructor.
  - constructor; try done. cbn. intros k l b Hl Hb.
    destruct (decide (k = prevBlockHash block)) as [->|Hne].
    + rewrite lookup_insert_eq in Hl. injection Hl as <-.
      unfold set_add in Hb. destruct (decide (block ∈ _)).
      * destruct (pendingBlocks st !! prevBlockHash block) as [l0|] eqn:E; cbn in Hb.
        -- by eapply Hpend.
        -- by apply not_elem_of_nil in Hb.
      * apply elem_of_app in Hb as [Hb|Hb].
        -- destruct (pendingBlocks st !! prevBlockHash block) as [l0|] eqn:E; cbn in Hb.
           ++ by eapply Hpend.
           ++ by apply not_elem_of_nil in Hb.
        -- apply list_elem_of_singleton in Hb. by subst.
    + rewrite lookup_insert_ne in Hl by done. by eapply Hpend.
  - assert (forall k b, blocks st !! k = Some b ->
                        <[block_id block := block]> (blocks st) !! k = Some b) as Hold.
    { intros k b Hb. rewrite lookup_insert_ne; [done|]. intros <-. congruence. }
    constructor; cbn.
    + intros k b. destruct (decide (block_id block = k)) as [<-|Hne].
      * rewrite lookup_insert_eq. by intros [= <-].
      * rewrite lookup_insert_ne by done. apply Hkeys.
    + intros k b. destruct (decide (block_id block = k)) as [<-|Hne].
      * rewrite lookup_insert_eq. intros [= <-].
        destruct Hck as [?|(Hp & p & Hpar & Hrun)]; [by left|].
        right. split; [done|]. exists p. split; [by apply Hold|done].
      * rewrite lookup_insert_ne by done. intros Hb.
        destruct (Hchecked k b Hb) as [?|(Hp & p & Hpar & Hrun)]; [by left|].
        right. split; [done|]. exists p. split; [by apply Hold|done].
    + intros h Hh. apply Hold. by apply Hhead.
    + intros c Hc. apply Hold. by apply Hconf.
    + exact Hpend.
  - constructor; try done. cbn. by intros h [= <-].
  - destruct (setLastConfirmed_cases fuel st st' Hslc) as [->|(head & c & Hh & Hwalk & ->)];
      [by constructor|].
    constructor; try done. cbn. intros c' [= <-].
    destruct (walkBack_result _ _ _ _ _ Hwalk) as [_ Hrtc].
    destruct (rtc_inv_r _ _ Hrtc) as [->|(y & _ & Hpar)]; [by apply Hhead|].
    unfold parent_in in Hpar. by rewrite <- (Hkeys _ _ Hpar) in Hpar.
  - constructor; try done. cbn. intros k' l b Hl Hb.
    apply lookup_delete_Some in Hl as [_ Hl]. by eapply Hpend.
Qed.

(** X10.  [receiveBlock] keeps the ledger sound, whether it returns or
    raises: a block is stored under its own id; a stored block is a genesis
    block or has a valid proof and replays on its stored parent; the head and
    the confirmed head are stored blocks; a waiting block is filed under the
    hash of its parent. *)
Theorem receiveBlock_ledger_ok (fuel : nat) (block : Block) (st st' : Client) :
  ledger_ok st ->
  state_after (receiveBlock fuel block st) = Some st' ->
  ledger_ok st'.
Proof.
  intros Hok Hres. apply receiveBlock_steps in Hres.
  induction Hres as [st|st st1 st' Hstep _ IH]; [done|].
  apply IH. by eapply ledger_step_ok.
Qed.

Lemma ledger_step_keeps (st st' : Client) :
  ledger_step st st' ->
  blocks st ⊆ blocks st' /\
  wallet st' = wallet st /\ prng st' = prng st /\
  c_address st' = c_address st /\ c_keyPair st' = c_keyPair st /\
  pendingOutgoingTransactions st' ⊆ pendingOutgoingTransactions st /\
  exists more, net st' = net st ++ more.
Proof.
  intros Hstep.
  destruct Hstep as [block st | block st | block st Hnew Hck | block last st Hlast Hlt Hin
                    | fuel st st' Hslc | k st]; cbn.
  - repeat split; try done. by eexists.
  - repeat split; try done. exists []. by rewrite app_nil_r.
  - repeat split; try done; [by apply insert_subseteq|]. exists []. by rewrite app_nil_r.
  - repeat split; try done. exists []. by rewrite app_nil_r.
  - destruct (setLastConfirmed_cases fuel st st' Hslc) as [->|(head & c & Hh & Hwalk & ->)];
      cbn.
    + repeat split; try done. exists []. by rewrite app_nil_r.
    + repeat split; try done; [apply map_filter_subseteq|]. exists []. by rewrite app_nil_r.
  - repeat split; try done. exists []. by rewrite app_nil_r.
Qed.

(** X11.  A delivery never takes a block out of [blocks] and never replaces
    one; it leaves the wallet, the key stream and the address alone; it adds
    no pending transaction; and it only appends to what was handed to the
    network. *)
Theorem receiveBlock_keeps (fuel : nat) (block : Block) (st st' : Client) :
  state_after (receiveBlock fuel block st) = Some st' ->
  blocks st ⊆ blocks st' /\
  wallet st' = wallet st /\ prng st' = prng st /\
  c_address st' = c_address st /\ c_keyPair st' = c_keyPair st /\
  pendingOutgoingTransactions st' ⊆ pendingOutgoingTransactions st /\
  exists more, net st' = net st ++ more.
Proof.
  intros Hres. apply receiveBlock_steps in Hres.
  induction Hres as [st|st st1 st' Hstep _ IH].
  - repeat split; try done. exists []. by rewrite app_nil_r.
  - destruct (ledger_step_keeps st st1 Hstep) as (Hb & Hw & Hp & Ha & Hk & Ht & more & Hn).
    destruct IH as (Hb' & Hw' & Hp' & Ha' & Hk' & Ht' & more' & Hn').
    split; [by etrans|]. repeat split; try congruence; [by etrans|].
    exists (more ++ more'). by rewrite Hn', Hn, app_assoc.
Qed.

End LedgerSteps.

Section LedgerScenarios.
Context {Block : Type} `{BlockContract Block} `{Crypto} `{Chain}.


Lemma receiveBlock_store_not_null (f : Block -> Client -> result (option Block))
    (fuel : nat) (block : Block) (st st' : Client) :
  receiveBlock_store f fuel block st <> Done None st'.
Proof.
  unfold receiveBlock_store.
  set (st_a := set_blocks (<[block_id block := block]> (blocks st)) st).
  assert (forall st_b,
            rbind (forEachBlock f (default [] (pendingBlocks st_b !! block_id block))
                     (set_pendingBlocks (delete (block_id block) (pendingBlocks st_b)) st_b))
              (fun _ st => Done (Some block) st) <> Done None st') as Hdrain
    by (intros st_b; by destruct (forEachBlock f _ _)).
  destruct (lastBlock st_a) as [last|]; [|done].
  destruct (chainLength last <? chainLength block); [|apply Hdrain].
  destruct (setLastConfirmed fuel (set_lastBlock (Some block) st_a)); cbn [rbind];
    [apply Hdrain|done..].
Qed.

(** X13.  When [receiveBlock] answers [null], the block was known, failed
    a check or was put aside to wait: the blocks, the head, the confirmed
    head, the wallet and the pending transactions are as before. *)
Theorem receiveBlock_null_keeps (fuel : nat) (block : Block) (st st' : Client) :
  receiveBlock fuel block st = Done None st' ->
  blocks st' = blocks st /\ lastBlock st' = lastBlock st /\
  lastConfirmedBlock st' = lastConfirmedBlock st /\
  wallet st' = wallet st /\
  pendingOutgoingTransactions st' = pendingOutgoingTransactions st.
Proof.
  destruct fuel as [|fuel]; [discriminate|]. cbn [receiveBlock].
  destruct (decide (is_Some (blocks st !! block_id block))); [by intros [= <-]|].
  destruct (negb (hasValidProof block) && negb (isGenesisBlock block));
    [by intros [= <-]|].
  destruct (blocks st !! prevBlockHash block) as [prevBlock|];
    destruct (isGenesisBlock block); cbn [negb];
    try (intros Hres; by apply receiveBlock_store_not_null in Hres).
  - destruct (rerun block prevBlock); cbn [negb]; [|by intros [= <-]].
    intros Hres. by apply receiveBlock_store_not_null in Hres.
  - destruct (pendingBlocks st !! prevBlockHash block); by intros [= <-].
Qed.

Lemma set_add_nil (block : Block) : set_add block [] = [block].
Proof. unfold set_add. by rewrite decide_False by apply not_elem_of_nil. Qed.

(** X14.  Two blocks that wait for the same unknown parent: the first
    delivery asks the network for the parent, the second does not ask
    again, and both wait under the hash of the parent in the order of
    arrival; blocks and head are untouched. *)
Theorem receiveBlock_requests_parent_once (b1 b2 : Block) (st : Client) (n m : nat) :
  b1 <> b2 ->
  prevBlockHash b2 = prevBlockHash b1 ->
  blocks st !! prevBlockHash b1 = None ->
  blocks st !! block_id b1 = None -> blocks st !! block_id b2 = None ->
  hasValidProof b1 = true -> hasValidProof b2 = true ->
  isGenesisBlock b1 = false -> isGenesisBlock b2 = false ->
  pendingBlocks st !! prevBlockHash b1 = None ->
  exists st1 st2,
    receiveBlock (S n) b1 st = Done None st1 /\
    receiveBlock (S m) b2 st1 = Done None st2 /\
    net st1 = net st ++ [MissingBlock (c_address st) (prevBlockHash b1)] /\
    net st2 = net st1 /\
    pendingBlocks st2 !! prevBlockHash b1 = Some [b1; b2] /\
    blocks st2 = blocks st /\ lastBlock st2 = lastBlock st.
Proof.
  intros Hne Hprev Hpar Hn1 Hn2 Hp1 Hp2 Hg1 Hg2 Hwait.
  eexists _, _. split; [|split].
  - cbn [receiveBlock]. rewrite decide_False by (rewrite Hn1; by intros [? ?]).
    rewrite Hp1, Hg1, Hpar, Hwait. cbn [negb andb]. reflexivity.
  - cbn [receiveBlock]. cbn [blocks set_pendingBlocks requestMissingBlock broadcast pendingBlocks].
    rewrite decide_False by (rewrite Hn2; by intros [? ?]).
    rewrite Hp2, Hg2, Hprev, Hpar, lookup_insert_eq. cbn [negb andb]. reflexivity.
  - cbn. split; [reflexivity|]. split; [reflexivity|]. split; [|done].
    rewrite lookup_insert_eq. rewrite set_add_nil.
    unfold set_add. rewrite decide_False; [reflexivity|].
    intros Hin%list_elem_of_singleton. congruence.
Qed.

(** The delivery of a sound block on a known parent, up to the blocks that
    waited for it. *)
Lemma receiveBlock_store_run (f : Block -> Client -> result (option Block)) (fuel : nat)
    (block parent head : Block) (st : Client) :
  blocks st !! block_id block = None ->
  blocks st !! prevBlockHash block = Some parent ->
  lastBlock st = Some head ->
  anchored (blocks st) parent ->
  (Z.to_nat (chainLength parent) + 1 <= fuel)%nat ->
  exists st_c,
    receiveBlock_store f fuel block st
    = rbind (forEachBlock f (default [] (pendingBlocks st !! block_id block)) st_c)
        (fun _ st => Done (Some block) st) /\
    blocks st_c = <[block_id block := block]> (blocks st) /\
    lastBlock st_c = Some (if chainLength head <? chainLength block then block else head) /\
    pendingBlocks st_c = delete (block_id block) (pendingBlocks st) /\
    net st_c = net st.
Proof.
  intros Hnew Hparent Hhead Hanch Hfuel.
  unfold receiveBlock_store. cbn [lastBlock set_blocks]. rewrite Hhead.
  destruct (chainLength head <? chainLength block) eqn:Hlt.
  - unfold setLastConfirmed. cbn [lastBlock set_lastBlock blocks set_blocks].
    set (height := if chainLength block - CONFIRMED_DEPTH <? 0
                   then 0 else chainLength block - CONFIRMED_DEPTH).
    assert (0 <= height) as Hheight
      by (unfold height; destruct (Z.ltb_spec (chainLength block - CONFIRMED_DEPTH) 0); lia).
    set (m := <[block_id block := block]> (blocks st)).
    assert (anchored m parent) as Hanch'
      by (eapply anchored_mono; [by apply insert_subseteq|done]).
    assert (exists confirmed, walkBack fuel m height block = Ret confirmed) as [confirmed Hwalk].
    { destruct (Z.ltb_spec height (chainLength block)) as [Hgo|Hstop].
      - destruct fuel as [|fuel']; [lia|]. cbn [walkBack].
        destruct (Z.ltb_spec height (chainLength block)); [|lia].
        assert (m !! prevBlockHash block = Some parent) as ->
          by (eapply lookup_weaken; [exact Hparent|by apply insert_subseteq]).
        apply walkBack_anchored; [done..|lia].
      - exists block. destruct fuel; cbn [walkBack];
          destruct (Z.ltb_spec height (chainLength block)); (lia || reflexivity). }
    rewrite Hwalk. cbn [rbind].
    cbn [pendingBlocks set_pendingOutgoingTransactions set_lastConfirmedBlock
           set_lastBlock set_blocks].
    eexists. split; [reflexivity|]. by cbn.
  - cbn [rbind pendingBlocks set_blocks]. eexists. split; [reflexivity|]. by cbn.
Qed.

Lemma receiveBlock_on_parent_net (fuel : nat) (block parent head : Block) (st : Client) :
  blocks st !! block_id block = None ->
  hasValidProof block = true ->
  isGenesisBlock block = false ->
  blocks st !! prevBlockHash block = Some parent ->
  rerun block parent = true ->
  lastBlock st = Some head ->
  pendingBlocks st !! block_id block = None ->
  anchored (blocks st) parent ->
  (Z.to_nat (chainLength parent) + 2 <= fuel)%nat ->
  exists st',
    receiveBlock fuel block st = Done (Some block) st' /\
    lastBlock st' = Some (if chainLength head <? chainLength block then block else head) /\
    blocks st' = <[block_id block := block]> (blocks st) /\
    pendingBlocks st' = pendingBlocks st /\
    net st' = net st.
Proof.
  intros Hnew Hproof Hgen Hparent Hrun Hhead Hwait Hanch Hfuel.
  destruct fuel as [|fuel]; [lia|].
  destruct (receiveBlock_store_run (receiveBlock fuel) fuel block parent head st)
    as (st_c & Hstore & Hbc & Hhc & Hpc & Hnc); [done..|lia|].
  exists st_c. split.
  - cbn [receiveBlock]. rewrite decide_False by (rewrite Hnew; by intros [? ?]).
    rewrite Hproof, Hgen, Hparent, Hrun. cbn [negb andb].
    rewrite Hstore, Hwait. reflexivity.
  - rewrite Hpc, delete_id by done. auto.
Qed.

(** X15.  A child that arrives before its parent: it is put aside and the
    parent is asked for; when the parent arrives and is stored, the child
    is stored in the same call, nothing waits for the parent any more, and
    the head is the longest of the old head, the parent and the child, the
    earlier one on a tie. *)
Theorem receiveBlock_resolves_orphan (b1 b2 parent head : Block) (st : Client) (fuel : nat) :
  prevBlockHash b2 = block_id b1 ->
  blocks st !! prevBlockHash b1 = Some parent ->
  anchored (blocks st) parent ->
  chainLength parent < chainLength b1 ->
  lastBlock st = Some head ->
  block_id b1 <> block_id b2 ->
  blocks st !! block_id b1 = None -> blocks st !! block_id b2 = None ->
  isGenesisBlock b1 = false -> isGenesisBlock b2 = false ->
  hasValidProof b1 = true -> hasValidProof b2 = true ->
  rerun b1 parent = true -> rerun b2 b1 = true ->
  pendingBlocks st !! block_id b1 = None -> pendingBlocks st !! block_id b2 = None ->
  (Z.to_nat (chainLength b1) + 3 <= fuel)%nat ->
  exists st1 st2,
    receiveBlock fuel b2 st = Done None st1 /\
    pendingBlocks st1 !! block_id b1 = Some [b2] /\
    net st1 = net st ++ [MissingBlock (c_address st) (block_id b1)] /\
    receiveBlock fuel b1 st1 = Done (Some b1) st2 /\
    blocks st2 = <[block_id b2 := b2]> (<[block_id b1 := b1]> (blocks st)) /\
    pendingBlocks st2 !! block_id b1 = None /\
    net st2 = net st1 /\
    lastBlock st2
    = Some (let head1 := if chainLength head <? chainLength b1 then b1 else head in
            if chainLength head1 <? chainLength b2 then b2 else head1).
Proof.
  intros Hprev Hparent Hanch Hlt Hhead Hids Hn1 Hn2 Hg1 Hg2 Hp1 Hp2 Hr1 Hr2 Hw1 Hw2 Hfuel.
  destruct fuel as [|fuel]; [lia|].
  set (st1 := set_pendingBlocks (<[block_id b1 := [b2]]> (pendingBlocks st))
                (requestMissingBlock b2 st)).
  assert (receiveBlock (S fuel) b2 st = Done None st1) as R1.
  { cbn [receiveBlock]. rewrite decide_False by (rewrite Hn2; by intros [? ?]).
    rewrite Hp2, Hg2, Hprev, Hn1, Hw1. cbn [negb andb]. unfold st1.
    by rewrite set_add_nil. }
  assert (prevBlockHash b1 <> block_id b1) as Hpb1
    by (intros E; rewrite E in Hparent; congruence).
  destruct (receiveBlock_store_run (receiveBlock fuel) fuel b1 parent head st1)
    as (st_c & Hrun & Hbc & Hhc & Hpc & Hnc); [done..|lia|].
  cbn [pendingBlocks set_pendingBlocks st1] in Hrun, Hpc.
  rewrite lookup_insert_eq in Hrun. cbn [from_option forEachBlock] in Hrun.
  rewrite delete_insert_eq in Hpc.
  cbn [blocks set_pendingBlocks requestMissingBlock broadcast st1] in Hbc.
  destruct (receiveBlock_on_parent_net fuel b2 b1
              (if chainLength head <? chainLength b1 then b1 else head) st_c)
    as (st2 & R2 & Hh2 & Hb2 & Hp2' & Hn2');
    try done.
  - rewrite Hbc. by rewrite lookup_insert_ne.
  - rewrite Hbc, Hprev. by rewrite lookup_insert_eq.
  - rewrite Hpc. rewrite lookup_delete_ne by done. exact Hw2.
  - rewrite Hbc. apply (anchored_step _ b1 parent); [|done|].
    + by rewrite lookup_insert_ne.
    + eapply anchored_mono; [by apply insert_subseteq|done].
  - lia.
  - exists st1, st2. split; [done|]. split; [cbn; by rewrite lookup_insert_eq|].
    split; [cbn; by rewrite Hprev|]. split.
    + cbn [receiveBlock]. cbn [blocks set_pendingBlocks requestMissingBlock broadcast st1].
      rewrite decide_False by (rewrite Hn1; by intros [? ?]).
      rewrite Hp1, Hg1, Hparent, Hr1. cbn [negb andb].
      rewrite Hrun. unfold id. cbn [forEachBlock]. rewrite R2. reflexivity.
    + split; [by rewrite Hb2, Hbc|]. split; [rewrite Hp2', Hpc; apply lookup_delete_eq|].
      split; [by rewrite Hn2', Hnc|done].
Qed.

End LedgerScenarios.

Section LedgerAnswers.
Context {Block : Type} `{BlockContract Block} `{Crypto} `{Chain}.

Lemma ledger_steps_blocks (st st' : Client) :
  rtc ledger_step st st' -> blocks st ⊆ blocks st'.
Proof.
  induction 1 as [st|st st1 st' Hstep _ IH]; [done|].
  etrans; [|exact IH]. by destruct (ledger_step_keeps st st1 Hstep).
Qed.

Lemma receiveBlock_store_value (f : Block -> Client -> result (option Block))
    (fuel : nat) (block v : Block) (st st' : Client) :
  receiveBlock_store f fuel block st = Done (Some v) st' -> v = block.
Proof.
  unfold receiveBlock_store.
  set (st_a := set_blocks (<[block_id block := block]> (blocks st)) st).
  assert (forall st_b,
            rbind (forEachBlock f (default [] (pendingBlocks st_b !! block_id block))
                     (set_pendingBlocks (delete (block_id block) (pendingBlocks st_b)) st_b))
              (fun _ st => Done (Some block) st) = Done (Some v) st' -> v = block) as Hdrain.
  { intros st_b. destruct (forEachBlock f _ _); cbn [rbind]; [|done..]. by intros [= <- _]. }
  destruct (lastBlock st_a) as [last|]; [|done].
  destruct (chainLength last <? chainLength block); [|apply Hdrain].
  destruct (setLastConfirmed fuel (set_lastBlock (Some block) st_a)); cbn [rbind];
    [apply Hdrain|done..].
Qed.

Lemma receiveBlock_accepted (fuel : nat) (block v : Block) (st st' : Client) :
  receiveBlock fuel block st = Done (Some v) st' ->
  v = block /\ blocks st' !! block_id block = Some block.
Proof.
  destruct fuel as [|fuel]; [discriminate|]. cbn [receiveBlock].
  assert (receiveBlock_store (receiveBlock fuel) fuel block st = Done (Some v) st' ->
          v = block /\ blocks st' !! block_id block = Some block) as Hstore.
  { intros Hres. split; [by eapply receiveBlock_store_value|].
    assert (rtc ledger_step (set_blocks (<[block_id block := block]> (blocks st)) st) st')
      as Hsteps.
    { eapply receiveBlock_store_tail; [|by rewrite Hres].
      intros b s s'. apply receiveBlock_steps. }
    apply ledger_steps_blocks in Hsteps. eapply lookup_weaken; [|exact Hsteps].
    cbn. by rewrite lookup_insert_eq. }
  destruct (decide (is_Some (blocks st !! block_id block))); [discriminate|].
  destruct (negb (hasValidProof block) && negb (isGenesisBlock block)); [discriminate|].
  destruct (blocks st !! prevBlockHash block) as [prevBlock|];
    destruct (isGenesisBlock block); cbn [negb]; try exact Hstore.
  - destruct (rerun block prevBlock); cbn [negb]; [exact Hstore|discriminate].
  - destruct (pendingBlocks st !! prevBlockHash block); discriminate.
Qed.

(** X16.  What a client answers to a request for a missing block: nothing
    for an id it has not stored; the block itself for a block that
    [receiveBlock] has just returned; and for every block it has stored, the
    same block after any later delivery. *)
Theorem provideMissingBlock_answers (st : Client) (sender : option string) :
  (forall k, blocks st !! k = None -> provideMissingBlock sender k st = None) /\
  (forall fuel block v st',
      receiveBlock fuel block st = Done (Some v) st' ->
      v = block /\ provideMissingBlock sender (block_id block) st' = Some (sender, block)) /\
  (forall fuel block st' k stored,
      blocks st !! k = Some stored ->
      state_after (receiveBlock fuel block st) = Some st' ->
      provideMissingBlock sender k st' = Some (sender, stored)).
Proof.
  split; [|split].
  - intros k Hk. unfold provideMissingBlock. rewrite Hk.
    by rewrite decide_False by (by intros [? ?]).
  - intros fuel block v st' Hres.
    destruct (receiveBlock_accepted fuel block v st st' Hres) as [-> Hin].
    split; [done|]. unfold provideMissingBlock. rewrite Hin. by rewrite decide_True.
  - intros fuel block st' k stored Hk Hres.
    apply receiveBlock_steps, ledger_steps_blocks in Hres.
    unfold provideMissingBlock. rewrite (lookup_weaken _ _ _ _ Hk Hres).
    by rewrite decide_True.
Qed.

(** X17.  A client is not built without a mnemonic.  Built with a mnemonic
    and a genesis block, it holds the first address of its key stream, its
    ledger is sound with the genesis block as head and as confirmed head,
    the genesis block cannot be set again, and a delivery of the genesis
    block is ignored. *)
Theorem constructor_genesis :
  (forall startingBlock,
      constructor true None startingBlock = Throw (Error "mnemonic not set")) /\
  (forall mnemonic (genesis : Block),
      isGenesisBlock genesis = true ->
      exists st,
        constructor true (Some mnemonic) (Some genesis) = Ret st /\
        ledger_ok st /\
        wallet st = [slot_of 0] /\ c_address st = Some (slot_address (slot_of 0)) /\
        prng st = 1%nat /\
        lastBlock st = Some genesis /\ lastConfirmedBlock st = Some genesis /\
        blocks st = {[ block_id genesis := genesis ]} /\
        (forall other,
            setGenesisBlock other st
            = Raised (Error "Cannot set genesis block for existing blockchain.") st) /\
        (forall n, receiveBlock (S n) genesis st = Done None st)).
Proof.
  split; [reflexivity|].
  intros mnemonic genesis Hgen. eexists. split; [reflexivity|].
  split; [|split; [reflexivity|split; [reflexivity|split; [reflexivity|split;
    [reflexivity|split; [reflexivity|split; [reflexivity|split; [reflexivity|]]]]]]]].
  - constructor; cbn.
    + intros k b [<- <-]%lookup_singleton_Some. reflexivity.
    + intros k b [<- <-]%lookup_singleton_Some. by left.
    + intros h [= <-]. apply lookup_insert_eq.
    + intros c [= <-]. apply lookup_insert_eq.
    + intros k l b Hl. by rewrite lookup_empty in Hl.
  - intros n. apply receiveBlock_known. cbn. rewrite lookup_insert_eq. eauto.
Qed.

End LedgerAnswers.

(** ** The ledger theorems on the demonstration client *)

Lemma demo_client_ok : ledger_ok demo_client.
Proof.
  constructor; cbn.
  - intros k b [<- <-]%lookup_singleton_Some. reflexivity.
  - intros k b [<- <-]%lookup_singleton_Some. by left.
  - intros h [= <-]. reflexivity.
  - intros c [= <-]. reflexivity.
  - intros k l b Hl. by rewrite lookup_empty in Hl.
Qed.

Lemma receiveBlock_ledger_ok_witness :
  exists st',
    state_after (receiveBlock 5 demo_blockL demo_client) = Some st' /\ ledger_ok st'.
Proof.
  eexists. split; [vm_compute; reflexivity|].
  apply (receiveBlock_ledger_ok 5 demo_blockL demo_client).
  - constructor; cbn.
    + intros k b [<- <-]%lookup_singleton_Some. reflexivity.
    + intros k b [<- <-]%lookup_singleton_Some. by left.
    + intros h [= <-]. reflexivity.
    + intros c [= <-]. reflexivity.
    + intros k l b Hl. by rewrite lookup_empty in Hl.
  - vm_compute. reflexivity.
Defined.

Lemma receiveBlock_keeps_witness :
  exists st',
    state_after (receiveBlock 5 demo_orphan demo_client) = Some st' /\
    blocks demo_client ⊆ blocks st' /\
    wallet st' = wallet demo_client /\ prng st' = prng demo_client /\
    c_address st' = c_address demo_client /\ c_keyPair st' = c_keyPair demo_client /\
    pendingOutgoingTransactions st' ⊆ pendingOutgoingTransactions demo_client /\
    exists more, net st' = net demo_client ++ more.
Proof.
  eexists. split; [vm_compute; reflexivity|].
  apply (receiveBlock_keeps 5 demo_orphan demo_client). vm_compute. reflexivity.
Defined.


Lemma receiveBlock_null_keeps_witness :
  let st' :=
    set_pendingBlocks {[ "missing" := [demo_orphan] ]}
      (requestMissingBlock demo_orphan demo_client) in
  receiveBlock 5 demo_orphan demo_client = Done None st' /\
  blocks st' = blocks demo_client /\ lastBlock st' = lastBlock demo_client /\
  lastConfirmedBlock st' = lastConfirmedBlock demo_client /\
  wallet st' = wallet demo_client /\
  pendingOutgoingTransactions st' = pendingOutgoingTransactions demo_client.
Proof.
  cbn zeta.
  assert (receiveBlock 5 demo_orphan demo_client
          = Done None (set_pendingBlocks {[ "missing" := [demo_orphan] ]}
                         (requestMissingBlock demo_orphan demo_client))) as Hres
    by (vm_compute; reflexivity).
  split; [exact Hres|].
  exact (receiveBlock_null_keeps 5 demo_orphan demo_client _ Hres).
Defined.

Lemma receiveBlock_requests_parent_once_witness :
  exists st1 st2,
    receiveBlock 1 demo_orphan demo_client = Done None st1 /\
    receiveBlock 1 demo_orphan2 st1 = Done None st2 /\
    net st1 = net demo_client
              ++ [MissingBlock (c_address demo_client) (prevBlockHash demo_orphan)] /\
    net st2 = net st1 /\
    pendingBlocks st2 !! prevBlockHash demo_orphan = Some [demo_orphan; demo_orphan2] /\
    blocks st2 = blocks demo_client /\ lastBlock st2 = lastBlock demo_client.
Proof.
  apply (receiveBlock_requests_parent_once demo_orphan demo_orphan2 demo_client 0 0);
    try reflexivity.
  discriminate.
Defined.

Lemma receiveBlock_resolves_orphan_witness :
  exists st1 st2,
    receiveBlock 5 demo_child demo_client = Done None st1 /\
    pendingBlocks st1 !! block_id demo_blockL = Some [demo_child] /\
    net st1 = net demo_client
              ++ [MissingBlock (c_address demo_client) (block_id demo_blockL)] /\
    receiveBlock 5 demo_blockL st1 = Done (Some demo_blockL) st2 /\
    blocks st2 = <[block_id demo_child := demo_child]>
                   (<[block_id demo_blockL := demo_blockL]> (blocks demo_client)) /\
    pendingBlocks st2 !! block_id demo_blockL = None /\
    net st2 = net st1 /\
    lastBlock st2
    = Some (let head1 := if chainLength demo_genesis <? chainLength demo_blockL
                         then demo_blockL else demo_genesis in
            if chainLength head1 <? chainLength demo_child then demo_child else head1).
Proof.
  apply (receiveBlock_resolves_orphan demo_blockL demo_child demo_genesis demo_genesis
           demo_client 5); try reflexivity.
  - apply anchored_base. cbn. lia.
  - cbn. discriminate.
  - cbn. lia.
Defined.

Lemma provideMissingBlock_answers_witness :
  provideMissingBlock (Some "peer") "unknown" demo_client = None /\
  (exists st',
      receiveBlock 5 demo_blockL demo_client = Done (Some demo_blockL) st' /\
      provideMissingBlock (Some "peer") (block_id demo_blockL) st'
      = Some (Some "peer", demo_blockL)) /\
  (exists st',
      state_after (receiveBlock 5 demo_orphan demo_client) = Some st' /\
      provideMissingBlock (Some "peer") "G" st' = Some (Some "peer", demo_genesis)).
Proof.
  split; [|split].
  - apply (proj1 (provideMissingBlock_answers demo_client (Some "peer"))). reflexivity.
  - eexists. split; [vm_compute; reflexivity|].
    apply (proj1 (proj2 (provideMissingBlock_answers demo_client (Some "peer")))
             5%nat demo_blockL demo_blockL).
    vm_compute. reflexivity.
  - eexists. split; [vm_compute; reflexivity|].
    apply (proj2 (proj2 (provideMissingBlock_answers demo_client (Some "peer")))
             5%nat demo_orphan _ "G" demo_genesis); [reflexivity|].
    vm_compute. reflexivity.
Defined.

Lemma constructor_genesis_witness :
  exists st,
    constructor true (Some "a phrase") (Some demo_genesis) = Ret st /\
    ledger_ok st /\
    wallet st = [slot_of 0] /\ c_address st = Some (slot_address (slot_of 0)) /\
    prng st = 1%nat /\
    lastBlock st = Some demo_genesis /\ lastConfirmedBlock st = Some demo_genesis /\
    blocks st = {[ block_id demo_genesis := demo_genesis ]} /\
    (forall other,
        setGenesisBlock other st
        = Raised (Error "Cannot set genesis block for existing blockchain.") st) /\
    (forall n, receiveBlock (S n) demo_genesis st = Done None st).
Proof.
  apply (proj2 constructor_genesis "a phrase" demo_genesis). reflexivity.
Defined.

(** ** Spending *)

Section Spending.
Context {Block : Type} `{BlockContract Block} `{Crypto} `{Chain}.

Lemma fold_left_plus {A : Type} (g : A -> Z) (l : list A) (a : Z) :
  fold_left (fun acc x => acc + g x) l a = a + fold_left (fun acc x => acc + g x) l 0.
Proof.
  revert a. induction l as [|x l IH]; intros a; cbn [fold_left]; [lia|].
  rewrite IH, (IH (0 + g x)). lia.
Qed.

Lemma balanceSum_cons (c : Block) (s : Slot) (w : list Slot) :
  balanceSum c (s :: w) = balanceOf c (Some (slot_address s)) + balanceSum c w.
Proof. unfold balanceSum. cbn [fold_left]. rewrite fold_left_plus. lia. Qed.


Lemma getConfirmedBalance_sum (st : Client) (c : Block) :
  lastConfirmedBlock st = Some c ->
  getConfirmedBalance st = Ret (balanceSum c (wallet st)).
Proof.
  intros Hc. unfold getConfirmedBalance. rewrite Hc. by destruct (wallet st).
Qed.

Lemma gatherUTXOs_done (st : Client) (c : Block) (total : Z) (w : list Slot) :
  lastConfirmedBlock st = Some c ->
  forall gathered priv addrs keys,
    total <= gathered + balanceSum c w ->
    exists k,
      (k <= length w)%nat /\
      total <= gathered + balanceSum c (take k w) /\
      gatherUTXOs w total gathered priv addrs keys st
      = Done (gathered + balanceSum c (take k w),
              priv ++ map (fun s => private (slot_keyPair s)) (take k w),
              addrs ++ map slot_address (take k w),
              keys ++ map (fun s => public (slot_keyPair s)) (take k w))
          (set_wallet (drop k w) st).
Proof.
  intros Hc. induction w as [|s w IH]; intros gathered priv addrs keys Hsum.
  - exists 0%nat. cbn [gatherUTXOs take drop map balanceSum fold_left] in *.
    destruct (Z.ltb_spec gathered total); [unfold balanceSum in Hsum; cbn in Hsum; lia|].
    rewrite !app_nil_r, Z.add_0_r. split; [cbn; lia|]. split; [lia|reflexivity].
  - cbn [gatherUTXOs]. destruct (Z.ltb_spec gathered total) as [Hlt|Hge].
    + rewrite Hc. rewrite balanceSum_cons in Hsum.
      destruct (IH (gathered + balanceOf c (Some (slot_address s)))
                  (priv ++ [private (slot_keyPair s)]) (addrs ++ [slot_address s])
                  (keys ++ [public (slot_keyPair s)])) as (k & Hk & Hgot & Hrun); [lia|].
      exists (S k). cbn [take drop map length]. rewrite balanceSum_cons.
      split; [lia|]. split; [lia|]. rewrite Hrun, <- !app_assoc. cbn [app].
      by rewrite Z.add_assoc.
    + exists 0%nat. cbn [take drop map]. unfold balanceSum at 1 2. cbn [fold_left].
      rewrite !app_nil_r, Z.add_0_r. split; [lia|]. split; [lia|reflexivity].
Qed.

Lemma sign_fold_fields (keys : list string) (tx : Transaction) :
  let tx' := fold_left Tx.sign keys tx in
  from tx' = from tx /\ pubKey tx' = pubKey tx /\ outputs tx' = outputs tx /\
  fee tx' = fee tx /\
  sig tx' = sig tx ++ map (fun k => Utils.sign k (Tx.id tx)) keys.
Proof.
  cbn zeta. revert tx. induction keys as [|k keys IH]; intros tx; cbn [fold_left map].
  - by rewrite app_nil_r.
  - destruct (IH (Tx.sign tx k)) as (Hf & Hp & Ho & Hfee & Hs).
    rewrite Hf, Hp, Ho, Hfee, Hs. cbn [Tx.sign from pubKey outputs fee sig].
    rewrite <- app_assoc. cbn [app]. repeat split; done.
Qed.


Lemma postTransaction_insufficient_funds_aux
    (st : Client) (outputs : list Output) (fee : option Z) (balance : Z) :
  getConfirmedBalance st = Ret balance ->
  balance < fold_left (fun total o => total + amount o) outputs 0 + default DEFAULT_TX_FEE fee ->
  postTransaction outputs fee st = Raised (Error "Not enough money!") st.
Proof.
  intros Hbal Hlt. unfold postTransaction. rewrite Hbal.
  destruct (Z.ltb_spec balance
              (fold_left (fun total o => total + amount o) outputs 0
               + default DEFAULT_TX_FEE fee)); [reflexivity|lia].
Qed.

(** What a call of [postTransaction] that passes the balance check does. *)
Lemma postTransaction_run (st : Client) (c : Block) (outputs : list Output) (fee : option Z) :
  lastConfirmedBlock st = Some c ->
  spendTotal outputs fee <= balanceSum c (wallet st) ->
  exists k,
    (k <= length (wallet st))%nat /\
    let used := take k (wallet st) in
    let gathered := balanceSum c used in
    let needsChange := spendTotal outputs fee <? gathered in
    let change :=
      if needsChange
      then [{| amount := gathered - spendTotal outputs fee;
               address := slot_address (slot_of (prng st)) |}]
      else [] in
    let st_w :=
      if needsChange then snd (generateAddress (set_wallet (drop k (wallet st)) st))
      else set_wallet (drop k (wallet st)) st in
    let tx :=
      fold_left Tx.sign (map (fun s => private (slot_keyPair s)) used)
        (Tx.constructor (map slot_address used) 0
           (map (fun s => public (slot_keyPair s)) used)
           (outputs ++ change) (default DEFAULT_TX_FEE fee)) in
    spendTotal outputs fee <= gathered /\
    postTransaction outputs fee st
    = Done tx (broadcast (PostTransaction tx)
                 (set_pendingOutgoingTransactions
                    (<[Tx.id tx := tx]> (pendingOutgoingTransactions st_w)) st_w)).
Proof.
  intros Hc Hsum. unfold postTransaction.
  rewrite (getConfirmedBalance_sum st c Hc). fold (spendTotal outputs fee).
  destruct (Z.ltb_spec (balanceSum c (wallet st)) (spendTotal outputs fee)); [lia|].
  destruct (gatherUTXOs_done st c (spendTotal outputs fee) (wallet st) Hc 0 [] [] [])
    as (k & Hk & Hgot & Hrun); [lia|].
  exists k. split; [done|]. cbn zeta. split; [lia|].
  rewrite Hrun. cbn [rbind app]. rewrite Z.add_0_l.
  destruct (spendTotal outputs fee <? balanceSum c (take k (wallet st))); [|by rewrite app_nil_r].
  reflexivity.
Qed.




(** X19.  The books after a spend that went through: the slots that were
    spent are gone from the front of the wallet, a change address, if one
    was needed, is the next draw of the key stream and sits at the end;
    the transaction is pending under its id and was broadcast once; the
    ledger is untouched. *)
Theorem postTransaction_books (st : Client) (c : Block) (outs : list Output)
    (txFee : option Z) (tx : Transaction) (st' : Client) :
  lastConfirmedBlock st = Some c ->
  postTransaction outs txFee st = Done tx st' ->
  exists k,
    from tx = map slot_address (take k (wallet st)) /\
    (wallet st' = drop k (wallet st) /\ prng st' = prng st \/
     wallet st' = drop k (wallet st) ++ [slot_of (prng st)] /\ prng st' = S (prng st)) /\
    pendingOutgoingTransactions st' = <[Tx.id tx := tx]> (pendingOutgoingTransactions st) /\
    net st' = net st ++ [PostTransaction tx] /\
    blocks st' = blocks st /\ pendingBlocks st' = pendingBlocks st /\
    lastBlock st' = lastBlock st /\ lastConfirmedBlock st' = lastConfirmedBlock st.
Proof.
  intros Hc Hres.
  assert (spendTotal outs txFee <= balanceSum c (wallet st)) as Hsum.
  { destruct (Z.le_gt_cases (spendTotal outs txFee) (balanceSum c (wallet st))); [done|].
    rewrite (postTransaction_insufficient_funds_aux st outs txFee (balanceSum c (wallet st)))
      in Hres; [discriminate|by apply getConfirmedBalance_sum|unfold spendTotal in *; lia]. }
  destruct (postTransaction_run st c outs txFee Hc Hsum) as (k & Hk & Hgot & Hrun).
  cbn zeta in Hgot, Hrun. rewrite Hrun in Hres. injection Hres as <- <-.
  exists k.
  set (used := take k (wallet st)) in *.
  destruct (sign_fold_fields (map (fun s => private (slot_keyPair s)) used)
              (Tx.constructor (map slot_address used) 0
                 (map (fun s => public (slot_keyPair s)) used)
                 (outs ++ (if spendTotal outs txFee <? balanceSum c used
                              then [{| amount := balanceSum c used - spendTotal outs txFee;
                                       address := slot_address (slot_of (prng st)) |}]
                              else []))
                 (default DEFAULT_TX_FEE txFee))) as (Hf & _).
  split; [exact Hf|].
  destruct (spendTotal outs txFee <? balanceSum c used); cbn.
  - split; [by right|]. done.
  - split; [by left|]. done.
Qed.

(** X20.  When every slot of the wallet carries the address of its key and
    a key pair that signs and verifies, the transaction of a spend that
    went through carries one signature per input and passes the three
    checks at every index. *)
Theorem postTransaction_signed (st : Client) (c : Block) (outs : list Output)
    (txFee : option Z) (tx : Transaction) (st' : Client) :
  lastConfirmedBlock st = Some c ->
  Forall slot_ok (wallet st) ->
  Forall (fun s => key_ok (slot_keyPair s)) (wallet st) ->
  postTransaction outs txFee st = Done tx st' ->
  length (sig tx) = length (from tx) /\ length (pubKey tx) = length (from tx) /\
  forall i, (i < length (from tx))%nat -> Tx.indexPasses tx i.
Proof.
  intros Hc Hslots Hkeys Hres.
  assert (spendTotal outs txFee <= balanceSum c (wallet st)) as Hsum.
  { destruct (Z.le_gt_cases (spendTotal outs txFee) (balanceSum c (wallet st))); [done|].
    rewrite (postTransaction_insufficient_funds_aux st outs txFee (balanceSum c (wallet st)))
      in Hres; [discriminate|by apply getConfirmedBalance_sum|unfold spendTotal in *; lia]. }
  destruct (postTransaction_run st c outs txFee Hc Hsum) as (k & Hk & Hgot & Hrun).
  cbn zeta in Hgot, Hrun. rewrite Hrun in Hres. injection Hres as <- _.
  set (used := take k (wallet st)) in *.
  set (tx0 := Tx.constructor _ _ _ _ _).
  destruct (sign_fold_fields (map (fun s => private (slot_keyPair s)) used) tx0)
    as (Hf & Hp & _ & _ & Hs).
  set (tx := fold_left Tx.sign (map (fun s => private (slot_keyPair s)) used) tx0) in *.
  cbn [tx0 Tx.constructor from pubKey sig app] in Hf, Hp, Hs.
  rewrite Hf, Hp, Hs, !length_map. split; [done|]. split; [done|].
  intros i Hi. destruct (lookup_lt_is_Some_2 used i Hi) as [s Hsi].
  assert (s ∈ wallet st) as Hin.
  { unfold used in Hsi. apply lookup_take_Some in Hsi as [Hsi _].
    by eapply list_elem_of_lookup_2. }
  rewrite Forall_forall in Hslots, Hkeys.
  pose proof (Hslots s Hin) as Hslot. pose proof (Hkeys s Hin) as Hkey.
  unfold Tx.indexPasses. rewrite Hf, Hp, Hs, !list_lookup_fmap, Hsi. cbn [fmap option_fmap option_map].
  split.
  - eexists. split; [reflexivity|]. unfold Utils.addressMatchesKey.
    rewrite Hslot. apply String.eqb_refl.
  - eexists. split; [reflexivity|]. unfold Utils.verifySignature, Utils.sign.
    assert (Tx.id tx = Tx.id tx0) as -> by apply sign_many_id.
    by rewrite Hkey.
Qed.

End Spending.


Lemma postTransaction_books_witness :
  exists tx st' k,
    postTransaction [{| amount := 40; address := "B" |}] None demo_client = Done tx st' /\
    from tx = map slot_address (take k (wallet demo_client)) /\
    (wallet st' = drop k (wallet demo_client) /\ prng st' = prng demo_client \/
     wallet st' = drop k (wallet demo_client) ++ [slot_of (prng demo_client)] /\
     prng st' = S (prng demo_client)) /\
    pendingOutgoingTransactions st'
    = <[Tx.id tx := tx]> (pendingOutgoingTransactions demo_client) /\
    net st' = net demo_client ++ [PostTransaction tx] /\
    blocks st' = blocks demo_client /\ pendingBlocks st' = pendingBlocks demo_client /\
    lastBlock st' = lastBlock demo_client /\
    lastConfirmedBlock st' = lastConfirmedBlock demo_client.
Proof.
  assert (exists tx st',
             postTransaction [{| amount := 40; address := "B" |}] None demo_client
             = Done tx st') as (tx & st' & Hres)
    by (eexists _, _; vm_compute; reflexivity).
  destruct (postTransaction_books demo_client demo_genesis
              [{| amount := 40; address := "B" |}] None tx st') as [k Hk];
    [reflexivity|exact Hres|].
  exists tx, st', k. split; [exact Hres|exact Hk].
Defined.

Lemma postTransaction_signed_witness :
  exists tx st',
    postTransaction [{| amount := 40; address := "B" |}] None demo_client = Done tx st' /\
    length (sig tx) = length (from tx) /\ length (pubKey tx) = length (from tx) /\
    forall i, (i < length (from tx))%nat -> Tx.indexPasses tx i.
Proof.
  assert (exists tx st',
             postTransaction [{| amount := 40; address := "B" |}] None demo_client
             = Done tx st') as (tx & st' & Hres)
    by (eexists _, _; vm_compute; reflexivity).
  exists tx, st'. split; [exact Hres|].
  apply (postTransaction_signed demo_client demo_genesis
           [{| amount := 40; address := "B" |}] None tx st').
  - reflexivity.
  - repeat constructor.
  - repeat constructor. intros msg. apply String.eqb_refl.
  - exact Hres.
Defined.

(** ** Recovering funds *)

Section Recovery.
Context {Block : Type} `{BlockContract Block} `{Crypto} `{Chain}.

Lemma recoverFunds_loop_spec (c : Block) (m : Z) (fuel : nat) :
  1 <= m ->
  forall a chk q st q' st',
    0 <= a <= m -> (1 <= a -> balanceOf c chk = 0) ->
    recoverFunds_loop fuel c m a chk q st = Done q' st' ->
    exists n,
      prng st' = (prng st + n)%nat /\
      wallet st' = wallet st ++ map slot_of (List.filter (funded c) (List.seq (prng st) n)) /\
      (blocks st' = blocks st /\ pendingBlocks st' = pendingBlocks st /\
       lastBlock st' = lastBlock st /\ lastConfirmedBlock st' = lastConfirmedBlock st /\
       pendingOutgoingTransactions st' = pendingOutgoingTransactions st /\
       net st' = net st) /\
      ((n = Z.to_nat (m - a) /\
        forall k, (prng st <= k < prng st + n)%nat -> funded c k = false) \/
       ((Z.to_nat m < n)%nat /\
        funded c (prng st + n - Z.to_nat m - 1) = true /\
        forall k, (prng st + n - Z.to_nat m <= k < prng st + n)%nat -> funded c k = false)).
Proof.
  intros Hm. induction fuel as [|fuel IH]; intros a chk q st q' st' Ha Hchk;
    cbn [recoverFunds_loop].
  - destruct (Z.ltb_spec a m) as [Hlt|Hge].
    + rewrite orb_true_r. discriminate.
    + rewrite Hchk by lia. cbn [Z.eqb negb orb]. intros [= <- <-].
      exists 0%nat. rewrite Nat.add_0_r. cbn [List.seq List.filter map].
      rewrite app_nil_r. split; [done|]. split; [done|]. split; [done|].
      left. split; [lia|]. intros k Hk. lia.
  - destruct (Z.ltb_spec a m) as [Hlt|Hge].
    + rewrite orb_true_r. cbn [generateKeypairFromMnemonic].
      change (Utils.calcAddress (Some (public (keystream (prng st)))))
        with (slot_address (slot_of (prng st))).
      destruct (balanceOf c (Some (slot_address (slot_of (prng st)))) =? 0) eqn:Hbal.
      * intros Hres. apply IH in Hres as (n & Hp & Hw & Hfields & Hcases);
          [|lia|intros _; by apply Z.eqb_eq].
        cbn [prng wallet blocks pendingBlocks lastBlock lastConfirmedBlock
               pendingOutgoingTransactions net] in Hp, Hw, Hfields, Hcases.
        assert (funded c (prng st) = false) as Hmiss by (unfold funded; by rewrite Hbal).
        exists (S n). split; [lia|]. split; [|split; [done|]].
        -- cbn [List.seq List.filter]. by rewrite Hmiss.
        -- destruct Hcases as [[Hn Hall]|(Hn & Hhit & Hall)].
           ++ left. split; [lia|]. intros k Hk.
              destruct (decide (k = prng st)) as [->|Hne]; [done|]. apply Hall. lia.
           ++ right. split; [lia|]. split.
              ** rewrite <- Hhit. f_equal. lia.
              ** intros k Hk. apply Hall. lia.
      * intros Hres. apply IH in Hres as (n & Hp & Hw & Hfields & Hcases);
          [|lia|intros ?; lia].
        cbn [prng wallet blocks pendingBlocks lastBlock lastConfirmedBlock
               pendingOutgoingTransactions net set_wallet] in Hp, Hw, Hfields, Hcases.
        assert (funded c (prng st) = true) as Hfund by (unfold funded; by rewrite Hbal).
        exists (S n). split; [lia|]. split; [|split; [done|]].
        -- cbn [List.seq List.filter]. rewrite Hfund. cbn [map].
           rewrite Hw, <- app_assoc. reflexivity.
        -- right. destruct Hcases as [[Hn Hall]|(Hn & Hhit & Hall)].
           ++ rewrite Z.sub_0_r in Hn. split; [lia|]. split.
              ** rewrite <- Hfund. f_equal. lia.
              ** intros k Hk. apply Hall. lia.
           ++ split; [lia|]. split.
              ** rewrite <- Hhit. f_equal. lia.
              ** intros k Hk. apply Hall. lia.
    + rewrite Hchk by lia. cbn [Z.eqb negb orb]. intros [= <- <-].
      exists 0%nat. rewrite Nat.add_0_r. cbn [List.seq List.filter map].
      rewrite app_nil_r. split; [done|]. split; [done|]. split; [done|].
      left. split; [lia|]. intros k Hk. lia.
Qed.

(** X21.  What [recoverFunds] has done when it returns, for one attempt or
    more: it has drawn [n] keys, at least [maxAttempts]; the wallet has
    gained, in the order of the key stream, exactly the drawn addresses that
    hold funds in the confirmed block; the last [maxAttempts] draws hold
    nothing, and the draw before them, if there is one, holds funds; the
    ledger, the pending transactions and the network are untouched. *)
Theorem recoverFunds_finds (fuel : nat) (m : Z) (st st' : Client) (c : Block)
    (queries : list (option string)) :
  lastConfirmedBlock st = Some c ->
  1 <= m ->
  recoverFunds fuel (Some m) st = Done queries st' ->
  exists n,
    (Z.to_nat m <= n)%nat /\
    prng st' = (prng st + n)%nat /\
    wallet st' = wallet st ++ map slot_of (List.filter (funded c) (List.seq (prng st) n)) /\
    (forall k, (prng st + n - Z.to_nat m <= k < prng st + n)%nat -> funded c k = false) /\
    ((Z.to_nat m < n)%nat -> funded c (prng st + n - Z.to_nat m - 1) = true) /\
    blocks st' = blocks st /\ pendingBlocks st' = pendingBlocks st /\
    lastBlock st' = lastBlock st /\ lastConfirmedBlock st' = lastConfirmedBlock st /\
    pendingOutgoingTransactions st' = pendingOutgoingTransactions st /\
    net st' = net st.
Proof.
  intros Hc Hm Hres. unfold recoverFunds in Hres. rewrite Hc in Hres.
  cbn [from_option] in Hres. unfold id in Hres.
  apply (recoverFunds_loop_spec c m fuel Hm) in Hres
    as (n & Hp & Hw & Hfields & Hcases); [|lia|intros ?; lia].
  exists n. rewrite Z.sub_0_r in Hcases.
  destruct Hcases as [[Hn Hall]|(Hn & Hhit & Hall)].
  - split; [lia|]. split; [done|]. split; [done|]. split; [intros k Hk; apply Hall; lia|].
    split; [intros ?; lia|]. tauto.
  - split; [lia|]. split; [done|]. split; [done|]. split; [done|]. split; [done|]. tauto.
Qed.

Lemma recoverFunds_loop_ends (c : Block) (m : Z) (limit : nat) (fuel : nat) :
  1 <= m ->
  (forall k, (limit <= k)%nat -> funded c k = false) ->
  forall a chk q st,
    0 <= a <= m -> (1 <= a -> balanceOf c chk = 0) ->
    ((prng st < limit)%nat -> (limit - prng st + Z.to_nat m <= fuel)%nat) ->
    ((limit <= prng st)%nat -> (Z.to_nat (m - a) <= fuel)%nat) ->
    exists q' st', recoverFunds_loop fuel c m a chk q st = Done q' st'.
Proof.
  intros Hm Hempty. induction fuel as [|fuel IH]; intros a chk q st Ha Hchk Hlow Hhigh;
    cbn [recoverFunds_loop].
  - destruct (Z.ltb_spec a m) as [Hlt|Hge].
    + destruct (decide (prng st < limit)%nat); [specialize (Hlow ltac:(done)); lia|].
      specialize (Hhigh ltac:(lia)). lia.
    + rewrite Hchk by lia. cbn [Z.eqb negb orb]. by eexists _, _.
  - destruct (Z.ltb_spec a m) as [Hlt|Hge].
    + rewrite orb_true_r. cbn [generateKeypairFromMnemonic].
      change (Utils.calcAddress (Some (public (keystream (prng st)))))
        with (slot_address (slot_of (prng st))).
      destruct (balanceOf c (Some (slot_address (slot_of (prng st)))) =? 0) eqn:Hbal.
      * apply IH; cbn [prng]; [lia|intros _; by apply Z.eqb_eq|intros ?; lia|].
        intros Hge'. destruct (decide (prng st < limit)%nat);
          [specialize (Hlow ltac:(done)); lia|specialize (Hhigh ltac:(lia)); lia].
      * assert (prng st < limit)%nat as Hbelow.
        { destruct (decide (prng st < limit)%nat); [done|].
          pose proof (Hempty (prng st) ltac:(lia)) as Hf. unfold funded in Hf.
          rewrite Hbal in Hf. discriminate. }
        specialize (Hlow Hbelow).
        apply IH; cbn [prng set_wallet]; [lia|intros ?; lia|intros ?; lia|].
        intros _. rewrite Z.sub_0_r. lia.
    + rewrite Hchk by lia. cbn [Z.eqb negb orb]. by eexists _, _.
Qed.

(** X22.  [recoverFunds] returns when the funds stop: if no draw from
    [limit] on holds funds, then with fuel for the draws up to [limit] and
    [maxAttempts] more the walk ends. *)
Theorem recoverFunds_ends (fuel : nat) (m : Z) (limit : nat) (st : Client) (c : Block) :
  lastConfirmedBlock st = Some c ->
  1 <= m ->
  (forall k, (limit <= k)%nat -> funded c k = false) ->
  (limit - prng st + Z.to_nat m <= fuel)%nat ->
  exists queries st', recoverFunds fuel (Some m) st = Done queries st'.
Proof.
  intros Hc Hm Hempty Hfuel. unfold recoverFunds. rewrite Hc. cbn [from_option]. unfold id.
  apply (recoverFunds_loop_ends c m limit fuel Hm Hempty); [lia|intros ?; lia|lia|].
  intros _. rewrite Z.sub_0_r. lia.
Qed.

Lemma recoverFunds_loop_wallet (c : Block) (m : Z) (fuel : nat) :
  forall a chk q st st',
    state_after (recoverFunds_loop fuel c m a chk q st) = Some st' ->
    Forall slot_ok (wallet st) -> Forall slot_ok (wallet st').
Proof.
  induction fuel as [|fuel IH]; intros a chk q st st'; cbn [recoverFunds_loop].
  - destruct (_ || _); cbn [state_after]; [discriminate|]. by intros [= <-].
  - destruct (_ || _); cbn [state_after]; [|by intros [= <-]].
    cbn [generateKeypairFromMnemonic].
    destruct (balanceOf c _ =? 0); intros Hres Hok; apply IH in Hres; try done.
    cbn [wallet set_wallet]. apply Forall_app. split; [done|]. by repeat constructor.
Qed.

Lemma gatherUTXOs_wallet (w : list Slot) :
  forall total gathered priv addrs keys st st',
    state_after (gatherUTXOs w total gathered priv addrs keys st) = Some st' ->
    exists k, wallet st' = drop k w.
Proof.
  induction w as [|s w IH]; intros total gathered priv addrs keys st st';
    cbn [gatherUTXOs].
  - destruct (gathered <? total); cbn [state_after]; intros [= <-]; by exists 0%nat.
  - destruct (gathered <? total); cbn [state_after].
    + destruct (lastConfirmedBlock st).
      * intros Hres. apply IH in Hres as [k Hk]. by exists (S k).
      * intros [= <-]. by exists 1%nat.
    + intros [= <-]. by exists 0%nat.
Qed.

(** X23.  Every slot of the wallet carries the address of its own public
    key, and this is kept by all that changes the client: drawing an
    address, recovering funds, spending (that went through or not) and
    receiving blocks. *)
Theorem wallet_slots_ok (st : Client) :
  Forall slot_ok (wallet st) ->
  Forall slot_ok (wallet (snd (generateAddress st))) /\
  (forall fuel m st',
      state_after (recoverFunds fuel m st) = Some st' -> Forall slot_ok (wallet st')) /\
  (forall outs txFee st',
      state_after (postTransaction outs txFee st) = Some st' ->
      Forall slot_ok (wallet st')) /\
  (forall fuel block st',
      state_after (receiveBlock fuel block st) = Some st' -> Forall slot_ok (wallet st')).
Proof.
  intros Hok. split; [|split; [|split]].
  - cbn. apply Forall_app. split; [done|]. by repeat constructor.
  - intros fuel m st'. unfold recoverFunds.
    destruct (lastConfirmedBlock st); cbn [state_after]; [|by intros [= <-]].
    intros Hres. by eapply recoverFunds_loop_wallet.
  - intros outs txFee st'. unfold postTransaction.
    destruct (getConfirmedBalance st) as [balance| |]; cbn [state_after];
      [|by intros [= <-]|discriminate].
    destruct (balance <? _); cbn [state_after]; [by intros [= <-]|].
    destruct (gatherUTXOs (wallet st) _ 0 [] [] [] st) as [[[[g p] a] ks] st1 | e st1 |] eqn:Hg;
      cbn [rbind state_after]; [| |discriminate].
    + destruct (gatherUTXOs_wallet (wallet st) _ _ _ _ _ st st1 ltac:(by rewrite Hg))
        as [k Hk].
      assert (Forall slot_ok (wallet st1)) as Hok1 by (rewrite Hk; by apply Forall_drop).
      destruct (_ <? g); cbn; intros [= <-]; cbn; [|done].
      apply Forall_app. split; [done|]. by repeat constructor.
    + intros [= <-].
      destruct (gatherUTXOs_wallet (wallet st) _ _ _ _ _ st st1 ltac:(by rewrite Hg))
        as [k Hk].
      rewrite Hk. by apply Forall_drop.
  - intros fuel block st' Hres. apply receiveBlock_steps in Hres.
    induction Hres as [st|st st1 st' Hstep _ IH]; [done|].
    apply IH. destruct (ledger_step_keeps st st1 Hstep) as (_ & Hw & _). by rewrite Hw.
Qed.

End Recovery.

(** ** Available gold *)

Section Available.
Context {Block : Type} `{BlockContract Block} `{Crypto} `{Chain}.




End Available.


Lemma recoverFunds_finds_witness :
  exists queries st' n,
    recoverFunds 5 (Some 2) demo_client = Done queries st' /\
    (Z.to_nat 2 <= n)%nat /\
    prng st' = (prng demo_client + n)%nat /\
    wallet st'
    = wallet demo_client
      ++ map slot_of (List.filter (funded demo_genesis) (List.seq (prng demo_client) n)) /\
    (forall k, (prng demo_client + n - Z.to_nat 2 <= k < prng demo_client + n)%nat ->
               funded demo_genesis k = false) /\
    ((Z.to_nat 2 < n)%nat ->
     funded demo_genesis (prng demo_client + n - Z.to_nat 2 - 1) = true) /\
    blocks st' = blocks demo_client /\ pendingBlocks st' = pendingBlocks demo_client /\
    lastBlock st' = lastBlock demo_client /\
    lastConfirmedBlock st' = lastConfirmedBlock demo_client /\
    pendingOutgoingTransactions st' = pendingOutgoingTransactions demo_client /\
    net st' = net demo_client.
Proof.
  assert (exists queries st', recoverFunds 5 (Some 2) demo_client = Done queries st')
    as (queries & st' & Hres) by (eexists _, _; vm_compute; reflexivity).
  destruct (recoverFunds_finds 5 2 demo_client st' demo_genesis queries) as [n Hn].
  - reflexivity.
  - lia.
  - exact Hres.
  - exists queries, st', n. split; [exact Hres|exact Hn].
Defined.

Lemma recoverFunds_ends_witness :
  exists queries st',
    recoverFunds 2 (Some 2) (set_lastConfirmedBlock (Some demo_orphan) demo_client)
    = Done queries st'.
Proof.
  apply (recoverFunds_ends 2 2 0 (set_lastConfirmedBlock (Some demo_orphan) demo_client)
           demo_orphan).
  - reflexivity.
  - lia.
  - intros k _. reflexivity.
  - cbn. lia.
Defined.

Lemma wallet_slots_ok_witness :
  Forall slot_ok (wallet (snd (generateAddress demo_client))) /\
  (forall fuel m st',
      state_after (recoverFunds fuel m demo_client) = Some st' ->
      Forall slot_ok (wallet st')) /\
  (forall outs txFee st',
      state_after (postTransaction outs txFee demo_client) = Some st' ->
      Forall slot_ok (wallet st')) /\
  (forall fuel block st',
      state_after (receiveBlock fuel block demo_client) = Some st' ->
      Forall slot_ok (wallet st')).
Proof.
  apply (wallet_slots_ok demo_client). repeat constructor.
Defined.
